(** * Unit of Work of mikro-orm: change tracking, cascading and commit order

    A shallow embedding of [lib/unit-of-work/UnitOfWork.ts] and of the
    relation [Collection] class, together with the properties the
    specification states about them.

    Objects of the JavaScript heap are addressed by references (natural
    numbers); [===] on objects is equality of references.  Dictionaries
    created with [Object.create(null)] are finite maps keyed by strings,
    or insertion-ordered association lists where the code walks them.
    Arrays are lists, mutated in place by the code and threaded explicitly
    here.  Classes the code calls into and that are not part of the
    sources at hand are parameters, gathered in [Collaborators]. *)

From stdpp Require Import gmap strings list fin_maps sorting.
From Stdlib Require Import ZArith Lia.

Set Warnings "-register-all,-clear-no-such-hyp".

Local Open Scope string_scope.
Local Open Scope list_scope.

(** ** typings.ts and entity/enums.ts *)

Inductive ReferenceType :=
  SCALAR | ONE_TO_ONE | ONE_TO_MANY | MANY_TO_ONE | MANY_TO_MANY.

Inductive Cascade := PERSIST | MERGE | REMOVE | ALL.

Inductive ChangeSetType := CREATE | UPDATE | DELETE.

Inductive LockMode :=
  NONE | OPTIMISTIC | PESSIMISTIC_READ | PESSIMISTIC_WRITE.

Inductive HookType :=
  | onInit
  | beforeCreate | afterCreate
  | beforeUpdate | afterUpdate
  | beforeDelete | afterDelete.

#[global] Instance ReferenceType_eq_dec : EqDecision ReferenceType.
Proof. solve_decision. Defined.
#[global] Instance Cascade_eq_dec : EqDecision Cascade.
Proof. solve_decision. Defined.
#[global] Instance ChangeSetType_eq_dec : EqDecision ChangeSetType.
Proof. solve_decision. Defined.
#[global] Instance LockMode_eq_dec : EqDecision LockMode.
Proof. solve_decision. Defined.

(** The fields of [EntityProperty] the unit of work and the collection
    read.  An optional string ([mappedBy]) that is absent is the empty
    string: both are falsy in the source's tests. *)
Record EntityProperty := {
  name : string;
  type : string;
  reference : ReferenceType;
  prop_cascade : list Cascade;
  orphanRemoval : bool;
  owner : bool;
  mappedBy : string;
  nullable : bool;
  wrappedReference : bool;
}.

(** [properties] is [Object.values(meta.properties)], in declaration
    order. *)
Record EntityMetadata := {
  meta_name : string;
  collection : string;
  versionProperty : string;
  properties : list EntityProperty;
  hooks : HookType -> list string;
}.

(** References to entities and to collection objects. *)
Abbreviation Ent := nat (only parsing).
Abbreviation CollRef := nat (only parsing).

(** Values held by entity fields.  A [Date] and a raw array are objects:
    they carry their reference, and [===] compares references. *)
Inductive Value :=
  | VUndefined
  | VNumber (n : Z)
  | VString (s : string)
  | VDate (ref : nat) (time : Z)
  | VEntity (e : Ent)
  | VReference (e : Ent)
  | VCollection (c : CollRef)
  | VArray (ref : nat) (elements : list Value).

(** JavaScript truthiness of a value. *)
Definition truthy (v : Value) : bool :=
  match v with
  | VUndefined => false
  | VNumber n => negb (n =? 0)%Z
  | VString s => negb (String.eqb s "")
  | _ => true
  end.

(** [a === b]. *)
Definition strict_eq (a b : Value) : bool :=
  match a, b with
  | VUndefined, VUndefined => true
  | VNumber n, VNumber m => (n =? m)%Z
  | VString s, VString t => String.eqb s t
  | VDate r _, VDate r' _ => Nat.eqb r r'
  | VEntity e, VEntity e' => Nat.eqb e e'
  | VReference e, VReference e' => Nat.eqb e e'
  | VCollection c, VCollection c' => Nat.eqb c c'
  | VArray r _, VArray r' _ => Nat.eqb r r'
  | _, _ => false
  end.

Definition truthy_str (s : string) : bool := negb (String.eqb s "").

(** A wrapped entity: the internal members [wrap(entity)] exposes, and
    the entity's own fields. [__primaryKey] is [None] when no primary key
    is assigned (a falsy value in the source). *)
Record EntityObj := {
  className : string;
  __uuid : string;
  __primaryKey : option string;
  __primaryKeys : list string;
  __serializedPrimaryKey : string;
  __initialized : bool;
  __em : bool;
  fields : gmap string Value;
}.

(** A [Collection] object with its private members; [property] is the
    relation of the owner the collection sits in. *)
Record CollObj := {
  coll_owner : Ent;
  property : EntityProperty;
  items : list Ent;
  snapshot : list Ent;
  initialized : bool;
  dirty : bool;
  _populated : bool;
}.

Abbreviation EntityData := (gmap string Value) (only parsing).

Record ChangeSet := {
  cs_type : ChangeSetType;
  cs_name : string;
  cs_collection : string;
  cs_entity : Ent;
  cs_payload : EntityData;
  cs_persisted : bool;
}.

Abbreviation CsRef := nat (only parsing).

(** The state of one [UnitOfWork] together with the object heap it works
    on: entities, collections and change-set objects, each behind its
    reference.  [identityMap] keeps the insertion order of its keys, which
    [Object.values] follows; the two other dictionaries are only read and
    written by key.  [changeSets] holds references, so that a change set
    mutated by the driver is seen through the list. [next_ref] is the next
    free object reference.  [arrays] holds the [visited] arrays: an
    array is passed by reference down a call tree, and a call with the
    default argument [[]] allocates a new one. *)
Record World := {
  ents : gmap Ent EntityObj;
  colls : gmap CollRef CollObj;
  csHeap : gmap CsRef ChangeSet;
  identityMap : list (string * Ent);
  originalEntityData : gmap string EntityData;
  identifierMap : gmap string unit;
  persistStack : list Ent;
  removeStack : list Ent;
  orphanRemoveStack : list Ent;
  changeSets : list CsRef;
  collectionUpdates : list CollRef;
  extraUpdates : list (Ent * string * Value);
  arrays : gmap nat (list Ent);
  next_ref : nat;
}.

Inductive Error :=
  | NotEntity
  | CannotModifyInverseCollection
  | CollectionNotInitialized
  | EntityNotManaged
  | NotVersioned
  | LockFailedVersionMismatch
  | TransactionRequired
  | TypeError
  | DriverError (msg : string).

#[global] Instance Error_eq_dec : EqDecision Error.
Proof. solve_decision. Defined.

(** The outcome of a call: the state it leaves, and the error if it
    threw.  Recursive functions of the source are defined by recursion on
    a bound of the call depth; [OutOfFuel] is the outcome of a run whose
    bound was too small. *)
Inductive Outcome :=
  | Return (w : World)
  | Throw (err : Error) (w : World)
  | OutOfFuel.

Definition bind (o : Outcome) (k : World -> Outcome) : Outcome :=
  match o with
  | Return w => k w
  | Throw err w => Throw err w
  | OutOfFuel => OutOfFuel
  end.

Notation "o >>- k" := (bind o k) (at level 60, right associativity).


(** Field updates of [World]. *)
Definition set_ents (x : gmap Ent EntityObj) (w : World) : World :=
  {| ents := x; colls := colls w; csHeap := csHeap w;
     identityMap := identityMap w;
     originalEntityData := originalEntityData w;
     identifierMap := identifierMap w; persistStack := persistStack w;
     removeStack := removeStack w; orphanRemoveStack := orphanRemoveStack w;
     changeSets := changeSets w; collectionUpdates := collectionUpdates w;
     extraUpdates := extraUpdates w; arrays := arrays w;
     next_ref := next_ref w |}.
Definition set_colls (x : gmap CollRef CollObj) (w : World) : World :=
  {| ents := ents w; colls := x; csHeap := csHeap w;
     identityMap := identityMap w;
     originalEntityData := originalEntityData w;
     identifierMap := identifierMap w; persistStack := persistStack w;
     removeStack := removeStack w; orphanRemoveStack := orphanRemoveStack w;
     changeSets := changeSets w; collectionUpdates := collectionUpdates w;
     extraUpdates := extraUpdates w; arrays := arrays w;
     next_ref := next_ref w |}.
Definition set_csHeap (x : gmap CsRef ChangeSet) (w : World) : World :=
  {| ents := ents w; colls := colls w; csHeap := x;
     identityMap := identityMap w;
     originalEntityData := originalEntityData w;
     identifierMap := identifierMap w; persistStack := persistStack w;
     removeStack := removeStack w; orphanRemoveStack := orphanRemoveStack w;
     changeSets := changeSets w; collectionUpdates := collectionUpdates w;
     extraUpdates := extraUpdates w; arrays := arrays w;
     next_ref := next_ref w |}.
Definition set_identityMap (x : list (string * Ent)) (w : World) : World :=
  {| ents := ents w; colls := colls w; csHeap := csHeap w; identityMap := x;
     originalEntityData := originalEntityData w;
     identifierMap := identifierMap w; persistStack := persistStack w;
     removeStack := removeStack w; orphanRemoveStack := orphanRemoveStack w;
     changeSets := changeSets w; collectionUpdates := collectionUpdates w;
     extraUpdates := extraUpdates w; arrays := arrays w;
     next_ref := next_ref w |}.
Definition set_originalEntityData (x : gmap string EntityData) (w : World) : World :=
  {| ents := ents w; colls := colls w; csHeap := csHeap w;
     identityMap := identityMap w; originalEntityData := x;
     identifierMap := identifierMap w; persistStack := persistStack w;
     removeStack := removeStack w; orphanRemoveStack := orphanRemoveStack w;
     changeSets := changeSets w; collectionUpdates := collectionUpdates w;
     extraUpdates := extraUpdates w; arrays := arrays w;
     next_ref := next_ref w |}.
Definition set_identifierMap (x : gmap string unit) (w : World) : World :=
  {| ents := ents w; colls := colls w; csHeap := csHeap w;
     identityMap := identityMap w;
     originalEntityData := originalEntityData w; identifierMap := x;
     persistStack := persistStack w; removeStack := removeStack w;
     orphanRemoveStack := orphanRemoveStack w; changeSets := changeSets w;
     collectionUpdates := collectionUpdates w;
     extraUpdates := extraUpdates w; arrays := arrays w;
     next_ref := next_ref w |}.
Definition set_persistStack (x : list Ent) (w : World) : World :=
  {| ents := ents w; colls := colls w; csHeap := csHeap w;
     identityMap := identityMap w;
     originalEntityData := originalEntityData w;
     identifierMap := identifierMap w; persistStack := x;
     removeStack := removeStack w; orphanRemoveStack := orphanRemoveStack w;
     changeSets := changeSets w; collectionUpdates := collectionUpdates w;
     extraUpdates := extraUpdates w; arrays := arrays w;
     next_ref := next_ref w |}.
Definition set_removeStack (x : list Ent) (w : World) : World :=
  {| ents := ents w; colls := colls w; csHeap := csHeap w;
     identityMap := identityMap w;
     originalEntityData := originalEntityData w;
     identifierMap := identifierMap w; persistStack := persistStack w;
     removeStack := x; orphanRemoveStack := orphanRemoveStack w;
     changeSets := changeSets w; collectionUpdates := collectionUpdates w;
     extraUpdates := extraUpdates w; arrays := arrays w;
     next_ref := next_ref w |}.
Definition set_orphanRemoveStack (x : list Ent) (w : World) : World :=
  {| ents := ents w; colls := colls w; csHeap := csHeap w;
     identityMap := identityMap w;
     originalEntityData := originalEntityData w;
     identifierMap := identifierMap w; persistStack := persistStack w;
     removeStack := removeStack w; orphanRemoveStack := x;
     changeSets := changeSets w; collectionUpdates := collectionUpdates w;
     extraUpdates := extraUpdates w; arrays := arrays w;
     next_ref := next_ref w |}.
Definition set_changeSets (x : list CsRef) (w : World) : World :=
  {| ents := ents w; colls := colls w; csHeap := csHeap w;
     identityMap := identityMap w;
     originalEntityData := originalEntityData w;
     identifierMap := identifierMap w; persistStack := persistStack w;
     removeStack := removeStack w; orphanRemoveStack := orphanRemoveStack w;
     changeSets := x; collectionUpdates := collectionUpdates w;
     extraUpdates := extraUpdates w; arrays := arrays w;
     next_ref := next_ref w |}.
Definition set_collectionUpdates (x : list CollRef) (w : World) : World :=
  {| ents := ents w; colls := colls w; csHeap := csHeap w;
     identityMap := identityMap w;
     originalEntityData := originalEntityData w;
     identifierMap := identifierMap w; persistStack := persistStack w;
     removeStack := removeStack w; orphanRemoveStack := orphanRemoveStack w;
     changeSets := changeSets w; collectionUpdates := x;
     extraUpdates := extraUpdates w; arrays := arrays w;
     next_ref := next_ref w |}.
Definition set_extraUpdates (x : list (Ent * string * Value)) (w : World) : World :=
  {| ents := ents w; colls := colls w; csHeap := csHeap w;
     identityMap := identityMap w;
     originalEntityData := originalEntityData w;
     identifierMap := identifierMap w; persistStack := persistStack w;
     removeStack := removeStack w; orphanRemoveStack := orphanRemoveStack w;
     changeSets := changeSets w; collectionUpdates := collectionUpdates w;
     extraUpdates := x; arrays := arrays w; next_ref := next_ref w |}.
Definition set_arrays (x : gmap nat (list Ent)) (w : World) : World :=
  {| ents := ents w; colls := colls w; csHeap := csHeap w;
     identityMap := identityMap w;
     originalEntityData := originalEntityData w;
     identifierMap := identifierMap w; persistStack := persistStack w;
     removeStack := removeStack w; orphanRemoveStack := orphanRemoveStack w;
     changeSets := changeSets w; collectionUpdates := collectionUpdates w;
     extraUpdates := extraUpdates w; arrays := x; next_ref := next_ref w |}.
Definition set_next_ref (x : nat) (w : World) : World :=
  {| ents := ents w; colls := colls w; csHeap := csHeap w;
     identityMap := identityMap w;
     originalEntityData := originalEntityData w;
     identifierMap := identifierMap w; persistStack := persistStack w;
     removeStack := removeStack w; orphanRemoveStack := orphanRemoveStack w;
     changeSets := changeSets w; collectionUpdates := collectionUpdates w;
     extraUpdates := extraUpdates w; arrays := arrays w; next_ref := x |}.

Definition set_items (x : list Ent) (c : CollObj) : CollObj :=
  {| coll_owner := coll_owner c; property := property c; items := x;
     snapshot := snapshot c; initialized := initialized c; dirty := dirty c;
     _populated := _populated c |}.
Definition set_snapshot (x : list Ent) (c : CollObj) : CollObj :=
  {| coll_owner := coll_owner c; property := property c; items := items c;
     snapshot := x; initialized := initialized c; dirty := dirty c;
     _populated := _populated c |}.
Definition set_initialized (x : bool) (c : CollObj) : CollObj :=
  {| coll_owner := coll_owner c; property := property c; items := items c;
     snapshot := snapshot c; initialized := x; dirty := dirty c;
     _populated := _populated c |}.
Definition set_dirty (x : bool) (c : CollObj) : CollObj :=
  {| coll_owner := coll_owner c; property := property c; items := items c;
     snapshot := snapshot c; initialized := initialized c; dirty := x;
     _populated := _populated c |}.

Definition set___em (x : bool) (o : EntityObj) : EntityObj :=
  {| className := className o; __uuid := __uuid o;
     __primaryKey := __primaryKey o; __primaryKeys := __primaryKeys o;
     __serializedPrimaryKey := __serializedPrimaryKey o;
     __initialized := __initialized o; __em := x; fields := fields o |}.
Definition set_fields (x : gmap string Value) (o : EntityObj) : EntityObj :=
  {| className := className o; __uuid := __uuid o;
     __primaryKey := __primaryKey o; __primaryKeys := __primaryKeys o;
     __serializedPrimaryKey := __serializedPrimaryKey o;
     __initialized := __initialized o; __em := __em o; fields := x |}.

(** ** Arrays and dictionaries *)

(** [arr.includes(x)] *)
Definition includes (x : nat) (arr : list nat) : bool := bool_decide (x ∈ arr).

(** [arr.indexOf(x)], [-1] when [x] is not in [arr]. *)
Fixpoint indexOf {A} `{EqDecision A} (arr : list A) (x : A) : Z :=
  match arr with
  | [] => -1
  | y :: rest =>
      if decide (x = y) then 0
      else let r := indexOf rest x in if (r <? 0)%Z then -1 else (r + 1)%Z
  end.

(** Insertion-ordered dictionary with string keys. *)
Fixpoint dict_get {V} (k : string) (d : list (string * V)) : option V :=
  match d with
  | [] => None
  | (k', v) :: rest => if decide (k = k') then Some v else dict_get k rest
  end.

(** [d[k] = v]: an existing key keeps its place, a new key goes last. *)
Fixpoint dict_set {V} (k : string) (v : V) (d : list (string * V))
  : list (string * V) :=
  match d with
  | [] => [(k, v)]
  | (k', v') :: rest =>
      if decide (k = k') then (k, v) :: rest else (k', v') :: dict_set k v rest
  end.

(** [delete d[k]] *)
Definition dict_delete {V} (k : string) (d : list (string * V))
  : list (string * V) :=
  filter (fun kv => kv.1 ≠ k) d.

(** [Object.values(d)] *)
Definition dict_values {V} (d : list (string * V)) : list V := d.*2.

(** The entity object behind a reference, and one of its fields
    ([entity[key]]; a missing field reads [undefined]). *)
Definition field (w : World) (e : Ent) (key : string) : Value :=
  match ents w !! e with
  | Some o => default VUndefined (fields o !! key)
  | None => VUndefined
  end.

(** [entity[key] = v] *)
Definition set_field (e : Ent) (key : string) (v : Value) (w : World)
  : World :=
  set_ents (alter (fun o => set_fields (<[key := v]> (fields o)) o) e (ents w)) w.

(** [delete entity[key]] *)
Definition delete_field (e : Ent) (key : string) (w : World) : World :=
  set_ents (alter (fun o => set_fields (delete key (fields o)) o) e (ents w)) w.

(** The visited array behind a reference. *)
Definition array (w : World) (a : nat) : list Ent :=
  default [] (arrays w !! a).

(** [arr.push(x)] *)
Definition array_push (a : nat) (x : Ent) (w : World) : World :=
  set_arrays (<[a := array w a ++ [x]]> (arrays w)) w.

(** A new empty array: its reference and the state holding it. *)
Definition new_array (w : World) : nat * World :=
  (next_ref w,
   set_next_ref (S (next_ref w)) (set_arrays (<[next_ref w := []]> (arrays w)) w)).

(** [cleanUpStack(stack, entity)]: the [for ... in] loop walks the indices
    the array had at the start that still exist when reached; after a
    [splice] at an index, the element that moved into it is not looked at,
    and the walk goes on from the next index. *)
Fixpoint cleanUpStack (stack : list Ent) (entity : Ent) : list Ent :=
  match stack with
  | [] => []
  | x :: rest =>
      if decide (x = entity) then
        match rest with
        | [] => []
        | y :: rest' => y :: cleanUpStack rest' entity
        end
      else x :: cleanUpStack rest entity
  end.

(** ** Collaborators

    The classes the unit of work and the collection call into and whose
    code is not part of the sources at hand.  Each is a parameter of the
    model; the theorems hold for every implementation of them. *)

(** What [ChangeSetComputer.computeChangeSet] hands back: a new change set
    or [null], or the validator's error. *)
Inductive Computed :=
  | Computes (cs : option ChangeSet) (w : World)
  | ComputeThrows (err : Error) (w : World).

Class Collaborators := {
  (** [ArrayCollection], the base class of [Collection]: the new item
      array from the current one and the arguments. *)
  super_add : list Ent -> list Ent -> list Ent;
  super_remove : list Ent -> list Ent -> list Ent;
  super_set : list Ent -> list Ent -> list Ent;
  super_hydrate : list Ent -> list Ent -> list Ent;
  (** [MetadataStorage.get] *)
  metadata_get : string -> EntityMetadata;
  (** [Utils] *)
  prepareEntity : World -> Ent -> EntityData;
  diffEntities : EntityData -> World -> Ent -> EntityData;
  getPrimaryKeyHash : list string -> string;
  (** [ChangeSetComputer] *)
  computeChangeSet : Ent -> World -> Computed;
  (** [CommitOrderCalculator.sort()], from the nodes and the weighted
      dependencies added to the calculator. *)
  CommitOrderCalculator_sort :
    list string -> list (string * string * nat) -> list string;
  (** [ChangeSetPersister] and the driver *)
  persistChangeSet : CsRef -> World -> Outcome;
  syncCollection : CollRef -> World -> Outcome;
  lockQuery : Ent -> LockMode -> World -> Outcome;
  (** [EntityManager], its configuration and its connection *)
  em_merge : Ent -> World -> Outcome;
  em_getReference : string -> Value -> bool -> World -> Value * World;
  isInTransaction : bool;
  supportsTransactions : bool;
  implicitTransactions : bool;
  transactional : (World -> Outcome) -> World -> Outcome;
  (** Methods of the entities: lifecycle hooks and [init]. *)
  call_hook : string -> Ent -> World -> Outcome;
  entity_init : Ent -> World -> Outcome;
}.

(** ** entity/Collection.ts *)

Section Collection.
Context `{Collaborators}.

(** Run [k] on the collection object behind [c]. *)
Definition with_coll (c : CollRef) (w : World) (k : CollObj -> Outcome)
  : Outcome :=
  match colls w !! c with
  | Some co => k co
  | None => Throw TypeError w
  end.

Definition update_coll (c : CollRef) (f : CollObj -> CollObj) (w : World)
  : World :=
  set_colls (alter f c (colls w)) w.

(** [Utils.isEntity(item)]: an entity object, not a reference wrapper, a
    collection or a scalar. *)
Definition isEntity (v : Value) : bool :=
  match v with VEntity _ => true | _ => false end.

Definition entities_of (vs : list Value) : list Ent :=
  omap (fun v => match v with VEntity e => Some e | _ => None end) vs.

(** [x.isInitialized()] for the object a relation field holds: a
    collection, an entity or a reference wrapper. *)
Definition value_isInitialized (w : World) (v : Value) : bool :=
  match v with
  | VCollection c =>
      match colls w !! c with Some co => initialized co | None => false end
  | VEntity e | VReference e =>
      match ents w !! e with Some o => __initialized o | None => false end
  | _ => false
  end.

Definition isDirty (w : World) (c : CollRef) : bool :=
  match colls w !! c with Some co => dirty co | None => false end.

(** [setDirty(dirty = true)] *)
Definition setDirty (c : CollRef) (d : bool) (w : World) : World :=
  update_coll c (fun co => set_dirty (d && owner (property co)) co) w.

Definition checkInitialized (c : CollRef) (w : World) : Outcome :=
  with_coll c w (fun co =>
    if initialized co then Return w else Throw CollectionNotInitialized w).

Definition validateItemType (vs : list Value) (w : World) : Outcome :=
  if forallb isEntity vs then Return w else Throw NotEntity w.

(** The test of [validateModification] on one item:
    [!item[mappedBy] || !item[mappedBy].isInitialized()]. *)
Definition owning_side_missing (w : World) (mappedBy : string) (item : Ent)
  : bool :=
  negb (truthy (field w item mappedBy))
  || negb (value_isInitialized w (field w item mappedBy)).

Definition manyToManyInverse (p : EntityProperty) : bool :=
  bool_decide (reference p = MANY_TO_MANY) && truthy_str (mappedBy p).

Definition validateModification (c : CollRef) (its : list Ent) (w : World)
  : Outcome :=
  with_coll c w (fun co =>
    if manyToManyInverse (property co)
       && existsb (owning_side_missing w (mappedBy (property co))) its
    then Throw CannotModifyInverseCollection w
    else Return w).

(** [cancelOrphanRemoval(items)]; [UnitOfWork.cancelOrphanRemoval] is
    [cleanUpStack(orphanRemoveStack, item)]. *)
Definition uow_cancelOrphanRemoval (item : Ent) (w : World) : World :=
  set_orphanRemoveStack (cleanUpStack (orphanRemoveStack w) item) w.

Definition owner_has_em (w : World) (co : CollObj) : bool :=
  match ents w !! coll_owner co with Some o => __em o | None => false end.

Definition cancelOrphanRemoval (c : CollRef) (its : list Ent) (w : World)
  : Outcome :=
  with_coll c w (fun co =>
    if owner_has_em w co
    then Return (foldl (fun w item => uow_cancelOrphanRemoval item w) w its)
    else Return w).

(** [UnitOfWork.scheduleOrphanRemoval] *)
Definition scheduleOrphanRemoval (item : Ent) (w : World) : World :=
  set_orphanRemoveStack (orphanRemoveStack w ++ [item]) w.

Inductive Method := Add | Remove.

(** [modify(method, items)] *)
Definition modify (c : CollRef) (m : Method) (its : list Ent) (w : World)
  : Outcome :=
  checkInitialized c w >>- fun w =>
  validateModification c its w >>- fun w =>
  let super := match m with Add => super_add | Remove => super_remove end in
  Return (setDirty c true
            (update_coll c (fun co => set_items (super (items co) its) co) w)).

(** [add(...items)] *)
Definition Collection_add (c : CollRef) (vs : list Value) (w : World)
  : Outcome :=
  validateItemType vs w >>- fun w =>
  modify c Add (entities_of vs) w >>- fun w =>
  cancelOrphanRemoval c (entities_of vs) w.

(** [set(items)] *)
Definition Collection_set (c : CollRef) (vs : list Value) (w : World)
  : Outcome :=
  validateItemType vs w >>- fun w =>
  validateModification c (entities_of vs) w >>- fun w =>
  let w := update_coll c
             (fun co => set_items (super_set (items co) (entities_of vs)) co) w in
  cancelOrphanRemoval c (entities_of vs) (setDirty c true w).

(** [remove(...items)] *)
Definition Collection_remove (c : CollRef) (its : list Ent) (w : World)
  : Outcome :=
  modify c Remove its w >>- fun w =>
  with_coll c w (fun co =>
    if orphanRemoval (property co) && owner_has_em w co
    then Return (foldl (fun w item => scheduleOrphanRemoval item w) w its)
    else Return w).

(** [takeSnapshot()] *)
Definition takeSnapshot (c : CollRef) (w : World) : World :=
  setDirty c false (update_coll c (fun co => set_snapshot (items co) co) w).

(** [hydrate(items, validate = false)] *)
Definition hydrate (c : CollRef) (its : list Ent) (validate : bool)
    (w : World) : Outcome :=
  (if validate then validateModification c its w else Return w) >>- fun w =>
  Return (takeSnapshot c
    (update_coll c
       (fun co => set_items (super_hydrate (items co) its)
                    (set_initialized true co)) w)).

(** [getItems()] of a collection, [None] when [checkInitialized] throws. *)
Definition getItems (w : World) (c : CollRef) : option (list Ent) :=
  match colls w !! c with
  | Some co => if initialized co then Some (items co) else None
  | None => None
  end.

(** [isInitialized(fully = false)] *)
Definition Collection_isInitialized (w : World) (c : CollRef) (fully : bool)
  : bool :=
  match colls w !! c with
  | Some co =>
      if fully
      then initialized co
           && forallb (fun item => value_isInitialized w (VEntity item))
                (items co)
      else initialized co
  | None => false
  end.

(** [new Collection(owner)] sitting in [owner[p.name]]: no items,
    initialized, clean. *)
Definition new_Collection (owner_ : Ent) (p : EntityProperty) : CollObj :=
  {| coll_owner := owner_; property := p; items := []; snapshot := [];
     initialized := true; dirty := false; _populated := false |}.

End Collection.

(** ** unit-of-work/UnitOfWork.ts *)

Section UnitOfWork.
Context `{Collaborators}.

Definition no_entity : EntityObj :=
  {| className := ""; __uuid := ""; __primaryKey := None; __primaryKeys := [];
     __serializedPrimaryKey := ""; __initialized := false; __em := false;
     fields := ∅ |}.

(** [wrap(entity)] *)
Definition wrap (w : World) (e : Ent) : EntityObj :=
  default no_entity (ents w !! e).

Definition hasPrimaryKey (w : World) (e : Ent) : bool :=
  bool_decide (is_Some (__primaryKey (wrap w e))).

(** [`${wrapped.constructor.name}-${wrapped.__serializedPrimaryKey}`] *)
Definition identityKey (w : World) (e : Ent) : string :=
  className (wrap w e) +:+ "-" +:+ __serializedPrimaryKey (wrap w e).

(** [getById(entityName, id)], [id] already as an array. *)
Definition getById (w : World) (entityName : string) (id : list string)
  : option Ent :=
  dict_get (entityName +:+ "-" +:+ getPrimaryKeyHash id) (identityMap w).

(** [unsetIdentity(entity)] *)
Definition unsetIdentity (entity : Ent) (w : World) : World :=
  let w1 := set_identityMap
              (dict_delete (identityKey w entity) (identityMap w)) w in
  let w2 := set_identifierMap
              (delete (__uuid (wrap w entity)) (identifierMap w1)) w1 in
  set_originalEntityData
    (delete (__uuid (wrap w entity)) (originalEntityData w2)) w2.

(** [unwrapReference(entity, prop)] *)
Definition unwrapReference (w : World) (entity : Ent) (prop : EntityProperty)
  : Value :=
  match field w entity (name prop) with
  | VReference e => VEntity e
  | v => v
  end.

Definition isToOne (prop : EntityProperty) : bool :=
  bool_decide (reference prop = MANY_TO_ONE)
  || bool_decide (reference prop = ONE_TO_ONE).

Definition isToMany (prop : EntityProperty) : bool :=
  bool_decide (reference prop = ONE_TO_MANY)
  || bool_decide (reference prop = MANY_TO_MANY).

(** [shouldCascade(prop, type)] *)
Definition shouldCascade (prop : EntityProperty) (type_ : Cascade) : bool :=
  if bool_decide (type_ = REMOVE) && orphanRemoval prop then true
  else bool_decide (type_ ∈ prop_cascade prop)
       || bool_decide (ALL ∈ prop_cascade prop).

(** [fixMissingReference(entity, prop)] *)
Definition fixMissingReference (entity : Ent) (prop : EntityProperty)
    (w : World) : Outcome :=
  let reference_ := unwrapReference w entity prop in
  let w1 :=
    if isToOne prop && truthy reference_ && negb (isEntity reference_)
    then let '(r, w') :=
           em_getReference (type prop) reference_ (wrappedReference prop) w in
         set_field entity (name prop) r w'
    else w in
  match reference_ with
  | VArray _ elements =>
      if isToMany prop then
        let c := next_ref w1 in
        let w2 := set_next_ref (S c)
                    (set_colls (<[c := new_Collection entity prop]> (colls w1))
                       w1) in
        Collection_set c elements (set_field entity (name prop) (VCollection c) w2)
      else Return w1
  | _ => Return w1
  end.

(** [Object.defineProperty(wrapped, '__em', { value: this.em, ... })] *)
Definition define___em (entity : Ent) (w : World) : World :=
  set_ents (alter (set___em true) entity (ents w)) w.

(** [for (const x of xs) body(x)] and [xs.forEach(body)] *)
Definition for_each {A} (xs : list A) (body : A -> World -> Outcome)
    (w : World) : Outcome :=
  foldl (fun o x => o >>- body x) (Return w) xs.

(** [merge], [persist], [remove], [cascade] and [cascadeReference] call
    each other; [fuel] bounds the depth of the calls.  A relation field
    whose value does not fit the kind of its relation (a collection under
    a to-one relation, say) is outside what the types of the source allow:
    there the walk stops with a [TypeError] or skips the field. *)
Fixpoint merge (fuel : nat) (entity : Ent) (visited : nat) (mergeData : bool)
    (w : World) {struct fuel} : Outcome :=
  match fuel with
  | 0 => OutOfFuel
  | S fuel =>
      let w := define___em entity w in
      if negb (hasPrimaryKey w entity) then Return w
      else
        let w := set_identityMap
                   (dict_set (identityKey w entity) entity (identityMap w)) w in
        let w := if mergeData
                 then set_originalEntityData
                        (<[__uuid (wrap w entity) := prepareEntity w entity]>
                           (originalEntityData w)) w
                 else w in
        cascade fuel entity MERGE visited false w
  end

with persist (fuel : nat) (entity : Ent) (visited : nat)
    (checkRemoveStack : bool) (w : World) {struct fuel} : Outcome :=
  match fuel with
  | 0 => OutOfFuel
  | S fuel =>
      if includes entity (persistStack w) then Return w
      else if checkRemoveStack && includes entity (removeStack w) then Return w
      else
        let w := if negb (hasPrimaryKey w entity)
                 then set_identifierMap
                        (<[__uuid (wrap w entity) := ()]> (identifierMap w)) w
                 else w in
        let w := set_persistStack (persistStack w ++ [entity]) w in
        let w := set_removeStack (cleanUpStack (removeStack w) entity) w in
        cascade fuel entity PERSIST visited checkRemoveStack w
  end

with remove (fuel : nat) (entity : Ent) (visited : nat) (w : World)
    {struct fuel} : Outcome :=
  match fuel with
  | 0 => OutOfFuel
  | S fuel =>
      if includes entity (removeStack w) then Return w
      else
        let w := if hasPrimaryKey w entity
                 then set_removeStack (removeStack w ++ [entity]) w
                 else w in
        let w := set_persistStack (cleanUpStack (persistStack w) entity) w in
        let w := unsetIdentity entity w in
        cascade fuel entity REMOVE visited false w
  end

with cascade (fuel : nat) (entity : Ent) (type_ : Cascade) (visited : nat)
    (checkRemoveStack : bool) (w : World) {struct fuel} : Outcome :=
  match fuel with
  | 0 => OutOfFuel
  | S fuel =>
      if includes entity (array w visited) then Return w
      else
        let w := array_push visited entity w in
        (match type_ with
         | PERSIST => persist fuel entity visited checkRemoveStack w
         | MERGE => merge fuel entity visited true w
         | REMOVE => remove fuel entity visited w
         | ALL => Return w
         end) >>- fun w =>
        let meta := metadata_get (className (wrap w entity)) in
        for_each
          (filter (fun prop => reference prop ≠ SCALAR) (properties meta))
          (fun prop =>
             cascadeReference fuel entity prop type_ visited checkRemoveStack)
          w
  end

with cascadeReference (fuel : nat) (entity : Ent) (prop : EntityProperty)
    (type_ : Cascade) (visited : nat) (checkRemoveStack : bool) (w : World)
    {struct fuel} : Outcome :=
  match fuel with
  | 0 => OutOfFuel
  | S fuel =>
      fixMissingReference entity prop w >>- fun w =>
      if negb (shouldCascade prop type_) then Return w
      else
        let reference_ := unwrapReference w entity prop in
        if isToOne prop && truthy reference_ then
          match reference_ with
          | VEntity e => cascade fuel e type_ visited checkRemoveStack w
          | _ => Throw TypeError w
          end
        else
          let requireFullyInitialized := bool_decide (type_ = PERSIST) in
          match reference_ with
          | VCollection c =>
              if isToMany prop
                 && Collection_isInitialized w c requireFullyInitialized
              then for_each (default [] (getItems w c))
                     (fun item =>
                        cascade fuel item type_ visited checkRemoveStack)
                     w
              else Return w
          | _ => Return w
          end
  end.

(** A call with the default argument [visited = []]. *)
Definition with_new_array (k : nat -> World -> Outcome) (w : World)
  : Outcome :=
  let '(visited, w') := new_array w in k visited w'.

(** [Utils.isDefined(version)] *)
Definition isDefined (v : Value) : bool :=
  match v with VUndefined => false | _ => true end.

(** [lockPessimistic(entity, mode)] *)
Definition lockPessimistic (entity : Ent) (mode : LockMode) (w : World)
  : Outcome :=
  if negb isInTransaction then Throw TransactionRequired w
  else lockQuery entity mode w.

(** [lockOptimistic(entity, meta, version)] *)
Definition lockOptimistic (entity : Ent) (meta : EntityMetadata)
    (version : Value) (w : World) : Outcome :=
  if negb (truthy_str (versionProperty meta)) then Throw NotVersioned w
  else if negb (isDefined version) then Return w
  else
    (if negb (__initialized (wrap w entity)) then entity_init entity w
     else Return w) >>- fun w =>
    let previousVersion := field w entity (versionProperty meta) in
    if negb (strict_eq previousVersion version)
    then Throw LockFailedVersionMismatch w
    else Return w.

(** [lock(entity, mode, version?)]; an omitted [version] is
    [VUndefined]. *)
Definition lock (entity : Ent) (mode : LockMode) (version : Value) (w : World)
  : Outcome :=
  match getById w (className (wrap w entity)) (__primaryKeys (wrap w entity))
  with
  | None => Throw EntityNotManaged w
  | Some _ =>
      let meta := metadata_get (className (wrap w entity)) in
      match mode with
      | OPTIMISTIC => lockOptimistic entity meta version w
      | _ => lockPessimistic entity mode w
      end
  end.

(** [postCommitCleanup()] *)
Definition postCommitCleanup (w : World) : World :=
  set_extraUpdates []
    (set_collectionUpdates []
       (set_changeSets []
          (set_orphanRemoveStack []
             (set_removeStack []
                (set_persistStack [] (set_identifierMap ∅ w)))))).

(** [clear()] *)
Definition clear (w : World) : World :=
  postCommitCleanup (set_originalEntityData ∅ (set_identityMap [] w)).

(** [isCollectionSelfReferenced(collection, visited)], on the items
    [getItems()] returned. *)
Definition not_snapshotted (w : World) (item : Ent) : bool :=
  bool_decide (originalEntityData w !! __uuid (wrap w item) = None).

Definition isCollectionSelfReferenced (w : World) (its : list Ent)
    (visited : nat) : bool :=
  existsb (fun item => includes item (array w visited))
    (filter (fun item => not_snapshotted w item = true) its).

(** A new change-set object on the heap. *)
Definition new_changeSet (cs : ChangeSet) (w : World) : CsRef * World :=
  (next_ref w,
   set_next_ref (S (next_ref w)) (set_csHeap (<[next_ref w := cs]> (csHeap w)) w)).

(** [Utils.isCollection(reference, prop, ReferenceType.MANY_TO_MANY)] *)
Definition isCollection (v : Value) (prop : EntityProperty)
    (type_ : ReferenceType) : bool :=
  match v with
  | VCollection _ => bool_decide (reference prop = type_)
  | _ => false
  end.

(** [findNewEntities] and the three [process...Reference] methods. *)
Fixpoint findNewEntities (fuel : nat) (entity : Ent) (visited : nat)
    (w : World) {struct fuel} : Outcome :=
  match fuel with
  | 0 => OutOfFuel
  | S fuel =>
      if includes entity (array w visited) then Return w
      else
        let w := array_push visited entity w in
        if negb (__initialized (wrap w entity)) then Return w
        else
          let w :=
            if negb (hasPrimaryKey w entity)
               && bool_decide (identifierMap w !! __uuid (wrap w entity) = None)
            then set_identifierMap
                   (<[__uuid (wrap w entity) := ()]> (identifierMap w)) w
            else w in
          for_each (properties (metadata_get (className (wrap w entity))))
            (fun prop w =>
               processReference fuel entity prop
                 (unwrapReference w entity prop) visited w)
            w >>- fun w =>
          match computeChangeSet entity w with
          | ComputeThrows err w => Throw err w
          | Computes None w => Return w
          | Computes (Some changeSet) w =>
              let '(r, w) := new_changeSet changeSet w in
              let w := set_changeSets (changeSets w ++ [r]) w in
              let w := set_persistStack (cleanUpStack (persistStack w) entity) w in
              Return (set_originalEntityData
                        (<[__uuid (wrap w entity) := prepareEntity w entity]>
                           (originalEntityData w)) w)
          end
  end

with processReference (fuel : nat) (parent : Ent) (prop : EntityProperty)
    (reference_ : Value) (visited : nat) (w : World) {struct fuel} : Outcome :=
  match fuel with
  | 0 => OutOfFuel
  | S fuel =>
      if isToOne prop && truthy reference_
      then processToOneReference fuel reference_ visited w
      else
        match reference_ with
        | VCollection c =>
            if isCollection reference_ prop MANY_TO_MANY && isDirty w c
            then processToManyReference fuel c visited parent prop w
            else Return w
        | _ => Return w
        end
  end

with processToOneReference (fuel : nat) (reference_ : Value) (visited : nat)
    (w : World) {struct fuel} : Outcome :=
  match fuel with
  | 0 => OutOfFuel
  | S fuel =>
      match reference_ with
      | VEntity e =>
          if not_snapshotted w e then findNewEntities fuel e visited w
          else Return w
      | _ => Throw TypeError w
      end
  end

with processToManyReference (fuel : nat) (reference_ : CollRef)
    (visited : nat) (parent : Ent) (prop : EntityProperty) (w : World)
    {struct fuel} : Outcome :=
  match fuel with
  | 0 => OutOfFuel
  | S fuel =>
      match getItems w reference_ with
      | None => Throw CollectionNotInitialized w
      | Some its =>
          if isCollectionSelfReferenced w its visited then
            let w := set_extraUpdates
                       (extraUpdates w
                          ++ [(parent, name prop, VCollection reference_)]) w in
            let c := next_ref w in
            let w := set_next_ref (S c)
                       (set_colls (<[c := new_Collection parent prop]> (colls w))
                          w) in
            Return (set_field parent (name prop) (VCollection c) w)
          else
            for_each (filter (fun item => not_snapshotted w item = true) its)
              (fun item => findNewEntities fuel item visited)
              w
      end
  end.

(** The change-set object behind a reference. *)
Definition no_changeSet : ChangeSet :=
  {| cs_type := CREATE; cs_name := ""; cs_collection := ""; cs_entity := 0;
     cs_payload := ∅; cs_persisted := false |}.

Definition cs (w : World) (r : CsRef) : ChangeSet :=
  default no_changeSet (csHeap w !! r).

Definition set_cs_payload (x : EntityData) (c : ChangeSet) : ChangeSet :=
  {| cs_type := cs_type c; cs_name := cs_name c;
     cs_collection := cs_collection c; cs_entity := cs_entity c;
     cs_payload := x; cs_persisted := cs_persisted c |}.

(** [computeChangeSets()] *)
Fixpoint drainPersistStack (fuel : nat) (w : World) : Outcome :=
  match fuel with
  | 0 => OutOfFuel
  | S fuel =>
      match persistStack w with
      | [] => Return w
      | entity :: rest =>
          with_new_array (findNewEntities fuel entity) (set_persistStack rest w)
          >>- drainPersistStack fuel
      end
  end.

Definition deleteChangeSet (entity : Ent) (w : World) : World :=
  let meta := metadata_get (className (wrap w entity)) in
  let '(r, w) :=
    new_changeSet
      {| cs_type := DELETE; cs_name := meta_name meta;
         cs_collection := collection meta; cs_entity := entity;
         cs_payload := ∅; cs_persisted := false |} w in
  set_changeSets (changeSets w ++ [r]) w.

Definition computeChangeSets (fuel : nat) (w : World) : Outcome :=
  let w := set_changeSets [] w in
  for_each
    (filter (fun entity => includes entity (removeStack w) = false
                           ∧ includes entity (orphanRemoveStack w) = false)
       (dict_values (identityMap w)))
    (fun entity => with_new_array (fun visited => persist fuel entity visited true))
    w >>- fun w =>
  drainPersistStack fuel w >>- fun w =>
  for_each (orphanRemoveStack w)
    (fun entity => with_new_array (remove fuel entity)) w >>- fun w =>
  Return (foldl (fun w entity => deleteChangeSet entity w) w (removeStack w)).

(** [runHooks(type, entity, payload?)]; [payload] is the change set whose
    payload object is passed, if any. *)
Definition runHooks (type_ : HookType) (entity : Ent) (payload : option CsRef)
    (w : World) : Outcome :=
  match hooks (metadata_get (className (wrap w entity))) type_ with
  | [] => Return w
  | hs =>
      let copy := prepareEntity w entity in
      for_each hs (fun hook => call_hook hook entity) w >>- fun w =>
      match payload with
      | Some r =>
          Return (set_csHeap
                    (alter (fun c => set_cs_payload
                                       (diffEntities copy w entity ∪ cs_payload c) c)
                       r (csHeap w)) w)
      | None => Return w
      end
  end.

Definition before_hook (t : ChangeSetType) : HookType :=
  match t with
  | CREATE => beforeCreate | UPDATE => beforeUpdate | DELETE => beforeDelete
  end.

Definition after_hook (t : ChangeSetType) : HookType :=
  match t with
  | CREATE => afterCreate | UPDATE => afterUpdate | DELETE => afterDelete
  end.

(** The body of the [forEach] in [commitChangeSet]: a to-one relation to
    an entity whose insert is still to come is taken off the entity and
    the payload and queued as an extra update. *)
Definition deferForwardReference (changeSet : CsRef) (prop : EntityProperty)
    (w : World) : World :=
  let entity := cs_entity (cs w changeSet) in
  let target := field w entity (name prop) in
  match
    List.find (fun r => strict_eq (VEntity (cs_entity (cs w r))) target)
      (changeSets w)
  with
  | Some r =>
      if bool_decide (cs_type (cs w r) = CREATE) && negb (cs_persisted (cs w r))
      then
        let w := set_extraUpdates
                   (extraUpdates w ++ [(entity, name prop, target)]) w in
        let w := delete_field entity (name prop) w in
        set_csHeap
          (alter (fun c => set_cs_payload (delete (name prop) (cs_payload c)) c)
             changeSet (csHeap w)) w
      else w
  | None => w
  end.

(** [commitChangeSet(changeSet, ctx)] *)
Definition commitChangeSet (fuel : nat) (changeSet : CsRef) (w : World)
  : Outcome :=
  let entity := cs_entity (cs w changeSet) in
  let type_ := cs_type (cs w changeSet) in
  let w :=
    if bool_decide (type_ = CREATE) then
      foldl (fun w prop => deferForwardReference changeSet prop w) w
        (filter (fun prop => truthy (field w entity (name prop)) = true)
           (filter (fun prop =>
                      (reference prop = ONE_TO_ONE ∧ owner prop = true)
                      ∨ reference prop = MANY_TO_ONE)
              (properties (metadata_get (className (wrap w entity))))))
    else w in
  runHooks (before_hook type_) entity (Some changeSet) w >>- fun w =>
  persistChangeSet changeSet w >>- fun w =>
  (match type_ with
   | CREATE => em_merge entity w
   | UPDATE => with_new_array (fun visited => merge fuel entity visited true) w
   | DELETE => Return (unsetIdentity entity w)
   end) >>- fun w =>
  runHooks (after_hook type_) entity None w.

(** [persistToDatabase(tx)]: the three loops. *)
Fixpoint commitChangeSetsFrom (fuel : nat) (i : nat) (w : World) : Outcome :=
  match fuel with
  | 0 => OutOfFuel
  | S fuel =>
      match changeSets w !! i with
      | None => Return w
      | Some changeSet =>
          commitChangeSet fuel changeSet w >>- commitChangeSetsFrom fuel (S i)
      end
  end.

Fixpoint drainExtraUpdates (fuel : nat) (w : World) : Outcome :=
  match fuel with
  | 0 => OutOfFuel
  | S fuel =>
      match extraUpdates w with
      | [] => Return w
      | (entity, key, value) :: rest =>
          let w := set_field entity key value (set_extraUpdates rest w) in
          match computeChangeSet entity w with
          | ComputeThrows err w => Throw err w
          | Computes None w => drainExtraUpdates fuel w
          | Computes (Some changeSet) w =>
              let '(r, w) := new_changeSet changeSet w in
              commitChangeSet fuel r w >>- drainExtraUpdates fuel
          end
      end
  end.

Fixpoint syncCollectionsFrom (fuel : nat) (i : nat) (w : World) : Outcome :=
  match fuel with
  | 0 => OutOfFuel
  | S fuel =>
      match collectionUpdates w !! i with
      | None => Return w
      | Some coll =>
          syncCollection coll w >>- fun w =>
          syncCollectionsFrom fuel (S i) (takeSnapshot coll w)
      end
  end.

Definition persistToDatabase (fuel : nat) (w : World) : Outcome :=
  commitChangeSetsFrom fuel 0 w >>- fun w =>
  drainExtraUpdates fuel w >>- fun w =>
  syncCollectionsFrom fuel 0 w.

(** [Utils.unique(items)]: the first occurrence of each item, in order. *)
Fixpoint unique_from (seen : list string) (xs : list string) : list string :=
  match xs with
  | [] => []
  | x :: rest =>
      if decide (x ∈ seen) then unique_from seen rest
      else x :: unique_from (x :: seen) rest
  end.

Definition unique (xs : list string) : list string := unique_from [] xs.

(** [addCommitDependency(calc, prop, entityName)], on the dependencies
    added so far. *)
Definition addCommitDependency (deps : list (string * string * nat))
    (prop : EntityProperty) (entityName : string)
  : list (string * string * nat) :=
  if negb (bool_decide (reference prop = ONE_TO_ONE) && owner prop)
     && negb (bool_decide (reference prop = MANY_TO_ONE))
  then deps
  else deps ++ [(type prop, entityName, if nullable prop then 0 else 1)].

(** The names [types.pop()] yields while they are truthy. *)
Fixpoint popped (reversed : list string) : list string :=
  match reversed with
  | [] => []
  | x :: rest => if truthy_str x then x :: popped rest else []
  end.

(** [getCommitOrder()] *)
Definition getCommitOrder (w : World) : list string :=
  let types := unique (map (fun r => cs_name (cs w r)) (changeSets w)) in
  let deps :=
    foldl (fun deps entityName =>
             foldl (fun deps prop =>
                      if bool_decide (type prop ∈ types)
                      then addCommitDependency deps prop entityName
                      else deps)
               deps (properties (metadata_get entityName)))
      [] (popped (reverse types)) in
  CommitOrderCalculator_sort types deps.

(** [Array.prototype.sort(compareFn)]: [a] stays before [b] when
    [compareFn(a, b) <= 0]. *)
Fixpoint sort_insert {A} (compareFn : A -> A -> Z) (a : A) (sorted : list A)
  : list A :=
  match sorted with
  | [] => [a]
  | b :: rest =>
      if (compareFn a b <=? 0)%Z then a :: sorted
      else b :: sort_insert compareFn a rest
  end.

Definition Array_sort {A} (compareFn : A -> A -> Z) (arr : list A) : list A :=
  foldr (sort_insert compareFn) [] arr.

(** The local [compare] of [reorderChangeSets]; [key] reads [a[key]]. *)
Definition compare {K} `{EqDecision K} (base : list CsRef) (arr : list K)
    (a b : CsRef) (key : CsRef -> K) : Z :=
  if (indexOf arr (key a) =? indexOf arr (key b))%Z
  then (indexOf base a - indexOf base b)%Z
  else (indexOf arr (key a) - indexOf arr (key b))%Z.

Definition typeOrder : list ChangeSetType := [CREATE; UPDATE; DELETE].

(** The comparison function [reorderChangeSets] sorts with. *)
Definition changeSetCompare (w : World) (commitOrder : list string)
    (copy : list CsRef) (a b : CsRef) : Z :=
  if bool_decide (cs_type (cs w a) ≠ cs_type (cs w b))
  then compare copy typeOrder a b (fun r => cs_type (cs w r))
  else if bool_decide (cs_type (cs w a) = DELETE)
  then compare copy (reverse commitOrder) a b (fun r => cs_name (cs w r))
  else compare copy commitOrder a b (fun r => cs_name (cs w r)).

(** [reorderChangeSets()] *)
Definition reorderChangeSets (w : World) : World :=
  let commitOrder := getCommitOrder w in
  let copy := changeSets w in
  set_changeSets
    (Array_sort (changeSetCompare w commitOrder copy) (changeSets w)) w.

(** [commit()] *)
Definition commit (fuel : nat) (w : World) : Outcome :=
  computeChangeSets fuel w >>- fun w =>
  if bool_decide (changeSets w = [])
     && bool_decide (collectionUpdates w = [])
     && bool_decide (length (extraUpdates w) = 0)
  then Return (postCommitCleanup w)
  else
    let w := reorderChangeSets w in
    let runInTransaction :=
      negb isInTransaction && supportsTransactions && implicitTransactions in
    (if runInTransaction then transactional (persistToDatabase fuel) w
     else persistToDatabase fuel w) >>- fun w =>
    Return (postCommitCleanup w).

(** The public entry points, called with the default [visited = []]. *)
Definition UnitOfWork_persist (fuel : nat) (entity : Ent) : World -> Outcome :=
  with_new_array (fun visited => persist fuel entity visited false).

Definition UnitOfWork_remove (fuel : nat) (entity : Ent) : World -> Outcome :=
  with_new_array (remove fuel entity).

Definition UnitOfWork_merge (fuel : nat) (entity : Ent) : World -> Outcome :=
  with_new_array (fun visited => merge fuel entity visited true).

End UnitOfWork.

(** ** Sequences of calls on one collection *)

Inductive CollectionCall :=
  | CallAdd (vs : list Value)
  | CallSet (vs : list Value)
  | CallRemove (its : list Ent)
  | CallSetDirty (d : bool)
  | CallHydrate (its : list Ent) (validate : bool)
  | CallTakeSnapshot.

(** The state a call leaves, whether it returned or threw. *)
Definition state_after (w0 : World) (o : Outcome) : World :=
  match o with
  | Return w => w
  | Throw _ w => w
  | OutOfFuel => w0
  end.

Section CollectionCalls.
Context `{Collaborators}.

Definition call (c : CollRef) (op : CollectionCall) (w : World) : Outcome :=
  match op with
  | CallAdd vs => Collection_add c vs w
  | CallSet vs => Collection_set c vs w
  | CallRemove its => Collection_remove c its w
  | CallSetDirty d => Return (setDirty c d w)
  | CallHydrate its validate => hydrate c its validate w
  | CallTakeSnapshot => Return (takeSnapshot c w)
  end.

(** A caller that goes on after a call that threw. *)
Definition calls (c : CollRef) (ops : list CollectionCall) (w : World)
  : World :=
  foldl (fun w op => state_after w (call c op w)) w ops.

End CollectionCalls.

(** ** Sample collaborators and object graphs

    Concrete instances on which the properties are exercised. *)

Definition no_metadata : EntityMetadata :=
  {| meta_name := ""; collection := ""; versionProperty := "";
     properties := []; hooks := fun _ => [] |}.

(** A change-set computer that reports an insert for an entity without a
    baseline snapshot and no change otherwise. *)
Definition sample_computeChangeSet (meta : string -> EntityMetadata)
    (e : Ent) (w : World) : Computed :=
  let o := wrap w e in
  match originalEntityData w !! __uuid o with
  | None =>
      Computes
        (Some {| cs_type := CREATE; cs_name := meta_name (meta (className o));
                 cs_collection := collection (meta (className o));
                 cs_entity := e; cs_payload := fields o;
                 cs_persisted := false |}) w
  | Some _ => Computes None w
  end.

Definition sample_collaborators (meta : string -> EntityMetadata)
    (driver : CsRef -> World -> Outcome) (init : Ent -> World -> Outcome)
  : Collaborators :=
  {| super_add := fun its new => its ++ new;
     super_remove := fun its old => filter (fun i => i ∉ old) its;
     super_set := fun _ new => new;
     super_hydrate := fun _ new => new;
     metadata_get := meta;
     prepareEntity := fun w e => fields (wrap w e);
     diffEntities := fun _ _ _ => ∅;
     getPrimaryKeyHash := fun pks => foldr (fun pk acc => pk +:+ acc) "" pks;
     computeChangeSet := sample_computeChangeSet meta;
     CommitOrderCalculator_sort := fun nodes _ => nodes;
     persistChangeSet := driver;
     syncCollection := fun _ w => Return w;
     lockQuery := fun _ _ w => Return w;
     em_merge := fun _ w => Return w;
     em_getReference := fun _ v _ w => (v, w);
     isInTransaction := false;
     supportsTransactions := false;
     implicitTransactions := false;
     transactional := fun body w => body w;
     call_hook := fun _ _ w => Return w;
     entity_init := init |}.

Definition empty_world : World :=
  {| ents := ∅; colls := ∅; csHeap := ∅; identityMap := [];
     originalEntityData := ∅; identifierMap := ∅; persistStack := [];
     removeStack := []; orphanRemoveStack := []; changeSets := [];
     collectionUpdates := []; extraUpdates := []; arrays := ∅;
     next_ref := 100 |}.

Definition entity_of (cls uuid : string) (pk : option string)
    (loaded : bool) (fs : gmap string Value) : EntityObj :=
  {| className := cls; __uuid := uuid; __primaryKey := pk;
     __primaryKeys := match pk with Some k => [k] | None => [] end;
     __serializedPrimaryKey := default "" pk; __initialized := loaded;
     __em := false; fields := fs |}.

(** A many-to-many relation between books and tags: [Book.tags] owns it,
    [Tag.books] is its inverse side. *)
Definition Book_tags : EntityProperty :=
  {| name := "tags"; type := "Tag"; reference := MANY_TO_MANY;
     prop_cascade := [PERSIST; MERGE]; orphanRemoval := false; owner := true;
     mappedBy := ""; nullable := false; wrappedReference := false |}.

Definition Tag_books : EntityProperty :=
  {| name := "books"; type := "Book"; reference := MANY_TO_MANY;
     prop_cascade := [PERSIST; MERGE]; orphanRemoval := false; owner := false;
     mappedBy := "tags"; nullable := false; wrappedReference := false |}.

Definition library_metadata (cls : string) : EntityMetadata :=
  if String.eqb cls "Book" then
    {| meta_name := "Book"; collection := "book"; versionProperty := "";
       properties := [Book_tags]; hooks := fun _ => [] |}
  else if String.eqb cls "Tag" then
    {| meta_name := "Tag"; collection := "tag"; versionProperty := "";
       properties := [Tag_books]; hooks := fun _ => [] |}
  else no_metadata.

Definition library_collaborators : Collaborators :=
  sample_collaborators library_metadata (fun _ w => Return w)
    (fun _ w => Return w).

(** Tag 1 with its inverse collection 10; book 2 whose [tags] collection
    11 is loaded; book 3 whose [tags] collection 12 is not. *)
Definition library_world : World :=
  set_colls
    {[ 10 := new_Collection 1 Tag_books;
       11 := new_Collection 2 Book_tags;
       12 := set_initialized false (new_Collection 3 Book_tags) ]}
    (set_ents
       {[ 1 := entity_of "Tag" "u1" (Some "1") true {[ "books" := VCollection 10 ]};
          2 := entity_of "Book" "u2" (Some "2") true {[ "tags" := VCollection 11 ]};
          3 := entity_of "Book" "u3" (Some "3") true {[ "tags" := VCollection 12 ]} ]}
       empty_world).

(** A versioned entity type and an unloaded, managed reference to one of
    its rows. *)
Definition Account_metadata (cls : string) : EntityMetadata :=
  if String.eqb cls "Account" then
    {| meta_name := "Account"; collection := "account";
       versionProperty := "version"; properties := []; hooks := fun _ => [] |}
  else no_metadata.

(** Modelled from the spec: [wrap(entity).init()], whose class is not
    among the sources. Loading an entity fills its fields from the store,
    marks it initialized and captures its baseline snapshot ("captured at
    load/merge/post-write time"). [stored] is the row in the store. *)
Definition load_entity (stored : gmap string Value) (e : Ent) (w : World)
  : Outcome :=
  let o := wrap w e in
  let loaded :=
    {| className := className o; __uuid := __uuid o;
       __primaryKey := __primaryKey o; __primaryKeys := __primaryKeys o;
       __serializedPrimaryKey := __serializedPrimaryKey o;
       __initialized := true; __em := __em o; fields := stored |} in
  Return (set_originalEntityData (<[__uuid o := stored]> (originalEntityData w))
            (set_ents (<[e := loaded]> (ents w)) w)).

Definition account_collaborators : Collaborators :=
  sample_collaborators Account_metadata (fun _ w => Return w)
    (load_entity {[ "version" := VNumber 2 ]}).

(** Account 1 is loaded, at version 2; account 2 is a managed reference
    that is not loaded yet. *)
Definition account_world : World :=
  set_identityMap [("Account-1", 1); ("Account-2", 2)]
    (set_originalEntityData {[ "u1" := {[ "version" := VNumber 2 ]} ]}
       (set_ents
          {[ 1 := entity_of "Account" "u1" (Some "1") true
                    {[ "version" := VNumber 2 ]};
             2 := entity_of "Account" "u2" (Some "2") false ∅ ]}
          empty_world)).

(** A driver whose write fails, and a new book waiting on the persist
    stack. *)
Definition failing_collaborators : Collaborators :=
  sample_collaborators library_metadata
    (fun _ w => Throw (DriverError "constraint violation") w)
    (fun _ w => Return w).

Definition pending_world : World :=
  set_persistStack [5]
    (set_identifierMap {[ "u5" := () ]}
       (set_ents {[ 5 := entity_of "Book" "u5" None true ∅ ]} empty_world)).

(** ** The order [reorderChangeSets] sorts by

    The comparison function compares, in this order, the place of the
    change-set type in [typeOrder], the place of the entity name in the
    commit order (reversed for deletes), and the place of the change set
    in the list before the sort. *)

Section SortKey.
Context `{Collaborators}.

Definition sortKey (w : World) (commitOrder : list string)
    (copy : list CsRef) (a : CsRef) : Z * Z * Z :=
  (indexOf typeOrder (cs_type (cs w a)),
   if bool_decide (cs_type (cs w a) = DELETE)
   then indexOf (reverse commitOrder) (cs_name (cs w a))
   else indexOf commitOrder (cs_name (cs w a)),
   indexOf copy a).

Definition lex_le (x y : Z * Z * Z) : Prop :=
  (x.1.1 < y.1.1
   ∨ (x.1.1 = y.1.1 ∧ (x.1.2 < y.1.2 ∨ (x.1.2 = y.1.2 ∧ x.2 ≤ y.2))))%Z.

Definition sorted_before (w : World) (commitOrder : list string)
    (copy : list CsRef) (a b : CsRef) : Prop :=
  lex_le (sortKey w commitOrder copy a) (sortKey w commitOrder copy b).

(** [x] sits before [y] in [l]. *)
Definition precedes {A} (l : list A) (x y : A) : Prop :=
  ∃ i j, l !! i = Some x ∧ l !! j = Some y ∧ i < j.

End SortKey.

(** Five change sets in the order discovery left them: two deletes, an
    update and two inserts, over authors and books. *)
Definition change_set (t : ChangeSetType) (n : string) (e : Ent) : ChangeSet :=
  {| cs_type := t; cs_name := n; cs_collection := n; cs_entity := e;
     cs_payload := ∅; cs_persisted := false |}.

Definition unsorted_world : World :=
  set_changeSets [0; 1; 2; 3; 4; 5]
    (set_csHeap
       {[ 0 := change_set DELETE "Author" 20;
          1 := change_set DELETE "Book" 21;
          2 := change_set UPDATE "Book" 22;
          3 := change_set CREATE "Book" 23;
          4 := change_set CREATE "Author" 24;
          5 := change_set CREATE "Book" 25 ]}
       empty_world).

(** ** Object graphs a cascade walks

    A graph is hydrated when no relation field holds a raw key or a raw
    array any more: a to-one field that is set holds an entity (possibly
    behind a reference wrapper), a to-many field holds no array.  These
    are the graphs on which [fixMissingReference] has nothing to fix. *)

Section Graphs.
Context `{Collaborators}.

Definition hydrated_value (prop : EntityProperty) (v : Value) : Prop :=
  (isToOne prop && truthy v = true → isEntity v = true)
  ∧ (isToMany prop = true → ∀ r elements, v ≠ VArray r elements).

Definition hydrated (w : World) : Prop :=
  ∀ e o prop,
    ents w !! e = Some o →
    prop ∈ properties (metadata_get (className o)) →
    hydrated_value prop (unwrapReference w e prop).

(** The entities of the heap a pass has not visited yet. *)
Definition unvisited (visited : nat) (w : World) : nat :=
  size (dom (ents w) ∖ list_to_set (C := gset nat) (array w visited)).

(** What a cascade of kind [type_] leaves alone or only shrinks. *)
Definition cascade_frame (type_ : Cascade) (w w' : World) : Prop :=
  match type_ with
  | PERSIST => removeStack w' ⊆ removeStack w ∧ persistStack w ⊆ persistStack w'
  | REMOVE =>
      persistStack w' ⊆ persistStack w
      ∧ removeStack w ⊆ removeStack w'
      ∧ (∀ k, dict_get k (identityMap w) = None →
              dict_get k (identityMap w') = None)
      ∧ (∀ k, identifierMap w !! k = None → identifierMap w' !! k = None)
      ∧ (∀ k, originalEntityData w !! k = None →
              originalEntityData w' !! k = None)
  | _ => True
  end.

(** [w'] comes from [w] by a cascade of kind [type_] over [visited]: the
    entities are the same up to their [__em] back-reference, the
    collections are the same, and the [visited] array has only grown. *)
Definition cascaded (type_ : Cascade) (visited : nat) (w w' : World) : Prop :=
  (∀ e, set___em false <$> ents w' !! e = set___em false <$> ents w !! e)
  ∧ colls w' = colls w
  ∧ (∃ more, array w' visited = array w visited ++ more)
  ∧ cascade_frame type_ w w'.

End Graphs.

(** A decision procedure for [hydrated], to check concrete graphs. *)
Section HydratedCheck.
Context `{Collaborators}.

Definition hydrated_valueb (prop : EntityProperty) (v : Value) : bool :=
  implb (isToOne prop && truthy v) (isEntity v)
  && implb (isToMany prop) (match v with VArray _ _ => false | _ => true end).

Definition hydratedb (w : World) : bool :=
  forallb
    (fun eo : Ent * EntityObj =>
       forallb (fun prop => hydrated_valueb prop (unwrapReference w eo.1 prop))
         (properties (metadata_get (className eo.2))))
    (map_to_list (ents w)).

End HydratedCheck.

(** Authors and their books, a cycle: [Author.books] is the inverse
    one-to-many side with orphan removal, [Book.author] the owning
    many-to-one side. *)
Definition Author_books : EntityProperty :=
  {| name := "books"; type := "Book"; reference := ONE_TO_MANY;
     prop_cascade := [ALL]; orphanRemoval := true; owner := false;
     mappedBy := "author"; nullable := false; wrappedReference := false |}.

Definition Book_author : EntityProperty :=
  {| name := "author"; type := "Author"; reference := MANY_TO_ONE;
     prop_cascade := [PERSIST; MERGE]; orphanRemoval := false; owner := true;
     mappedBy := ""; nullable := false; wrappedReference := true |}.

Definition press_metadata (cls : string) : EntityMetadata :=
  if String.eqb cls "Author" then
    {| meta_name := "Author"; collection := "author"; versionProperty := "";
       properties := [Author_books]; hooks := fun _ => [] |}
  else if String.eqb cls "Book" then
    {| meta_name := "Book"; collection := "book"; versionProperty := "";
       properties := [Book_author]; hooks := fun _ => [] |}
  else no_metadata.

Definition press_collaborators : Collaborators :=
  sample_collaborators press_metadata (fun _ w => Return w)
    (fun _ w => Return w).

(** Author 1 with the books 2 and 3; book 3 is new and points back at the
    author through a reference wrapper; book 2 waits on the remove
    stack. *)
Definition press_world : World :=
  set_removeStack [2]
    (set_identityMap [("Author-1", 1); ("Book-2", 2)]
       (set_originalEntityData
          {[ "a1" := {[ "books" := VCollection 10 ]};
             "b2" := {[ "author" := VEntity 1 ]} ]}
          (set_colls
             {[ 10 := set_items [2; 3] (new_Collection 1 Author_books) ]}
             (set_ents
                {[ 1 := entity_of "Author" "a1" (Some "1") true
                          {[ "books" := VCollection 10 ]};
                   2 := entity_of "Book" "b2" (Some "2") true
                          {[ "author" := VEntity 1 ]};
                   3 := entity_of "Book" "b3" None true
                          {[ "author" := VReference 1 ]} ]}
                empty_world)))).

(** ** Predicates the properties are stated with *)

Local Close Scope string_scope.

Section Predicates.
Context `{Collaborators}.

(** [c] is a collection on the non-owning side that is not dirty. *)
Definition clean_inverse (c : CollRef) (w : World) : Prop :=
  ∃ co, colls w !! c = Some co ∧ owner (property co) = false
        ∧ dirty co = false.

(** The per-cycle state of a unit of work is empty. *)
Definition cycle_state_empty (w : World) : Prop :=
  persistStack w = [] ∧ removeStack w = [] ∧ orphanRemoveStack w = []
  ∧ changeSets w = [] ∧ identifierMap w = ∅ ∧ collectionUpdates w = []
  ∧ extraUpdates w = [].

(** The operation [cascade] applies to an entity it has just pushed on
    [visited]: the nested [cascade] call returns at once. *)
Definition cascaded_operation (fuel : nat) (entity : Ent) (type_ : Cascade)
    (visited : nat) (checkRemoveStack : bool) (w : World) : Outcome :=
  match type_ with
  | PERSIST => persist fuel entity visited checkRemoveStack w
  | MERGE => merge fuel entity visited true w
  | REMOVE => remove fuel entity visited w
  | ALL => Return w
  end.

(** With fuel [2 * k + 3], [cascade] returns from any state with at most
    [k] entities left to visit. *)
Definition cascade_returns_at (type_ : Cascade) (visited : nat) (k : nat)
  : Prop :=
  ∀ (fuel : nat) (e : Ent) (check : bool) (w : World),
    2 * k + 3 ≤ fuel → hydrated w → NoDup (array w visited) →
    unvisited visited w ≤ k →
    ∃ w', cascade fuel e type_ visited check w = Return w'
          ∧ cascaded type_ visited w w'
          ∧ NoDup (array w' visited)
          ∧ e ∈ array w' visited.

End Predicates.

Local Open Scope string_scope.
Local Open Scope list_scope.

(** A user who is their own friend: the owning many-to-many collection 10
    of user 1 is dirty and holds user 1, which discovery has already
    visited (array 50). *)
Definition User_friends : EntityProperty :=
  {| name := "friends"; type := "User"; reference := MANY_TO_MANY;
     prop_cascade := [PERSIST]; orphanRemoval := false; owner := true;
     mappedBy := ""; nullable := false; wrappedReference := false |}.

Definition circle_metadata (cls : string) : EntityMetadata :=
  if String.eqb cls "User" then
    {| meta_name := "User"; collection := "user"; versionProperty := "";
       properties := [User_friends]; hooks := fun _ => [] |}
  else no_metadata.

Definition circle_collaborators : Collaborators :=
  sample_collaborators circle_metadata (fun _ w => Return w)
    (fun _ w => Return w).

Definition circle_world : World :=
  set_arrays {[ 50 := [1] ]}
    (set_colls
       {[ 10 := set_dirty true (set_items [1] (new_Collection 1 User_friends)) ]}
       (set_ents
          {[ 1 := entity_of "User" "u1" None true
                    {[ "friends" := VCollection 10 ]} ]}
          empty_world)).

(** ** The steps of [persist], [remove] and [merge] before they cascade *)

Local Close Scope string_scope.

Section Steps.
Context `{Collaborators}.

(** The state [persist] hands to [cascade], once past its two guards. *)
Definition persist_step (entity : Ent) (w : World) : World :=
  let w := if negb (hasPrimaryKey w entity)
           then set_identifierMap
                  (<[__uuid (wrap w entity) := ()]> (identifierMap w)) w
           else w in
  let w := set_persistStack (persistStack w ++ [entity]) w in
  set_removeStack (cleanUpStack (removeStack w) entity) w.

(** The state [remove] hands to [cascade], once past its guard. *)
Definition remove_step (entity : Ent) (w : World) : World :=
  let w := if hasPrimaryKey w entity
           then set_removeStack (removeStack w ++ [entity]) w
           else w in
  let w := set_persistStack (cleanUpStack (persistStack w) entity) w in
  unsetIdentity entity w.

(** The state [merge] hands to [cascade] for an entity with a primary
    key. *)
Definition merge_step (entity : Ent) (mergeData : bool) (w : World) : World :=
  let w := define___em entity w in
  let w := set_identityMap
             (dict_set (identityKey w entity) entity (identityMap w)) w in
  if mergeData
  then set_originalEntityData
         (<[__uuid (wrap w entity) := prepareEntity w entity]>
            (originalEntityData w)) w
  else w.

(** Two states hold the same entities, up to the [__em] back-reference. *)
Definition same_graph (w0 w : World) : Prop :=
  ∀ e, set___em false <$> ents w !! e = set___em false <$> ents w0 !! e.

(** What an invariant [I] has to survive for a cascade of kind [type_] to
    keep it: the steps of the operation of that kind. *)
Definition operation_keeps (I : World → Prop) (type_ : Cascade)
    (check : bool) : Prop :=
  match type_ with
  | PERSIST =>
      ∀ e w, I w → e ∉ persistStack w →
             check && includes e (removeStack w) = false →
             I (persist_step e w)
  | REMOVE => ∀ e w, I w → e ∉ removeStack w → I (remove_step e w)
  | MERGE =>
      ∀ e w, I w →
             I (define___em e w)
             ∧ (hasPrimaryKey w e = true → ∀ mergeData, I (merge_step e mergeData w))
  | ALL => True
  end.

(** The persist stack and the remove stack hold no entity twice and share
    no entity. *)
Definition stacks_wf (w : World) : Prop :=
  NoDup (persistStack w) ∧ NoDup (removeStack w)
  ∧ ∀ e, e ∈ persistStack w → e ∉ removeStack w.

(** Every entry of the identity map sits under the identity key of the
    entity it holds. *)
Definition registry_sound (w : World) : Prop :=
  ∀ k e, dict_get k (identityMap w) = Some e → identityKey w e = k.

(** What no cascade touches: the orphan-removal stack, the lists of a
    commit cycle, the collections, the change-set objects and the fields
    of the entities. *)
Definition untouched_by_cascade (w w' : World) : Prop :=
  orphanRemoveStack w' = orphanRemoveStack w
  ∧ changeSets w' = changeSets w
  ∧ collectionUpdates w' = collectionUpdates w
  ∧ extraUpdates w' = extraUpdates w
  ∧ colls w' = colls w
  ∧ csHeap w' = csHeap w
  ∧ same_graph w w'.

(** The change set [computeChangeSets] pushes for an entity on the remove
    stack: [{ entity, type: DELETE, name, collection, payload: {} }]. *)
Definition deletion (w : World) (entity : Ent) : ChangeSet :=
  let meta := metadata_get (className (wrap w entity)) in
  {| cs_type := DELETE; cs_name := meta_name meta;
     cs_collection := collection meta; cs_entity := entity;
     cs_payload := ∅; cs_persisted := false |}.

(** The dependencies [getCommitOrder] has handed to the calculator by
    [addDependency] when it calls [calc.sort()]. *)
Definition commitDependencies (w : World) : list (string * string * nat) :=
  let types := unique (map (fun r => cs_name (cs w r)) (changeSets w)) in
  foldl (fun deps entityName =>
           foldl (fun deps prop =>
                    if bool_decide (type prop ∈ types)
                    then addCommitDependency deps prop entityName
                    else deps)
             deps (properties (metadata_get entityName)))
    [] (popped (reverse types)).

(** A call that came to an end, by returning or by throwing, in a state
    that satisfies [P]. *)
Definition ended (o : Outcome) (P : World -> Prop) : Prop :=
  match o with
  | Return w | Throw _ w => P w
  | OutOfFuel => False
  end.

(** The change-set computer reads the entity and its snapshot: it creates
    and drops no entity, and leaves the arrays of running passes and the
    persist stack alone. *)
Definition computes_in_place : Prop :=
  ∀ e w,
    let w' := match computeChangeSet e w with
              | Computes _ w' | ComputeThrows _ w' => w'
              end in
    arrays w' = arrays w ∧ dom (ents w') = dom (ents w)
    ∧ persistStack w' = persistStack w.

(** What a search for new entities does to [visited], the heap and the
    persist stack. *)
Definition searched (visited : nat) (w w' : World) : Prop :=
  array w visited `prefix_of` array w' visited
  ∧ (NoDup (array w visited) → NoDup (array w' visited))
  ∧ dom (ents w') = dom (ents w)
  ∧ persistStack w' `sublist_of` persistStack w.

(** The invariant of a pass that started in [w0]. *)
Definition kept (I : World → Prop) (w0 w : World) : Prop :=
  I w ∧ same_graph w0 w.

(** The entity [e] is the one registered under its key, and no other
    entity with a primary key has that key. *)
Definition registered (e : Ent) (key : string) (w : World) : Prop :=
  dict_get key (identityMap w) = Some e
  ∧ ∀ e', hasPrimaryKey w e' = true → identityKey w e' = key → e' = e.

(** The entity with this uuid has a baseline snapshot. *)
Definition snapshotted (uuid : string) (w : World) : Prop :=
  is_Some (originalEntityData w !! uuid).

End Steps.

Local Open Scope string_scope.
Local Open Scope list_scope.

(** ** More object graphs *)

(** The press with author 1 managed: its [__em] is set. *)
Definition managed_press_world : World := define___em 1 press_world.

(** The press with book 3 as a reference that is not loaded. *)
Definition stub_world : World :=
  set_ents (<[3 := entity_of "Book" "b3" None false ∅]> (ents press_world))
    press_world.


(** A new book 3 whose insert comes before the insert of its new author
    4. *)
Definition forward_world : World :=
  set_changeSets [0; 1]
    (set_csHeap
       {[ 0 := {| cs_type := CREATE; cs_name := "Book"; cs_collection := "book";
                  cs_entity := 3; cs_payload := {[ "author" := VEntity 4 ]};
                  cs_persisted := false |};
          1 := change_set CREATE "Author" 4 ]}
       (set_ents
          {[ 3 := entity_of "Book" "b3" None true {[ "author" := VEntity 4 ]};
             4 := entity_of "Author" "a4" None true ∅ ]}
          empty_world)).

(** * Properties *)

(** ** Relation collections *)

Section CollectionProperties.
Context `{Collaborators}.

Lemma clean_inverse_update c f w :
  (∀ co, property (f co) = property co) →
  (∀ co, dirty (f co) = dirty co) →
  clean_inverse c w → clean_inverse c (update_coll c f w).
Proof.
  intros Hp Hd (co & Hco & Ho & Hdirty).
  exists (f co). unfold update_coll; simpl.
  rewrite lookup_alter_eq, Hco; simpl.
  rewrite Hp, Hd. auto.
Qed.

Lemma clean_inverse_setDirty c d w :
  clean_inverse c w → clean_inverse c (setDirty c d w).
Proof.
  intros (co & Hco & Ho & Hdirty).
  exists (set_dirty (d && owner (property co)) co).
  unfold setDirty, update_coll; simpl.
  rewrite lookup_alter_eq, Hco; simpl.
  rewrite Ho, andb_false_r. auto.
Qed.

Lemma clean_inverse_colls c w w' :
  colls w' = colls w → clean_inverse c w → clean_inverse c w'.
Proof. unfold clean_inverse. intros ->. auto. Qed.

Lemma colls_fold_cancel its w :
  colls (foldl (fun w item => uow_cancelOrphanRemoval item w) w its) = colls w.
Proof. revert w. induction its as [|i its IH]; intros w; simpl; [done|]. by rewrite IH. Qed.

Lemma colls_fold_schedule its w :
  colls (foldl (fun w item => scheduleOrphanRemoval item w) w its) = colls w.
Proof. revert w. induction its as [|i its IH]; intros w; simpl; [done|]. by rewrite IH. Qed.

Lemma clean_inverse_cancel c its w :
  clean_inverse c w →
  clean_inverse c (state_after w (cancelOrphanRemoval c its w)).
Proof.
  intros Hc. unfold cancelOrphanRemoval, with_coll.
  destruct (colls w !! c) as [co|]; simpl; [|done].
  destruct (owner_has_em w co); simpl; [|done].
  eapply clean_inverse_colls; [apply colls_fold_cancel|done].
Qed.

Lemma clean_inverse_validate c its w :
  state_after w (validateModification c its w) = w.
Proof.
  unfold validateModification, with_coll.
  destruct (colls w !! c) as [co|]; simpl; [|done].
  by destruct (_ && _).
Qed.

Lemma clean_inverse_modify c m its w :
  clean_inverse c w → clean_inverse c (state_after w (modify c m its w)).
Proof.
  intros Hc. unfold modify, checkInitialized, with_coll.
  destruct (colls w !! c) as [co|] eqn:Hco; simpl; [|done].
  destruct (initialized co); simpl; [|done].
  unfold validateModification, with_coll. rewrite Hco.
  destruct (_ && _); simpl; [done|].
  apply clean_inverse_setDirty.
  by apply clean_inverse_update.
Qed.

Lemma clean_inverse_call c op w :
  clean_inverse c w → clean_inverse c (state_after w (call c op w)).
Proof.
  intros Hc. destruct op as [vs|vs|its|d|its validate|]; simpl.
  - unfold Collection_add, validateItemType.
    destruct (forallb isEntity vs); simpl; [|done].
    pose proof (clean_inverse_modify c Add (entities_of vs) w Hc) as Hm.
    destruct (modify c Add (entities_of vs) w) as [w1|err w1|]; simpl in *;
      [|done|done].
    pose proof (clean_inverse_cancel c (entities_of vs) w1 Hm) as Hk.
    by destruct (cancelOrphanRemoval c (entities_of vs) w1).
  - unfold Collection_set, validateItemType.
    destruct (forallb isEntity vs); simpl; [|done].
    pose proof (clean_inverse_validate c (entities_of vs) w) as Hv.
    destruct (validateModification c (entities_of vs) w) as [w1|err w1|];
      simpl in *; subst; [|done|done].
    match goal with
    | |- clean_inverse c (state_after _ (cancelOrphanRemoval c ?i ?w')) =>
        assert (clean_inverse c w') as Hs
    end.
    { apply clean_inverse_setDirty. by apply clean_inverse_update. }
    pose proof (clean_inverse_cancel c (entities_of vs) _ Hs) as Hk.
    by destruct (cancelOrphanRemoval c (entities_of vs) _).
  - unfold Collection_remove.
    pose proof (clean_inverse_modify c Remove its w Hc) as Hm.
    destruct (modify c Remove its w) as [w1|err w1|]; simpl in *; [|done|done].
    unfold with_coll. destruct (colls w1 !! c) as [co|]; simpl; [|done].
    destruct (_ && _); simpl; [|done].
    eapply clean_inverse_colls; [apply colls_fold_schedule|done].
  - by apply clean_inverse_setDirty.
  - unfold hydrate.
    assert (∀ w1, clean_inverse c w1 →
              clean_inverse c (takeSnapshot c
                (update_coll c
                   (fun co => set_items (super_hydrate (items co) its)
                                (set_initialized true co)) w1))) as Hh.
    { intros w1 H1. unfold takeSnapshot.
      apply clean_inverse_setDirty.
      apply clean_inverse_update; [done|done|].
      by apply clean_inverse_update. }
    destruct validate; simpl; [|by apply Hh].
    pose proof (clean_inverse_validate c its w) as Hv.
    destruct (validateModification c its w) as [w1|err w1|]; simpl in *;
      subst; [by apply Hh|done|done].
  - unfold takeSnapshot. apply clean_inverse_setDirty.
    by apply clean_inverse_update.
Qed.

(** C10. A collection on the non-owning side of its relation, clean when
    it is built, is never dirty: after any sequence of [add], [set],
    [remove], [setDirty], [hydrate] and [takeSnapshot] calls on it,
    returning or throwing, [isDirty()] is false. *)
Theorem inverse_collection_never_dirty
    (c : CollRef) (co : CollObj) (ops : list CollectionCall) (w : World) :
  colls w !! c = Some co →
  owner (property co) = false →
  dirty co = false →
  isDirty (calls c ops w) c = false.
Proof.
  intros Hco Ho Hd.
  assert (clean_inverse c (calls c ops w)) as (co' & Hco' & _ & Hd').
  { assert (clean_inverse c w) as Hc by (exists co; auto).
    clear Hco Ho Hd. revert w Hc. unfold calls.
    induction ops as [|op ops IH]; intros w Hc; simpl; [done|].
    apply IH. by apply clean_inverse_call. }
  unfold isDirty. by rewrite Hco'.
Qed.

End CollectionProperties.

Lemma inverse_collection_never_dirty_witness :
  isDirty
    (calls (H := library_collaborators) 10
       [CallAdd [VEntity 2]; CallSetDirty true; CallSet [VEntity 3];
        CallRemove [2]]
       library_world) 10 = false.
Proof.
  apply (inverse_collection_never_dirty (H := library_collaborators) 10
           (new_Collection 1 Tag_books)); reflexivity.
Defined.

Section InverseModification.
Context `{Collaborators}.

(** What [validateModification] does: it throws exactly when the
    collection is the inverse side of a many-to-many relation and some
    item has no owning side or an owning side that is not initialized; it
    never changes the state. *)
Lemma validateModification_spec c co its w :
  colls w !! c = Some co →
  validateModification c its w =
    if manyToManyInverse (property co)
       && existsb (owning_side_missing w (mappedBy (property co))) its
    then Throw CannotModifyInverseCollection w
    else Return w.
Proof. intros Hco. unfold validateModification, with_coll. by rewrite Hco. Qed.



End InverseModification.



(** ** Identity registry and locking *)

Section RegistryProperties.
Context `{Collaborators}.

Lemma wrap_define___em e e' w :
  wrap (define___em e w) e' =
    if decide (e = e') then
      match ents w !! e with Some o => set___em true o | None => no_entity end
    else wrap w e'.
Proof.
  unfold wrap, define___em; simpl.
  destruct (decide (e = e')) as [->|Hne].
  - rewrite lookup_alter_eq. by destruct (ents w !! e').
  - by rewrite lookup_alter_ne.
Qed.

Lemma hasPrimaryKey_define___em e e' w :
  hasPrimaryKey (define___em e w) e' = hasPrimaryKey w e'.
Proof.
  unfold hasPrimaryKey. rewrite wrap_define___em.
  destruct (decide (e = e')) as [->|]; [|done].
  unfold wrap. by destruct (ents w !! e').
Qed.

(** C9. [merge] of an entity without a primary key returns after setting
    the entity's [__em] back-reference: no identity-map entry, no
    baseline snapshot, no cascade (the [visited] arrays are as they
    were), and no other change of the state. *)
Theorem merge_without_primary_key
    (fuel : nat) (entity : Ent) (visited : nat) (mergeData : bool)
    (w : World) :
  hasPrimaryKey w entity = false →
  ∃ w', merge (S fuel) entity visited mergeData w = Return w'
        ∧ w' = define___em entity w
        ∧ identityMap w' = identityMap w
        ∧ originalEntityData w' = originalEntityData w
        ∧ identifierMap w' = identifierMap w
        ∧ arrays w' = arrays w
        ∧ colls w' = colls w
        ∧ (persistStack w', removeStack w', orphanRemoveStack w')
          = (persistStack w, removeStack w, orphanRemoveStack w)
        ∧ (∀ e, e ≠ entity → ents w' !! e = ents w !! e)
        ∧ (∀ e, fields (wrap w' e) = fields (wrap w e)).
Proof.
  intros Hpk. exists (define___em entity w). simpl.
  rewrite hasPrimaryKey_define___em, Hpk. simpl.
  repeat split; try done.
  - intros e Hne. unfold define___em; simpl. by rewrite lookup_alter_ne.
  - intros e. rewrite wrap_define___em.
    destruct (decide (entity = e)) as [->|]; [|done].
    unfold wrap. by destruct (ents w !! e).
Qed.

(** What [lock] in optimistic mode does to a managed entity. *)
Lemma lock_optimistic_managed entity version w managed :
  getById w (className (wrap w entity)) (__primaryKeys (wrap w entity))
    = Some managed →
  lock entity OPTIMISTIC version w =
    lockOptimistic entity (metadata_get (className (wrap w entity))) version w.
Proof. intros Hm. unfold lock. by rewrite Hm. Qed.

(** C6, as the code has it. For a managed entity, an optimistic [lock]
    throws not-versioned when the type has no version field and does
    nothing when no version is supplied, both without touching the state.
    Otherwise an entity that is not loaded is first (re)initialized, and a
    supplied version that differs from the live one then throws
    lock-version-mismatch in the state the (re)initialization left: the
    very state of the call for a loaded entity. *)
Theorem lock_optimistic_outcomes
    (entity managed : Ent) (version : Value) (w : World) :
  let meta := metadata_get (className (wrap w entity)) in
  getById w (className (wrap w entity)) (__primaryKeys (wrap w entity))
    = Some managed →
  (truthy_str (versionProperty meta) = false →
   lock entity OPTIMISTIC version w = Throw NotVersioned w)
  ∧ (truthy_str (versionProperty meta) = true →
     lock entity OPTIMISTIC VUndefined w = Return w)
  ∧ (truthy_str (versionProperty meta) = true →
     isDefined version = true →
     __initialized (wrap w entity) = true →
     strict_eq (field w entity (versionProperty meta)) version = false →
     lock entity OPTIMISTIC version w = Throw LockFailedVersionMismatch w)
  ∧ (∀ w1,
     truthy_str (versionProperty meta) = true →
     isDefined version = true →
     __initialized (wrap w entity) = false →
     entity_init entity w = Return w1 →
     strict_eq (field w1 entity (versionProperty meta)) version = false →
     lock entity OPTIMISTIC version w = Throw LockFailedVersionMismatch w1).
Proof.
  intros meta Hm.
  rewrite !(lock_optimistic_managed _ _ _ _ Hm). fold meta.
  unfold lockOptimistic.
  split; [|split; [|split]].
  - by intros ->.
  - by intros ->.
  - intros -> -> -> Hv; simpl. by rewrite Hv.
  - intros w1 -> -> -> Hinit Hv; simpl. rewrite Hinit; simpl. by rewrite Hv.
Qed.

End RegistryProperties.

Lemma merge_without_primary_key_witness :
  ∃ w', merge (H := library_collaborators) 1 7 0 true
          (set_ents {[ 7 := entity_of "Book" "u7" None true ∅ ]} empty_world)
        = Return w'.
Proof.
  destruct (merge_without_primary_key (H := library_collaborators) 0 7 0 true
              (set_ents {[ 7 := entity_of "Book" "u7" None true ∅ ]}
                 empty_world)) as (w' & Hw' & _).
  - vm_compute. reflexivity.
  - exists w'. exact Hw'.
Defined.

(** The stale-version lock of the loaded account 1 leaves the state as
    it was. *)
Lemma lock_optimistic_outcomes_witness :
  lock (H := account_collaborators) 1 OPTIMISTIC (VNumber 1) account_world
  = Throw LockFailedVersionMismatch account_world.
Proof.
  destruct (lock_optimistic_outcomes (H := account_collaborators) 1 1
              (VNumber 1) account_world) as (_ & _ & Hstale & _).
  - vm_compute. reflexivity.
  - apply Hstale; vm_compute; reflexivity.
Defined.

(** C6 as stated fails for a managed entity that is not loaded: the
    stale-version lock of account 2 throws lock-version-mismatch after the
    entity has been loaded, and both the entity and the baseline snapshots
    have changed. *)
Lemma lock_optimistic_unloaded_changes_state :
  ∃ w', lock (H := account_collaborators) 2 OPTIMISTIC (VNumber 1)
          account_world = Throw LockFailedVersionMismatch w'
        ∧ is_Some (getById (H := account_collaborators) account_world
                     "Account" ["2"])
        ∧ originalEntityData account_world !! "u2" = None
        ∧ originalEntityData w' !! "u2" = Some {[ "version" := VNumber 2 ]}
        ∧ __initialized (wrap account_world 2) = false
        ∧ __initialized (wrap w' 2) = true.
Proof.
  eexists. split; [vm_compute; reflexivity|].
  split; [by eexists|].
  repeat split; vm_compute; reflexivity.
Qed.

(** ** Commit *)

Section CommitProperties.
Context `{Collaborators}.

Lemma postCommitCleanup_empty w : cycle_state_empty (postCommitCleanup w).
Proof. by repeat split. Qed.

(** C3, as the code has it. A [commit()] that returns leaves the persist,
    remove and orphan-removal stacks, the change-set list, the identifier
    map, the collection-update list and the extra-update queue empty,
    whether there was anything to write or not. *)
Theorem commit_returns_clean (fuel : nat) (w w' : World) :
  commit fuel w = Return w' → cycle_state_empty w'.
Proof.
  unfold commit.
  destruct (computeChangeSets fuel w) as [w1| |]; simpl; [|done|done].
  destruct (_ && _).
  - intros [= <-]. apply postCommitCleanup_empty.
  - destruct (negb isInTransaction && supportsTransactions
              && implicitTransactions).
    + destruct (transactional _ _) as [w2| |]; simpl; [|done|done].
      intros [= <-]. apply postCommitCleanup_empty.
    + destruct (persistToDatabase _ _) as [w2| |]; simpl; [|done|done].
      intros [= <-]. apply postCommitCleanup_empty.
Qed.

(** When the database pass throws, [commit()] throws in the state the
    pass left: [postCommitCleanup] is not reached. *)
Lemma commit_throws_without_cleanup fuel w w1 err w2 :
  computeChangeSets fuel w = Return w1 →
  changeSets w1 ≠ [] →
  negb isInTransaction && supportsTransactions && implicitTransactions = false →
  persistToDatabase fuel (reorderChangeSets w1) = Throw err w2 →
  commit fuel w = Throw err w2.
Proof.
  intros Hc Hne Htx Hp. unfold commit. rewrite Hc; simpl.
  rewrite (bool_decide_eq_false_2 _ Hne); simpl.
  rewrite Htx, Hp. done.
Qed.

End CommitProperties.

Lemma commit_returns_clean_witness :
  ∃ w', commit (H := library_collaborators) 20 pending_world = Return w'
        ∧ cycle_state_empty w'.
Proof.
  eexists. split.
  - vm_compute. reflexivity.
  - apply (commit_returns_clean (H := library_collaborators) 20 pending_world).
    vm_compute. reflexivity.
Defined.

(** C3 as stated fails when a driver call throws: the commit of the
    pending book with a failing driver throws and leaves the book's change
    set on the change-set list and its placeholder in the identifier map. *)
Lemma commit_failure_keeps_cycle_state :
  ∃ w', commit (H := failing_collaborators) 20 pending_world
        = Throw (DriverError "constraint violation") w'
        ∧ length (changeSets w') = 1
        ∧ identifierMap w' !! "u5" = Some ()
        ∧ ¬ cycle_state_empty w'.
Proof.
  eexists. split; [vm_compute; reflexivity|].
  split; [vm_compute; reflexivity|].
  split; [vm_compute; reflexivity|].
  intros (_ & _ & _ & Hcs & _). vm_compute in Hcs. discriminate.
Qed.

(** ** Discovery of new entities *)

Section DiscoveryProperties.
Context `{Collaborators}.

Lemma field_set_field e key v w :
  is_Some (ents w !! e) → field (set_field e key v w) e key = v.
Proof.
  intros [o Ho]. unfold field, set_field; simpl.
  rewrite lookup_alter_eq, Ho; simpl. by rewrite lookup_insert_eq.
Qed.

Lemma isCollectionSelfReferenced_true w its visited item :
  item ∈ its → not_snapshotted w item = true → item ∈ array w visited →
  isCollectionSelfReferenced w its visited = true.
Proof.
  intros Hin Hns Hv. unfold isCollectionSelfReferenced.
  apply existsb_exists. exists item. split.
  - apply list_elem_of_In, list_elem_of_filter. done.
  - unfold includes. by apply bool_decide_eq_true_2.
Qed.

(** C2. In [findNewEntities], the step for a many-to-many relation whose
    collection is dirty and initialized and holds an item that has no
    baseline snapshot and is already in the [visited] array of the pass
    does not recurse ([visited] and the change sets stay as they are): it
    appends [(parent, prop.name, collection)] to the extra-update queue and
    puts a new, empty collection in the parent's field, leaving the
    original collection untouched.  When the queue is drained, the entry
    at its head is taken off and its collection is assigned back to the
    field before the change set of the parent is computed again. *)
Theorem self_referenced_collection_deferred
    (fuel : nat) (parent : Ent) (prop : EntityProperty) (c : CollRef)
    (co : CollObj) (visited : nat) (item : Ent) (w : World) :
  reference prop = MANY_TO_MANY →
  colls w !! c = Some co →
  dirty co = true →
  initialized co = true →
  item ∈ items co →
  not_snapshotted w item = true →
  item ∈ array w visited →
  is_Some (ents w !! parent) →
  colls w !! next_ref w = None →
  (∃ w',
     processReference (S (S fuel)) parent prop (VCollection c) visited w
       = Return w'
     ∧ extraUpdates w' = extraUpdates w ++ [(parent, name prop, VCollection c)]
     ∧ field w' parent (name prop) = VCollection (next_ref w)
     ∧ colls w' !! next_ref w = Some (new_Collection parent prop)
     ∧ getItems w' (next_ref w) = Some []
     ∧ colls w' !! c = Some co
     ∧ arrays w' = arrays w
     ∧ changeSets w' = changeSets w
     ∧ persistStack w' = persistStack w)
  ∧ (∀ fuel' rest w2,
       extraUpdates w2 = (parent, name prop, VCollection c) :: rest →
       is_Some (ents w2 !! parent) →
       let w3 := set_field parent (name prop) (VCollection c)
                   (set_extraUpdates rest w2) in
       field w3 parent (name prop) = VCollection c
       ∧ extraUpdates w3 = rest
       ∧ drainExtraUpdates (S fuel') w2 =
           match computeChangeSet parent w3 with
           | ComputeThrows err w4 => Throw err w4
           | Computes None w4 => drainExtraUpdates fuel' w4
           | Computes (Some changeSet) w4 =>
               let '(r, w5) := new_changeSet changeSet w4 in
               commitChangeSet fuel' r w5 >>- drainExtraUpdates fuel'
           end).
Proof.
  intros Hmn Hco Hdirty Hinit Hitem Hns Hvis Hparent Hfresh.
  split.
  - assert (c ≠ next_ref w) as Hne by (intros ->; congruence).
    eexists. split.
    + simpl. unfold isToOne. rewrite Hmn; simpl.
      unfold isDirty, getItems. rewrite Hco, Hdirty, Hinit; simpl.
      rewrite (isCollectionSelfReferenced_true w (items co) visited item)
        by done.
      reflexivity.
    + split; [done|]. split.
      { rewrite field_set_field; [done|]. simpl. done. }
      split; [simpl; by rewrite lookup_insert_eq|].
      split; [unfold getItems; simpl; by rewrite lookup_insert_eq|].
      split; [simpl; by rewrite lookup_insert_ne|].
      done.
  - intros fuel' rest w2 Hq Hp w3. split; [|split].
    + unfold w3. by apply field_set_field.
    + done.
    + simpl. rewrite Hq. done.
Qed.

End DiscoveryProperties.

(** ** Order of the change sets *)

Section ArrayFacts.
Context {A : Type} `{EqDecision A}.

Lemma indexOf_bounds (l : list A) (x : A) :
  (-1 ≤ indexOf l x < Z.of_nat (length l))%Z.
Proof.
  induction l as [|y l IH]; simpl; [lia|].
  destruct (decide (x = y)); [lia|].
  destruct (Z.ltb_spec (indexOf l x) 0); lia.
Qed.

Lemma indexOf_lookup (l : list A) (x : A) (i : nat) :
  indexOf l x = Z.of_nat i → l !! i = Some x.
Proof.
  revert i. induction l as [|y l IH]; intros i; simpl; [lia|].
  destruct (decide (x = y)) as [->|Hne].
  - intros Hi. assert (i = 0) as -> by lia. done.
  - destruct (Z.ltb_spec (indexOf l x) 0); [lia|].
    intros Hi. destruct i as [|i]; [lia|]. simpl. apply IH. lia.
Qed.

Lemma indexOf_elem_of (l : list A) (x : A) :
  x ∈ l → (0 ≤ indexOf l x)%Z.
Proof.
  induction l as [|y l IH]; simpl; [by intros ?%elem_of_nil|].
  intros [->|Hin]%elem_of_cons.
  - rewrite decide_True by done. lia.
  - destruct (decide (x = y)); [lia|].
    specialize (IH Hin).
    destruct (Z.ltb_spec (indexOf l x) 0); lia.
Qed.

Lemma indexOf_inj (l : list A) (x y : A) :
  x ∈ l → indexOf l x = indexOf l y → x = y.
Proof.
  intros Hx Heq.
  pose proof (indexOf_elem_of l x Hx) as H0.
  assert (∃ i, indexOf l x = Z.of_nat i) as [i Hi].
  { exists (Z.to_nat (indexOf l x)). lia. }
  pose proof (indexOf_lookup l x i Hi) as H1.
  rewrite Heq in Hi. pose proof (indexOf_lookup l y i Hi) as H2.
  congruence.
Qed.

Lemma indexOf_NoDup (l : list A) (x : A) (i : nat) :
  NoDup l → l !! i = Some x → indexOf l x = Z.of_nat i.
Proof.
  intros Hnd Hi.
  assert (x ∈ l) as Hx by (by eapply list_elem_of_lookup_2).
  pose proof (indexOf_elem_of l x Hx) as H0.
  assert (indexOf l x = Z.of_nat (Z.to_nat (indexOf l x))) as Hj by lia.
  apply indexOf_lookup in Hj.
  rewrite (NoDup_lookup l i (Z.to_nat (indexOf l x)) x Hnd Hi Hj). lia.
Qed.

Lemma indexOf_reverse (l : list A) (x : A) :
  NoDup l → x ∈ l →
  indexOf (reverse l) x = (Z.of_nat (length l) - 1 - indexOf l x)%Z.
Proof.
  intros Hnd Hx.
  apply list_elem_of_lookup_1 in Hx as [i Hi].
  rewrite (indexOf_NoDup l x i Hnd Hi).
  pose proof (lookup_lt_Some _ _ _ Hi) as Hlt.
  rewrite (indexOf_NoDup (reverse l) x (length l - S i)).
  - lia.
  - by rewrite reverse_Permutation.
  - apply reverse_lookup_Some. split; [|lia].
    replace (length l - S (length l - S i)) with i by lia. done.
Qed.

Lemma sort_insert_perm (cmp : A → A → Z) a l :
  sort_insert cmp a l ≡ₚ a :: l.
Proof.
  induction l as [|b l IH]; simpl; [done|].
  destruct (cmp a b <=? 0)%Z; [done|].
  rewrite IH. apply perm_swap.
Qed.

Lemma Array_sort_perm (cmp : A → A → Z) l : Array_sort cmp l ≡ₚ l.
Proof.
  induction l as [|a l IH]; simpl; [done|].
  unfold Array_sort in *. simpl. by rewrite sort_insert_perm, IH.
Qed.

(** When the comparison function decides a total preorder, the sort puts
    the array in that order. *)
Lemma Array_sort_sorted (cmp : A → A → Z) (R : relation A) l :
  (∀ a b, (cmp a b ≤ 0)%Z ↔ R a b) →
  (∀ a b, R a b ∨ R b a) →
  Transitive R →
  StronglySorted R (Array_sort cmp l).
Proof.
  intros Hcmp Htot Htrans.
  induction l as [|a l IH]; [constructor|].
  unfold Array_sort in *. simpl.
  revert IH. generalize (foldr (sort_insert cmp) [] l). clear l.
  intros l Hs. induction Hs as [|b l Hs IH Hb]; simpl.
  - repeat constructor.
  - destruct (Z.leb_spec (cmp a b) 0) as [Hle|Hgt].
    + apply Hcmp in Hle. constructor; [by constructor|].
      constructor; [done|].
      eapply Forall_impl; [exact Hb|]. intros x Hx. by etrans.
    + constructor; [done|].
      rewrite sort_insert_perm. constructor; [|done].
      destruct (Htot a b) as [Hab|Hba]; [|done].
      apply Hcmp in Hab. lia.
Qed.

Lemma StronglySorted_lookup (R : relation A) l i j a b :
  StronglySorted R l → i < j → l !! i = Some a → l !! j = Some b → R a b.
Proof.
  intros Hs Hij Hi Hj.
  rewrite <- (take_drop j l) in Hs.
  eapply StronglySorted_app_1_elem_of; [exact Hs| |].
  - apply list_elem_of_lookup. exists i. rewrite lookup_take_lt; done.
  - apply list_elem_of_lookup. exists 0. by rewrite lookup_drop, Nat.add_0_r.
Qed.

End ArrayFacts.

Section ReorderProperties.
Context `{Collaborators}.

Lemma precedes_indexOf {A} `{EqDecision A} (l : list A) (x y : A) :
  x ∈ l → y ∈ l → (indexOf l x < indexOf l y)%Z → precedes l x y.
Proof.
  intros Hx Hy Hlt.
  pose proof (indexOf_elem_of l x Hx). pose proof (indexOf_elem_of l y Hy).
  exists (Z.to_nat (indexOf l x)), (Z.to_nat (indexOf l y)).
  split; [apply indexOf_lookup; lia|].
  split; [apply indexOf_lookup; lia|lia].
Qed.

Lemma type_in_typeOrder (t : ChangeSetType) : t ∈ typeOrder.
Proof. unfold typeOrder. destruct t; set_solver. Qed.

Lemma lex_le_total x y : lex_le x y ∨ lex_le y x.
Proof. unfold lex_le. lia. Qed.

Lemma lex_le_trans x y z : lex_le x y → lex_le y z → lex_le x z.
Proof. unfold lex_le. lia. Qed.

(** The comparison function of [reorderChangeSets] decides the
    lexicographic order of the sort keys. *)
Lemma changeSetCompare_sortKey w commitOrder copy a b :
  (changeSetCompare w commitOrder copy a b ≤ 0)%Z
  ↔ sorted_before w commitOrder copy a b.
Proof.
  unfold changeSetCompare, sorted_before, sortKey, lex_le, compare.
  cbn [fst snd].
  destruct (decide (cs_type (cs w a) = cs_type (cs w b))) as [Heq|Hne].
  - rewrite bool_decide_eq_false_2 by (by intros ?).
    rewrite <- Heq.
    destruct (bool_decide (cs_type (cs w a) = DELETE));
      match goal with
      | |- context [(?x =? ?y)%Z] => destruct (Z.eqb_spec x y)
      end; lia.
  - rewrite bool_decide_eq_true_2 by done.
    assert (indexOf typeOrder (cs_type (cs w a))
            ≠ indexOf typeOrder (cs_type (cs w b))) as Hr.
    { intros Hr. apply Hne.
      eapply indexOf_inj; [apply type_in_typeOrder|exact Hr]. }
    match goal with
    | |- context [(?x =? ?y)%Z] => destruct (Z.eqb_spec x y)
    end; lia.
Qed.

Lemma reorderChangeSets_sorted w :
  StronglySorted (sorted_before w (getCommitOrder w) (changeSets w))
    (changeSets (reorderChangeSets w)).
Proof.
  unfold reorderChangeSets; simpl.
  apply Array_sort_sorted.
  - apply changeSetCompare_sortKey.
  - intros a b. apply lex_le_total.
  - intros a b c. apply lex_le_trans.
Qed.

(** C1. [reorderChangeSets] permutes the change-set list so that, for any
    two change sets [a] before [b] in the result: if their types differ,
    the type of [a] comes before the type of [b] in CREATE, UPDATE,
    DELETE; if both are CREATE or both UPDATE and their entity names
    differ, the name of [a] comes before the name of [b] in the commit
    order; if both are DELETE and their names differ, the name of [a]
    comes after the name of [b] in the commit order; and if type and name
    agree, [a] was before [b] in the list before the sort.  The commit
    order is what [CommitOrderCalculator.sort()] returns: the names of the
    change sets, each once. *)
Theorem reorderChangeSets_order (w : World) :
  NoDup (changeSets w) →
  NoDup (getCommitOrder w) →
  (∀ r, r ∈ changeSets w → cs_name (cs w r) ∈ getCommitOrder w) →
  changeSets (reorderChangeSets w) ≡ₚ changeSets w
  ∧ csHeap (reorderChangeSets w) = csHeap w
  ∧ ∀ a b,
      precedes (changeSets (reorderChangeSets w)) a b →
      (cs_type (cs w a) ≠ cs_type (cs w b) →
       precedes [CREATE; UPDATE; DELETE] (cs_type (cs w a)) (cs_type (cs w b)))
      ∧ (cs_type (cs w a) = cs_type (cs w b) →
         cs_type (cs w a) ≠ DELETE →
         cs_name (cs w a) ≠ cs_name (cs w b) →
         precedes (getCommitOrder w) (cs_name (cs w a)) (cs_name (cs w b)))
      ∧ (cs_type (cs w a) = cs_type (cs w b) →
         cs_type (cs w a) = DELETE →
         cs_name (cs w a) ≠ cs_name (cs w b) →
         precedes (getCommitOrder w) (cs_name (cs w b)) (cs_name (cs w a)))
      ∧ (cs_type (cs w a) = cs_type (cs w b) →
         cs_name (cs w a) = cs_name (cs w b) →
         precedes (changeSets w) a b).
Proof.
  intros Hnd Hord Hnames.
  assert (changeSets (reorderChangeSets w) ≡ₚ changeSets w) as Hperm
    by apply Array_sort_perm.
  split; [done|]. split; [done|].
  intros a b (i & j & Hi & Hj & Hij).
  pose proof (StronglySorted_lookup _ _ _ _ _ _ (reorderChangeSets_sorted w)
                Hij Hi Hj) as Hab.
  assert (a ∈ changeSets w) as Ha.
  { rewrite <- Hperm. by eapply list_elem_of_lookup_2. }
  assert (b ∈ changeSets w) as Hb.
  { rewrite <- Hperm. by eapply list_elem_of_lookup_2. }
  assert (a ≠ b) as Hne.
  { intros ->. rewrite <- Hperm in Hnd.
    pose proof (NoDup_lookup _ _ _ _ Hnd Hi Hj). lia. }
  assert (indexOf (changeSets w) a ≠ indexOf (changeSets w) b) as Hbase.
  { intros Heq. apply Hne. by eapply indexOf_inj. }
  pose proof (Hnames a Ha) as Hna. pose proof (Hnames b Hb) as Hnb.
  unfold sorted_before, sortKey, lex_le in Hab; cbn [fst snd] in Hab.
  repeat split.
  - intros Ht. apply precedes_indexOf; try apply type_in_typeOrder.
    assert (indexOf typeOrder (cs_type (cs w a))
            ≠ indexOf typeOrder (cs_type (cs w b))) as Hr.
    { intros Hr. apply Ht.
      eapply indexOf_inj; [apply type_in_typeOrder|exact Hr]. }
    fold typeOrder. lia.
  - intros Ht Hnd' Hn. apply precedes_indexOf; try done.
    rewrite <- Ht in Hab.
    rewrite bool_decide_eq_false_2 in Hab by done.
    assert (indexOf (getCommitOrder w) (cs_name (cs w a))
            ≠ indexOf (getCommitOrder w) (cs_name (cs w b))) as Hs.
    { intros Hs. apply Hn. by eapply indexOf_inj. }
    lia.
  - intros Ht Hd Hn. apply precedes_indexOf; try done.
    rewrite <- Ht in Hab.
    rewrite bool_decide_eq_true_2 in Hab by done.
    rewrite !indexOf_reverse in Hab by done.
    assert (indexOf (getCommitOrder w) (cs_name (cs w a))
            ≠ indexOf (getCommitOrder w) (cs_name (cs w b))) as Hs.
    { intros Hs. apply Hn. by eapply indexOf_inj. }
    lia.
  - intros Ht Hn. apply precedes_indexOf; try done.
    rewrite <- Ht, <- Hn in Hab.
    lia.
Qed.

End ReorderProperties.

(** With the commit order Author, Book: the author's insert, the two book
    inserts in their former order, the update, then the deletes, book
    first. *)
Lemma reorderChangeSets_order_witness :
  getCommitOrder (H := library_collaborators) unsorted_world
    = ["Author"; "Book"]
  ∧ changeSets (reorderChangeSets (H := library_collaborators) unsorted_world)
    = [4; 3; 5; 2; 1; 0]
  ∧ changeSets (reorderChangeSets (H := library_collaborators) unsorted_world)
    ≡ₚ changeSets unsorted_world.
Proof.
  split; [vm_compute; reflexivity|].
  split; [vm_compute; reflexivity|].
  apply (reorderChangeSets_order (H := library_collaborators) unsorted_world).
  - apply (bool_decide_unpack _). vm_compute. reflexivity.
  - apply (bool_decide_unpack _). vm_compute. reflexivity.
  - apply Forall_forall. apply (bool_decide_unpack _). vm_compute. reflexivity.
Defined.

(** ** Cascades *)

Local Close Scope string_scope.

Section LoopFacts.

Lemma for_each_stops {A} (body : A → World → Outcome) xs o :
  (∀ w, o ≠ Return w) →
  foldl (fun o x => o >>- body x) o xs = o.
Proof.
  intros Ho. induction xs as [|x xs IH]; simpl; [done|].
  destruct o as [w| |]; [by destruct (Ho w)|exact IH|exact IH].
Qed.

Lemma for_each_cons {A} (body : A → World → Outcome) x xs w :
  for_each (x :: xs) body w = body x w >>- for_each xs body.
Proof.
  unfold for_each; simpl.
  destruct (body x w) as [w'| |]; simpl; [done| |];
    by apply for_each_stops.
Qed.

(** A loop whose body returns and keeps [J] returns and keeps [J]. *)
Lemma for_each_returns {A} (J : World → Prop) (body : A → World → Outcome)
    xs w :
  (∀ x w, x ∈ xs → J w → ∃ w', body x w = Return w' ∧ J w') →
  J w →
  ∃ w', for_each xs body w = Return w' ∧ J w'.
Proof.
  revert w. induction xs as [|x xs IH]; intros w Hbody HJ.
  - by exists w.
  - rewrite for_each_cons.
    destruct (Hbody x w) as (w1 & -> & HJ1); [set_solver|done|]. simpl.
    apply IH; [|done]. intros y w2 Hy. apply Hbody. set_solver.
Qed.

End LoopFacts.

Section CascadeFacts.
Context `{Collaborators}.

Lemma cleanUpStack_subseteq stack e : cleanUpStack stack e ⊆ stack.
Proof.
  assert (∀ n stack, length stack ≤ n → cleanUpStack stack e ⊆ stack) as Hn.
  { clear stack. intros n. induction n as [|n IH]; intros stack Hlen.
    - destruct stack; [done|simpl in Hlen; lia].
    - destruct stack as [|x rest]; simpl in *; [done|].
      destruct (decide (x = e)).
      + destruct rest as [|y rest]; [set_solver|].
        specialize (IH rest). simpl in Hlen. set_solver by lia.
      + specialize (IH rest). set_solver by lia. }
  by apply (Hn (length stack)).
Qed.

Lemma cleanUpStack_NoDup stack e :
  NoDup stack → e ∉ cleanUpStack stack e.
Proof.
  induction stack as [|x rest IH]; simpl; [set_solver|].
  intros [Hx Hnd]%NoDup_cons.
  destruct (decide (x = e)) as [->|Hne].
  - destruct rest as [|y rest]; [set_solver|].
    pose proof (cleanUpStack_subseteq rest e). set_solver.
  - set_solver.
Qed.

Lemma dict_get_delete_eq {V} k (d : list (string * V)) :
  dict_get k (dict_delete k d) = None.
Proof.
  unfold dict_delete. induction d as [|[k' v] d IH]; simpl; [done|].
  rewrite filter_cons. simpl.
  destruct (decide (k' ≠ k)) as [Hne|Heq]; simpl; [|done].
  rewrite decide_False by done. done.
Qed.

Lemma dict_get_delete_None {V} k k' (d : list (string * V)) :
  dict_get k d = None → dict_get k (dict_delete k' d) = None.
Proof.
  unfold dict_delete. induction d as [|[k1 v] d IH]; simpl; [done|].
  rewrite filter_cons. simpl.
  destruct (decide (k = k1)) as [->|Hne]; [done|].
  intros Hd. destruct (decide (k1 ≠ k')); simpl; [|by apply IH].
  rewrite decide_False by done. by apply IH.
Qed.

Lemma cascade_frame_refl type_ w : cascade_frame type_ w w.
Proof. destruct type_; simpl; auto. Qed.

Lemma cascade_frame_trans type_ w1 w2 w3 :
  cascade_frame type_ w1 w2 → cascade_frame type_ w2 w3 →
  cascade_frame type_ w1 w3.
Proof.
  destruct type_; simpl; auto.
  - set_solver.
  - intros (Hp & Hr & Hi & Hd & Ho) (Hp' & Hr' & Hi' & Hd' & Ho').
    repeat split; [set_solver|set_solver|auto..].
Qed.

Lemma cascaded_refl type_ visited w : cascaded type_ visited w w.
Proof.
  repeat split; [by exists []; rewrite app_nil_r|apply cascade_frame_refl].
Qed.

Lemma cascaded_trans type_ visited w1 w2 w3 :
  cascaded type_ visited w1 w2 → cascaded type_ visited w2 w3 →
  cascaded type_ visited w1 w3.
Proof.
  intros (He & Hc & [m Hm] & Hf) (He' & Hc' & [m' Hm'] & Hf').
  split; [|split; [|split]].
  - intros e. by rewrite He', He.
  - by rewrite Hc', Hc.
  - exists (m ++ m'). by rewrite Hm', Hm, app_assoc.
  - by eapply cascade_frame_trans.
Qed.


Lemma set___em_eq o o' :
  set___em false o = set___em false o' →
  className o = className o' ∧ __uuid o = __uuid o'
  ∧ __primaryKey o = __primaryKey o'
  ∧ __serializedPrimaryKey o = __serializedPrimaryKey o'
  ∧ __initialized o = __initialized o' ∧ fields o = fields o'.
Proof. destruct o, o'. unfold set___em; simpl. intros [=]. by subst. Qed.

Lemma cascaded_wrap type_ visited w w' e :
  cascaded type_ visited w w' →
  set___em false (wrap w' e) = set___em false (wrap w e).
Proof.
  intros (He & _). specialize (He e). unfold wrap.
  destruct (ents w' !! e), (ents w !! e); simpl in *; congruence.
Qed.

Lemma cascaded_field type_ visited w w' e key :
  cascaded type_ visited w w' → field w' e key = field w e key.
Proof.
  intros (He & _). specialize (He e). unfold field.
  destruct (ents w' !! e) as [o'|], (ents w !! e) as [o|]; simpl in *;
    try done.
  apply (inj Some) in He. apply set___em_eq in He as (_ & _ & _ & _ & _ & ->).
  done.
Qed.

Lemma cascaded_unwrapReference type_ visited w w' e prop :
  cascaded type_ visited w w' →
  unwrapReference w' e prop = unwrapReference w e prop.
Proof.
  intros Hc. unfold unwrapReference. by rewrite (cascaded_field _ _ _ _ _ _ Hc).
Qed.

Lemma cascaded_className type_ visited w w' e :
  cascaded type_ visited w w' → className (wrap w' e) = className (wrap w e).
Proof. intros Hc. by apply (cascaded_wrap _ _ _ _ e), set___em_eq in Hc as (? & _). Qed.

Lemma cascaded_hydrated type_ visited w w' :
  cascaded type_ visited w w' → hydrated w → hydrated w'.
Proof.
  intros Hc Hh e o' prop Ho' Hprop.
  rewrite (cascaded_unwrapReference _ _ _ _ _ _ Hc).
  destruct Hc as (He & _). specialize (He e). rewrite Ho' in He.
  destruct (ents w !! e) as [o|] eqn:Ho; simpl in He; [|done].
  apply (inj Some) in He. apply set___em_eq in He as (Hcn & _).
  apply (Hh e o prop Ho). by rewrite <- Hcn.
Qed.

Lemma cascaded_dom type_ visited w w' :
  cascaded type_ visited w w' → dom (ents w') = dom (ents w).
Proof.
  intros (He & _). apply set_eq. intros e. rewrite !elem_of_dom.
  specialize (He e).
  destruct (ents w' !! e), (ents w !! e); simpl in *; try done.
  all: split; intros [? ?]; done.
Qed.

Lemma cascaded_unvisited type_ visited w w' :
  cascaded type_ visited w w' → unvisited visited w' ≤ unvisited visited w.
Proof.
  intros Hc. unfold unvisited. rewrite (cascaded_dom _ _ _ _ Hc).
  destruct Hc as (_ & _ & [m Hm] & _). rewrite Hm.
  apply subseteq_size. set_solver.
Qed.

Lemma cascaded_value_isInitialized type_ visited w w' v :
  cascaded type_ visited w w' →
  value_isInitialized w' v = value_isInitialized w v.
Proof.
  intros Hc. pose proof Hc as (He & Hcolls & _).
  destruct v as [| | | |e|e|c|]; simpl; try done.
  - pose proof (cascaded_wrap _ _ _ _ e Hc) as Hw. unfold wrap in Hw.
    specialize (He e).
    destruct (ents w' !! e), (ents w !! e); simpl in *; try done.
    by apply set___em_eq in Hw as (_ & _ & _ & _ & ? & _).
  - pose proof (cascaded_wrap _ _ _ _ e Hc) as Hw. unfold wrap in Hw.
    specialize (He e).
    destruct (ents w' !! e), (ents w !! e); simpl in *; try done.
    by apply set___em_eq in Hw as (_ & _ & _ & _ & ? & _).
  - by rewrite Hcolls.
Qed.

Lemma cascaded_isInitialized type_ visited w w' c fully :
  cascaded type_ visited w w' →
  Collection_isInitialized w' c fully = Collection_isInitialized w c fully.
Proof.
  intros Hc. pose proof Hc as (_ & Hcolls & _).
  unfold Collection_isInitialized. rewrite Hcolls.
  destruct (colls w !! c) as [co|]; [|done].
  destruct fully; [|done]. f_equal.
  induction (items co) as [|item its IH]; cbn [forallb]; [done|].
  by rewrite IH, (cascaded_value_isInitialized _ _ _ _ _ Hc).
Qed.

Lemma cascaded_getItems type_ visited w w' c :
  cascaded type_ visited w w' → getItems w' c = getItems w c.
Proof. intros (_ & Hcolls & _). unfold getItems. by rewrite Hcolls. Qed.

Lemma array_array_push visited e w :
  array (array_push visited e w) visited = array w visited ++ [e].
Proof. unfold array, array_push; simpl. by rewrite lookup_insert_eq. Qed.

Lemma cascaded_array_push type_ visited e w :
  cascaded type_ visited w (array_push visited e w).
Proof.
  split; [done|]. split; [done|]. split.
  - exists [e]. apply array_array_push.
  - destruct type_; simpl; auto.
Qed.

Lemma unvisited_array_push visited e w :
  is_Some (ents w !! e) → e ∉ array w visited →
  unvisited visited (array_push visited e w) < unvisited visited w.
Proof.
  intros He Hv. unfold unvisited. rewrite array_array_push. simpl.
  apply subset_size. apply elem_of_dom in He.
  rewrite list_to_set_app_L. simpl.
  apply strict_spec_alt. split; [set_solver|].
  intros Heq. assert (e ∈ dom (ents w) ∖ list_to_set (array w visited))
    as Hin by set_solver.
  rewrite <- Heq in Hin. set_solver.
Qed.

Lemma unvisited_zero visited e w :
  unvisited visited w = 0 → e ∉ array w visited → ents w !! e = None.
Proof.
  unfold unvisited. intros Hz Hv. apply size_empty_inv in Hz.
  apply not_elem_of_dom. intros Hd.
  assert (e ∈ dom (ents w) ∖ list_to_set (array w visited)) as Hin
    by set_solver.
  set_solver.
Qed.

End CascadeFacts.

Section CascadeTermination.
Context `{Collaborators}.

Lemma hydrated_value_undefined prop : hydrated_value prop VUndefined.
Proof.
  split; [|done]. rewrite andb_false_r. done.
Qed.

Lemma unwrapReference_dangling w e prop :
  ents w !! e = None → unwrapReference w e prop = VUndefined.
Proof. intros He. unfold unwrapReference, field. by rewrite He. Qed.

Lemma hydrated_value_at w e prop :
  hydrated w →
  prop ∈ properties (metadata_get (className (wrap w e))) →
  hydrated_value prop (unwrapReference w e prop).
Proof.
  intros Hh Hprop. destruct (ents w !! e) as [o|] eqn:He.
  - apply (Hh e o prop He). unfold wrap in Hprop. by rewrite He in Hprop.
  - rewrite unwrapReference_dangling by done. apply hydrated_value_undefined.
Qed.

(** On a hydrated value [fixMissingReference] has nothing to do. *)
Lemma fixMissingReference_hydrated e prop w :
  hydrated_value prop (unwrapReference w e prop) →
  fixMissingReference e prop w = Return w.
Proof.
  intros [Hone Hmany]. unfold fixMissingReference.
  destruct (isToOne prop && truthy (unwrapReference w e prop)) eqn:Hc.
  - rewrite (Hone eq_refl). simpl.
    destruct (unwrapReference w e prop); try done. simpl in Hone.
    by specialize (Hone eq_refl).
  - simpl. destruct (unwrapReference w e prop) as [| | | | | | |r els];
      try done.
    destruct (isToMany prop) eqn:Hm; [|done].
    by destruct (Hmany eq_refl r els).
Qed.

Lemma ents_define___em e e' w :
  set___em false <$> ents (define___em e w) !! e'
  = set___em false <$> ents w !! e'.
Proof.
  unfold define___em; simpl. destruct (decide (e = e')) as [->|Hne].
  - rewrite lookup_alter_eq. by destruct (ents w !! e').
  - by rewrite lookup_alter_ne.
Qed.

Lemma cascade_visited fuel e type_ visited check w :
  e ∈ array w visited →
  cascade (S fuel) e type_ visited check w = Return w.
Proof.
  intros Hv. simpl. unfold includes. by rewrite bool_decide_eq_true_2.
Qed.

Lemma cascaded_same_array type_ visited w w' :
  (∀ e, set___em false <$> ents w' !! e = set___em false <$> ents w !! e) →
  colls w' = colls w →
  array w' visited = array w visited →
  cascade_frame type_ w w' →
  cascaded type_ visited w w'.
Proof.
  intros He Hc Ha Hf. split; [done|]. split; [done|]. split; [|done].
  exists []. by rewrite app_nil_r.
Qed.

Lemma cascaded_operation_visited fuel e type_ visited check w :
  2 ≤ fuel → e ∈ array w visited →
  ∃ w', cascaded_operation fuel e type_ visited check w = Return w'
        ∧ cascaded type_ visited w w'
        ∧ array w' visited = array w visited.
Proof.
  intros Hfuel Hv.
  destruct fuel as [|[|fuel]]; [lia|lia|].
  destruct type_; cbn [cascaded_operation].
  - (* persist *)
    cbn [persist].
    destruct (includes e (persistStack w));
      [exists w; split; [done|]; split; [apply cascaded_refl|done]|].
    destruct (check && includes e (removeStack w));
      [exists w; split; [done|]; split; [apply cascaded_refl|done]|].
    destruct (negb (hasPrimaryKey w e)).
    + eexists. split; [by apply cascade_visited|]. split; [|done].
      apply cascaded_same_array; try done.
      simpl. split; [apply cleanUpStack_subseteq|set_solver].
    + eexists. split; [by apply cascade_visited|]. split; [|done].
      apply cascaded_same_array; try done.
      simpl. split; [apply cleanUpStack_subseteq|set_solver].
  - (* merge *)
    cbn [merge].
    destruct (negb (hasPrimaryKey (define___em e w) e)).
    + eexists. split; [done|]. split; [|done].
      apply cascaded_same_array; try done. intros e0. apply ents_define___em.
    + eexists. split; [by apply cascade_visited|]. split; [|done].
      apply cascaded_same_array; try done. intros e0. apply ents_define___em.
  - (* remove *)
    cbn [remove].
    destruct (includes e (removeStack w));
      [exists w; split; [done|]; split; [apply cascaded_refl|done]|].
    destruct (hasPrimaryKey w e).
    + eexists. split; [by apply cascade_visited|]. split; [|done].
      apply cascaded_same_array; try done.
      simpl. split; [apply cleanUpStack_subseteq|].
      split; [set_solver|].
      split; [intros k Hk; by apply dict_get_delete_None|].
      split; intros k Hk; rewrite lookup_delete_None; auto.
    + eexists. split; [by apply cascade_visited|]. split; [|done].
      apply cascaded_same_array; try done.
      simpl. split; [apply cleanUpStack_subseteq|].
      split; [set_solver|].
      split; [intros k Hk; by apply dict_get_delete_None|].
      split; intros k Hk; rewrite lookup_delete_None; auto.
  - exists w. split; [done|]. split; [apply cascaded_refl|done].
Qed.

Lemma cascade_unfold fuel e type_ visited check w :
  cascade (S fuel) e type_ visited check w =
    if includes e (array w visited) then Return w
    else
      cascaded_operation fuel e type_ visited check (array_push visited e w)
      >>- fun w =>
      for_each
        (filter (fun prop => reference prop ≠ SCALAR)
           (properties (metadata_get (className (wrap w e)))))
        (fun prop => cascadeReference fuel e prop type_ visited check) w.
Proof. reflexivity. Qed.

Lemma cascadeReference_dangling fuel e prop type_ visited check w :
  ents w !! e = None →
  cascadeReference (S fuel) e prop type_ visited check w = Return w.
Proof.
  intros He. cbn [cascadeReference].
  rewrite fixMissingReference_hydrated
    by (rewrite unwrapReference_dangling by done;
        apply hydrated_value_undefined).
  cbn [bind]. rewrite unwrapReference_dangling by done.
  rewrite andb_false_r. by destruct (negb _).
Qed.

Lemma cascadeReference_returns type_ visited k :
  cascade_returns_at type_ visited k →
  ∀ fuel e prop check w,
    2 * k + 4 ≤ fuel → hydrated w → NoDup (array w visited) →
    unvisited visited w ≤ k →
    prop ∈ properties (metadata_get (className (wrap w e))) →
    ∃ w', cascadeReference fuel e prop type_ visited check w = Return w'
          ∧ cascaded type_ visited w w'
          ∧ NoDup (array w' visited).
Proof.
  intros IH fuel e prop check w Hfuel Hh Hnd Hk Hprop.
  destruct fuel as [|fuel]; [lia|]. cbn [cascadeReference].
  pose proof (hydrated_value_at w e prop Hh Hprop) as Hv.
  rewrite (fixMissingReference_hydrated e prop w Hv). cbn [bind].
  destruct (negb (shouldCascade prop type_));
    [exists w; split; [done|]; split; [apply cascaded_refl|done]|].
  destruct Hv as [Hone Hmany].
  destruct (isToOne prop && truthy (unwrapReference w e prop)) eqn:Hto.
  - specialize (Hone eq_refl).
    destruct (unwrapReference w e prop) as [| | | |e'| | |]; try done.
    destruct (IH fuel e' check w) as (w' & Hw' & Hc & Hnd' & _);
      [lia|done..|].
    by exists w'.
  - destruct (unwrapReference w e prop) as [| | | | | |c|];
      try (exists w; split; [done|]; split; [apply cascaded_refl|done]).
    destruct (isToMany prop && Collection_isInitialized w c _);
      [|exists w; split; [done|]; split; [apply cascaded_refl|done]].
    apply (for_each_returns
             (fun w1 => cascaded type_ visited w w1
                        ∧ NoDup (array w1 visited)));
      [|split; [apply cascaded_refl|done]].
    intros item w1 _ [Hc1 Hnd1].
    destruct (IH fuel item check w1) as (w2 & Hw2 & Hc2 & Hnd2 & _).
    + lia.
    + by eapply cascaded_hydrated.
    + done.
    + pose proof (cascaded_unvisited _ _ _ _ Hc1). lia.
    + exists w2. split; [done|]. split; [|done]. by eapply cascaded_trans.
Qed.

Lemma cascade_returns type_ visited n : cascade_returns_at type_ visited n.
Proof.
  induction n as [|k IH]; intros fuel e check w Hfuel Hh Hnd Hn.
  all: destruct fuel as [|fuel]; [lia|]; rewrite cascade_unfold.
  all: unfold includes; destruct (decide (e ∈ array w visited)) as [Hin|Hnin];
    [rewrite bool_decide_eq_true_2 by done; exists w;
     split; [done|]; split; [apply cascaded_refl|done]
    |rewrite bool_decide_eq_false_2 by done].
  all: pose proof (cascaded_array_push type_ visited e w) as Hc1.
  all: pose proof (array_array_push visited e w) as Ha1.
  all: assert (NoDup (array (array_push visited e w) visited)) as Hnd1
    by (rewrite Ha1; apply NoDup_app; split; [done|];
        split; [set_solver|apply NoDup_singleton]).
  all: destruct (cascaded_operation_visited fuel e type_ visited check
                   (array_push visited e w)) as (w2 & -> & Hc2 & Ha2);
    [lia|rewrite Ha1; set_solver|]; cbn [bind].
  all: assert (cascaded type_ visited w w2) as Hc02
    by (by eapply cascaded_trans).
  all: assert (e ∈ array w2 visited) as He2 by (rewrite Ha2, Ha1; set_solver).
  all: destruct (ents w !! e) as [o|] eqn:Ho.
  all: try (pose proof (unvisited_array_push visited e w
                          (mk_is_Some _ _ Ho) Hnin);
            lia).
  - (* no entity left to visit: [e] is not on the heap *)
    destruct fuel as [|fuel]; [lia|].
    destruct (for_each_returns (fun w3 => w3 = w2)
                (fun prop => cascadeReference (S fuel) e prop type_ visited check)
                (filter (fun prop => reference prop ≠ SCALAR)
                   (properties (metadata_get (className (wrap w2 e)))))
                w2) as (w3 & Hw3 & ->); [|done|].
    + intros prop w3 _ ->. exists w2. split; [|done].
      apply cascadeReference_dangling.
      apply not_elem_of_dom. rewrite (cascaded_dom _ _ _ _ Hc02).
      by apply not_elem_of_dom.
    + exists w2. rewrite Ha2 in *. by rewrite Hw3.
  - (* [e] is on the heap and was not visited *)
    pose proof (unvisited_array_push visited e w (mk_is_Some _ _ Ho) Hnin)
      as Hlt.
    pose proof (cascaded_unvisited _ _ _ _ Hc2) as Hle2.
    destruct (for_each_returns
                (fun w3 => cascaded type_ visited w2 w3
                           ∧ NoDup (array w3 visited))
                (fun prop => cascadeReference fuel e prop type_ visited check)
                (filter (fun prop => reference prop ≠ SCALAR)
                   (properties (metadata_get (className (wrap w2 e)))))
                w2) as (w3 & Hw3 & Hc3 & Hnd3).
    + intros prop w3 Hprop [Hc3 Hnd3].
      destruct (cascadeReference_returns type_ visited k IH fuel e prop check
                  w3) as (w4 & Hw4 & Hc4 & Hnd4).
      * lia.
      * eapply cascaded_hydrated; [exact Hc3|].
        by eapply cascaded_hydrated.
      * done.
      * pose proof (cascaded_unvisited _ _ _ _ Hc3). lia.
      * rewrite (cascaded_className _ _ _ _ e Hc3).
        by apply list_elem_of_filter in Hprop as [_ ?].
      * exists w4. split; [done|]. split; [|done]. by eapply cascaded_trans.
    + split; [apply cascaded_refl|by rewrite Ha2].
    + exists w3. split; [done|]. split; [by eapply cascaded_trans|].
      split; [done|].
      destruct Hc3 as (_ & _ & [more ->] & _). set_solver.
  - (* [e] is not on the heap *)
    destruct fuel as [|fuel]; [lia|].
    destruct (for_each_returns (fun w3 => w3 = w2)
                (fun prop => cascadeReference (S fuel) e prop type_ visited check)
                (filter (fun prop => reference prop ≠ SCALAR)
                   (properties (metadata_get (className (wrap w2 e)))))
                w2) as (w3 & Hw3 & ->); [|done|].
    + intros prop w3 _ ->. exists w2. split; [|done].
      apply cascadeReference_dangling.
      apply not_elem_of_dom. rewrite (cascaded_dom _ _ _ _ Hc02).
      by apply not_elem_of_dom.
    + exists w2. rewrite Ha2 in *. by rewrite Hw3.
Qed.

End CascadeTermination.

Section EntryPoints.
Context `{Collaborators}.

Lemma hydrated_valueb_correct prop v :
  hydrated_valueb prop v = true → hydrated_value prop v.
Proof.
  unfold hydrated_valueb, hydrated_value.
  intros [Hone Hmany]%andb_true_iff. split.
  - intros Hc. by rewrite Hc in Hone.
  - intros Hm r els ->. by rewrite Hm in Hmany.
Qed.

Lemma hydratedb_correct w : hydratedb w = true → hydrated w.
Proof.
  unfold hydratedb. rewrite forallb_forall.
  intros Hall e o prop He Hprop.
  specialize (Hall (e, o)). rewrite forallb_forall in Hall.
  apply hydrated_valueb_correct, Hall.
  - apply list_elem_of_In. by apply elem_of_map_to_list.
  - by apply list_elem_of_In.
Qed.

Lemma hydrated_ents w w' :
  ents w' = ents w → hydrated w → hydrated w'.
Proof.
  intros He Hh e o prop Ho Hprop. rewrite He in Ho.
  specialize (Hh e o prop Ho Hprop).
  unfold unwrapReference, field in *. by rewrite He.
Qed.

Lemma unvisited_same visited w w' :
  ents w' = ents w → array w' visited = array w visited →
  unvisited visited w' = unvisited visited w.
Proof. intros He Ha. unfold unvisited. by rewrite He, Ha. Qed.

(** [persist] returns; its cascade visits no entity twice, and the
    entity is off the remove stack unless the call was a no-op. *)
Lemma persist_returns visited fuel e check w :
  2 * unvisited visited w + 4 ≤ fuel →
  hydrated w → NoDup (array w visited) →
  ∃ w', persist fuel e visited check w = Return w'
        ∧ cascaded PERSIST visited w w'
        ∧ NoDup (array w' visited)
        ∧ ((e ∉ persistStack w) → check = false → NoDup (removeStack w) →
           (e ∉ removeStack w') ∧ e ∈ persistStack w').
Proof.
  intros Hfuel Hh Hnd. destruct fuel as [|fuel]; [lia|]. cbn [persist].
  unfold includes.
  destruct (decide (e ∈ persistStack w)) as [Hin|Hnin].
  { rewrite bool_decide_eq_true_2 by done. exists w.
    split; [done|]. split; [apply cascaded_refl|]. split; [done|]. done. }
  rewrite bool_decide_eq_false_2 by done.
  destruct (check && bool_decide (e ∈ removeStack w)) eqn:Hcheck.
  { exists w. split; [done|]. split; [apply cascaded_refl|]. split; [done|].
    intros _ ->. done. }
  match goal with
  | |- ∃ w', cascade fuel e PERSIST visited check ?x = _ ∧ _ =>
      set (w1 := x)
  end.
  assert (ents w1 = ents w) as He1 by (unfold w1; by destruct (negb _)).
  assert (array w1 visited = array w visited) as Ha1
    by (unfold w1; by destruct (negb _)).
  assert (cascaded PERSIST visited w w1) as Hc1.
  { apply cascaded_same_array; [by rewrite He1| |done|].
    - unfold w1; by destruct (negb _).
    - unfold w1. destruct (negb _); simpl;
        (split; [apply cleanUpStack_subseteq|set_solver]). }
  destruct (cascade_returns PERSIST visited (unvisited visited w) fuel e check
              w1) as (w' & Hw' & Hc & Hnd' & _).
  - lia.
  - by eapply hydrated_ents.
  - by rewrite Ha1.
  - by rewrite (unvisited_same visited w w1).
  - exists w'. split; [done|]. split; [by eapply cascaded_trans|].
    split; [done|]. intros _ _ Hndr.
    destruct Hc as (_ & _ & _ & Hrs & Hps). split.
    + intros Hin. apply Hrs in Hin. revert Hin. unfold w1.
      destruct (negb _); simpl; by apply cleanUpStack_NoDup.
    + apply Hps. unfold w1. destruct (negb _); simpl; set_solver.
Qed.

(** [remove] returns; unless the entity was on the remove stack already,
    it is off the persist stack and its identity, placeholder and snapshot
    are gone. *)
Lemma remove_returns visited fuel e w :
  2 * unvisited visited w + 4 ≤ fuel →
  hydrated w → NoDup (array w visited) →
  ∃ w', remove fuel e visited w = Return w'
        ∧ cascaded REMOVE visited w w'
        ∧ NoDup (array w' visited)
        ∧ ((e ∉ removeStack w) → NoDup (persistStack w) →
           (e ∉ persistStack w')
           ∧ dict_get (identityKey w e) (identityMap w') = None
           ∧ identifierMap w' !! __uuid (wrap w e) = None
           ∧ originalEntityData w' !! __uuid (wrap w e) = None
           ∧ (hasPrimaryKey w e = true → e ∈ removeStack w')).
Proof.
  intros Hfuel Hh Hnd. destruct fuel as [|fuel]; [lia|]. cbn [remove].
  unfold includes.
  destruct (decide (e ∈ removeStack w)) as [Hin|Hnin].
  { rewrite bool_decide_eq_true_2 by done. exists w.
    split; [done|]. split; [apply cascaded_refl|]. split; [done|]. done. }
  rewrite bool_decide_eq_false_2 by done.
  match goal with
  | |- ∃ w', cascade fuel e REMOVE visited false ?x = _ ∧ _ =>
      set (w1 := x)
  end.
  assert (ents w1 = ents w) as He1
    by (unfold w1; by destruct (hasPrimaryKey w e)).
  assert (array w1 visited = array w visited) as Ha1
    by (unfold w1; by destruct (hasPrimaryKey w e)).
  assert (cascaded REMOVE visited w w1) as Hc1.
  { apply cascaded_same_array; [by rewrite He1| |done|].
    - unfold w1; by destruct (hasPrimaryKey w e).
    - unfold w1. destruct (hasPrimaryKey w e); simpl.
      all: split; [apply cleanUpStack_subseteq|].
      all: split; [set_solver|].
      all: split; [intros k Hk; by apply dict_get_delete_None|].
      all: split; intros k Hk; rewrite lookup_delete_None; auto. }
  destruct (cascade_returns REMOVE visited (unvisited visited w) fuel e false
              w1) as (w' & Hw' & Hc & Hnd' & _).
  - lia.
  - by eapply hydrated_ents.
  - by rewrite Ha1.
  - by rewrite (unvisited_same visited w w1).
  - exists w'. split; [done|]. split; [by eapply cascaded_trans|].
    split; [done|]. intros _ Hndp.
    destruct Hc as (_ & _ & _ & Hps & Hrs & Hid & Hpl & Hsn).
    assert (wrap w1 e = wrap w e) as Hwrap by (unfold wrap; by rewrite He1).
    split; [|split; [|split; [|split]]].
    + intros Hin. apply Hps in Hin. revert Hin. unfold w1.
      destruct (hasPrimaryKey w e); simpl; by apply cleanUpStack_NoDup.
    + apply Hid. unfold w1. destruct (hasPrimaryKey w e); simpl.
      all: replace (identityKey _ e) with (identityKey w e) by done.
      all: apply dict_get_delete_eq.
    + apply Hpl. unfold w1. destruct (hasPrimaryKey w e); simpl.
      all: replace (wrap _ e) with (wrap w e) by done.
      all: by rewrite lookup_delete_eq.
    + apply Hsn. unfold w1. destruct (hasPrimaryKey w e); simpl.
      all: replace (wrap _ e) with (wrap w e) by done.
      all: by rewrite lookup_delete_eq.
    + intros Hpk. apply Hrs. unfold w1. rewrite Hpk. simpl. set_solver.
Qed.

Lemma merge_returns visited fuel e mergeData w :
  2 * unvisited visited w + 4 ≤ fuel →
  hydrated w → NoDup (array w visited) →
  ∃ w', merge fuel e visited mergeData w = Return w'
        ∧ cascaded MERGE visited w w'
        ∧ NoDup (array w' visited).
Proof.
  intros Hfuel Hh Hnd. destruct fuel as [|fuel]; [lia|]. cbn [merge].
  assert (cascaded MERGE visited w (define___em e w)) as Hc0.
  { apply cascaded_same_array; try done. intros e0. apply ents_define___em. }
  destruct (negb (hasPrimaryKey (define___em e w) e)).
  { eexists. split; [done|]. split; [done|]. done. }
  match goal with
  | |- ∃ w', cascade fuel e MERGE visited false ?x = _ ∧ _ =>
      set (w1 := x)
  end.
  assert (cascaded MERGE visited w w1) as Hc1.
  { apply cascaded_same_array; try done.
    - intros e0. unfold w1. destruct mergeData; apply ents_define___em.
    - unfold w1. by destruct mergeData.
    - unfold w1. by destruct mergeData. }
  destruct (cascade_returns MERGE visited (unvisited visited w) fuel e false
              w1) as (w' & Hw' & Hc & Hnd' & _).
  - lia.
  - by eapply cascaded_hydrated.
  - destruct Hc1 as (_ & _ & [more Hm] & _).
    unfold w1 in *. by destruct mergeData.
  - apply (cascaded_unvisited _ _ _ _ Hc1).
  - exists w'. split; [done|]. split; [by eapply cascaded_trans|done].
Qed.

End EntryPoints.

Section CascadeProperties.
Context `{Collaborators}.

Lemma unvisited_new_array w :
  unvisited (next_ref w) (new_array w).2 = size (ents w).
Proof.
  unfold unvisited, new_array, array; simpl.
  rewrite lookup_insert_eq; simpl.
  rewrite difference_empty_L. apply size_dom.
Qed.

Lemma new_array_ready w :
  hydrated w →
  hydrated (new_array w).2 ∧ NoDup (array (new_array w).2 (next_ref w)).
Proof.
  intros Hh. split; [by eapply hydrated_ents|].
  unfold new_array, array; simpl. rewrite lookup_insert_eq. constructor.
Qed.

(** C8. On a hydrated object graph, cyclic or not: [cascade] on an
    entity that is in [visited] returns at once, changing nothing; and
    [cascade] returns for every bound on the call depth of at least twice
    the number of entities not yet visited, plus three.  It only appends
    to [visited], the root is in [visited] afterwards, and [visited] holds
    no entity twice: [cascade] pushes an entity right before it applies
    the operation to it, so it applies the operation at most once per
    entity in a pass.  The three entry points [persist], [remove] and
    [merge], each starting from a new [visited] array, return likewise. *)
Theorem cascade_terminates_visiting_once
    (type_ : Cascade) (root : Ent) (visited : nat) (check : bool)
    (w : World) :
  hydrated w →
  (root ∈ array w visited →
   ∀ fuel, cascade (S fuel) root type_ visited check w = Return w)
  ∧ (NoDup (array w visited) →
     ∀ fuel, 2 * unvisited visited w + 3 ≤ fuel →
     ∃ w', cascade fuel root type_ visited check w = Return w'
           ∧ NoDup (array w' visited)
           ∧ (∃ more, array w' visited = array w visited ++ more)
           ∧ root ∈ array w' visited)
  ∧ (∀ fuel, 2 * size (ents w) + 4 ≤ fuel →
     (∃ w', UnitOfWork_persist fuel root w = Return w'
            ∧ NoDup (array w' (next_ref w)))
     ∧ (∃ w', UnitOfWork_remove fuel root w = Return w'
              ∧ NoDup (array w' (next_ref w)))
     ∧ (∃ w', UnitOfWork_merge fuel root w = Return w'
              ∧ NoDup (array w' (next_ref w)))).
Proof.
  intros Hh. split; [|split].
  - intros Hin fuel. by apply cascade_visited.
  - intros Hnd fuel Hfuel.
    destruct (cascade_returns type_ visited (unvisited visited w) fuel root
                check w) as (w' & Hw' & Hc & Hnd' & Hroot); try done.
    exists w'. destruct Hc as (_ & _ & Hmore & _). done.
  - intros fuel Hfuel.
    destruct (new_array_ready w Hh) as [Hh0 Hnd0].
    pose proof (unvisited_new_array w) as Hu.
    split; [|split].
    + destruct (persist_returns (next_ref w) fuel root false (new_array w).2)
        as (w' & Hw' & _ & Hnd' & _); [lia|done|done|].
      by exists w'.
    + destruct (remove_returns (next_ref w) fuel root (new_array w).2)
        as (w' & Hw' & _ & Hnd' & _); [lia|done|done|].
      by exists w'.
    + destruct (merge_returns (next_ref w) fuel root true (new_array w).2)
        as (w' & Hw' & _ & Hnd'); [lia|done|done|].
      by exists w'.
Qed.

(** C5. [persist] of an entity on the persist stack and [remove] of an
    entity on the remove stack return the state they were called in; and
    when no entity sits on both stacks, [persist(entity)] returns with the
    entity on the persist stack and off the remove stack. *)
Theorem persist_remove_idempotent
    (entity : Ent) (visited : nat) (check : bool) (w : World) :
  (∀ fuel, entity ∈ persistStack w →
           persist (S fuel) entity visited check w = Return w)
  ∧ (∀ fuel, entity ∈ removeStack w →
             remove (S fuel) entity visited w = Return w)
  ∧ (hydrated w →
     NoDup (removeStack w) →
     (entity ∈ persistStack w → entity ∉ removeStack w) →
     ∀ fuel, 2 * size (ents w) + 4 ≤ fuel →
     ∃ w', UnitOfWork_persist fuel entity w = Return w'
           ∧ entity ∈ persistStack w'
           ∧ entity ∉ removeStack w').
Proof.
  split; [|split].
  - intros fuel Hin. cbn [persist]. unfold includes.
    by rewrite bool_decide_eq_true_2.
  - intros fuel Hin. cbn [remove]. unfold includes.
    by rewrite bool_decide_eq_true_2.
  - intros Hh Hnd Hdisj fuel Hfuel.
    destruct (new_array_ready w Hh) as [Hh0 Hnd0].
    pose proof (unvisited_new_array w) as Hu.
    destruct (persist_returns (next_ref w) fuel entity false (new_array w).2)
      as (w' & Hw' & Hc & _ & Hoff); [lia|done|done|].
    exists w'. split; [done|].
    destruct (decide (entity ∈ persistStack w)) as [Hin|Hnin].
    + destruct Hc as (_ & _ & _ & Hrs & Hps). split.
      * apply Hps. done.
      * intros Hr. apply Hrs in Hr. by apply Hdisj.
    + by destruct (Hoff Hnin eq_refl Hnd).
Qed.


End CascadeProperties.

Local Open Scope string_scope.
Local Open Scope list_scope.

Lemma cascade_terminates_visiting_once_witness :
  ∃ w', UnitOfWork_persist (H := press_collaborators) 20 3 press_world
        = Return w'
        ∧ NoDup (array w' 100).
Proof.
  destruct (cascade_terminates_visiting_once (H := press_collaborators)
              PERSIST 3 0 false press_world) as (_ & _ & Hentry).
  - apply hydratedb_correct. vm_compute. reflexivity.
  - destruct (Hentry 20) as [Hpersist _]; [vm_compute; lia|].
    exact Hpersist.
Defined.

Lemma persist_remove_idempotent_witness :
  ∃ w', UnitOfWork_persist (H := press_collaborators) 20 2 press_world
        = Return w'
        ∧ 2 ∈ persistStack w' ∧ 2 ∉ removeStack w'.
Proof.
  destruct (persist_remove_idempotent (H := press_collaborators) 2 0 false
              press_world) as (_ & _ & Hpersist).
  apply Hpersist.
  - apply hydratedb_correct. vm_compute. reflexivity.
  - apply (bool_decide_unpack _). vm_compute. reflexivity.
  - intros Hin. vm_compute in Hin. by apply elem_of_nil in Hin.
  - vm_compute. lia.
Defined.


Lemma self_referenced_collection_deferred_witness :
  ∃ w', processReference (H := circle_collaborators) 2 1 User_friends
          (VCollection 10) 50 circle_world = Return w'
        ∧ extraUpdates w' = [(1, "friends", VCollection 10)]
        ∧ field w' 1 "friends" = VCollection 100
        ∧ getItems w' 100 = Some [].
Proof.
  destruct (self_referenced_collection_deferred (H := circle_collaborators)
              0 1 User_friends 10
              (set_dirty true (set_items [1] (new_Collection 1 User_friends)))
              50 1 circle_world)
    as [(w' & Hw' & Hq & Hf & _ & Hi & _) _].
  - reflexivity.
  - vm_compute. reflexivity.
  - reflexivity.
  - reflexivity.
  - apply (bool_decide_unpack _). vm_compute. reflexivity.
  - vm_compute. reflexivity.
  - apply (bool_decide_unpack _). vm_compute. reflexivity.
  - vm_compute. by eexists.
  - vm_compute. reflexivity.
  - exists w'. split; [exact Hw'|]. split; [exact Hq|].
    split; [exact Hf|exact Hi].
Defined.

(** The whole discovery of user 1, started by [findNewEntities] with a new
    [visited] array: the collection is deferred and the insert of the
    user is computed once. *)
Example findNewEntities_defers_circle :
  ∃ w', with_new_array (findNewEntities (H := circle_collaborators) 5 1)
          circle_world = Return w'
        ∧ extraUpdates w' = [(1, "friends", VCollection 10)]
        ∧ length (changeSets w') = 1.
Proof. eexists. split; [vm_compute; reflexivity|]. by vm_compute. Qed.

(** ** The sort does not depend on the algorithm

    [Array.prototype.sort] leaves the algorithm to the engine.  Whatever
    it is, an array that holds the same change sets and that the
    comparison function accepts (it never puts [b] strictly before an
    earlier [a]) is the array [reorderChangeSets] computes here. *)

Section SortUnique.
Context `{Collaborators}.

Lemma sorted_perm_unique {A} (R : relation A) (l1 l2 : list A) :
  (∀ a b, a ∈ l1 → b ∈ l1 → R a b → R b a → a = b) →
  l1 ≡ₚ l2 → StronglySorted R l1 → StronglySorted R l2 → l1 = l2.
Proof.
  revert l2. induction l1 as [|a l1 IH]; intros l2 Hanti Hperm Hs1 Hs2.
  - by apply Permutation_nil_l in Hperm.
  - destruct l2 as [|b l2]; [by apply Permutation_nil_r in Hperm|].
    apply StronglySorted_inv in Hs1 as [Hs1 Ha].
    apply StronglySorted_inv in Hs2 as [Hs2 Hb].
    assert (a = b) as <-.
    { assert (a ∈ b :: l2) as Hin1 by (rewrite <- Hperm; set_solver).
      assert (b ∈ a :: l1) as Hin2 by (rewrite Hperm; set_solver).
      apply elem_of_cons in Hin1 as [->|Hin1]; [done|].
      apply elem_of_cons in Hin2 as [->|Hin2]; [done|].
      rewrite Forall_forall in Ha, Hb.
      apply Hanti; [set_solver|set_solver|by apply Ha|by apply Hb]. }
    f_equal. apply IH; [|by eapply Permutation_cons_inv|done|done].
    intros x y Hx Hy. apply Hanti; set_solver.
Qed.

Lemma StronglySorted_precedes {A} (R : relation A) (l : list A) :
  (∀ a b, precedes l a b → R a b) → StronglySorted R l.
Proof.
  induction l as [|x l IH]; intros Hp; constructor.
  - apply IH. intros a b (i & j & Hi & Hj & Hij). apply Hp.
    exists (S i), (S j). repeat split; [done|done|lia].
  - apply Forall_forall. intros y [j Hj]%list_elem_of_lookup_1.
    apply Hp. exists 0, (S j). repeat split; [done|lia].
Qed.

Lemma reorderChangeSets_any_sort (w : World) (sorted : list CsRef) :
  NoDup (changeSets w) →
  sorted ≡ₚ changeSets w →
  (∀ a b, precedes sorted a b →
          (changeSetCompare w (getCommitOrder w) (changeSets w) a b ≤ 0)%Z) →
  sorted = changeSets (reorderChangeSets w).
Proof.
  intros Hnd Hperm Hacc.
  apply (sorted_perm_unique
           (sorted_before w (getCommitOrder w) (changeSets w))).
  - intros a b Ha Hb Hab Hba. rewrite Hperm in Ha.
    apply (indexOf_inj (changeSets w)); [done|].
    unfold sorted_before, sortKey, lex_le in Hab, Hba.
    cbn [fst snd] in Hab, Hba. lia.
  - rewrite Hperm. symmetry. apply Array_sort_perm.
  - apply StronglySorted_precedes. intros a b Hp.
    by apply changeSetCompare_sortKey, Hacc.
  - apply reorderChangeSets_sorted.
Qed.

End SortUnique.

(** * Further properties of the unit of work and the collection *)

Local Close Scope string_scope.

(** ** Invariants a cascade keeps *)

Section CascadeInvariants.
Context `{Collaborators}.

Lemma for_each_keeps {A} (J : World → Prop) (body : A → World → Outcome)
    xs w w' :
  (∀ x w1 w2, x ∈ xs → J w1 → body x w1 = Return w2 → J w2) →
  J w → for_each xs body w = Return w' → J w'.
Proof.
  revert w. induction xs as [|x xs IH]; intros w Hbody HJ.
  - by intros [= <-].
  - rewrite for_each_cons.
    destruct (body x w) as [w1| |] eqn:Hx; simpl; [|done|done].
    apply IH.
    + intros y w2 w3 Hy. apply Hbody. set_solver.
    + eapply Hbody; [|exact HJ|exact Hx]. set_solver.
Qed.

Lemma persist_unfold fuel e visited check w :
  persist (S fuel) e visited check w =
    if includes e (persistStack w) then Return w
    else if check && includes e (removeStack w) then Return w
    else cascade fuel e PERSIST visited check (persist_step e w).
Proof. reflexivity. Qed.

Lemma remove_unfold fuel e visited w :
  remove (S fuel) e visited w =
    if includes e (removeStack w) then Return w
    else cascade fuel e REMOVE visited false (remove_step e w).
Proof. reflexivity. Qed.

Lemma merge_unfold fuel e visited mergeData w :
  merge (S fuel) e visited mergeData w =
    if negb (hasPrimaryKey (define___em e w) e) then Return (define___em e w)
    else cascade fuel e MERGE visited false (merge_step e mergeData w).
Proof. reflexivity. Qed.

Lemma same_graph_refl w : same_graph w w.
Proof. by intros e. Qed.

Lemma same_graph_trans w0 w1 w2 :
  same_graph w0 w1 → same_graph w1 w2 → same_graph w0 w2.
Proof. intros H1 H2 e. by rewrite H2, H1. Qed.

Lemma same_graph_ents w0 w w' :
  ents w' = ents w → same_graph w0 w → same_graph w0 w'.
Proof. intros He Hs e. rewrite He. apply Hs. Qed.

Lemma same_graph_define___em w0 w e :
  same_graph w0 w → same_graph w0 (define___em e w).
Proof. intros Hs e'. rewrite ents_define___em. apply Hs. Qed.

Lemma same_graph_wrap w0 w e :
  same_graph w0 w → set___em false (wrap w e) = set___em false (wrap w0 e).
Proof.
  intros Hs. specialize (Hs e). unfold wrap.
  destruct (ents w !! e), (ents w0 !! e); simpl in *; congruence.
Qed.

Lemma same_graph_className w0 w e :
  same_graph w0 w → className (wrap w e) = className (wrap w0 e).
Proof. intros Hs. by apply (same_graph_wrap _ _ e), set___em_eq in Hs as (? & _). Qed.

Lemma same_graph_identityKey w0 w e :
  same_graph w0 w → identityKey w e = identityKey w0 e.
Proof.
  intros Hs. apply (same_graph_wrap _ _ e), set___em_eq in Hs
    as (Hc & _ & _ & Hk & _).
  unfold identityKey. by rewrite Hc, Hk.
Qed.

Lemma same_graph_uuid w0 w e :
  same_graph w0 w → __uuid (wrap w e) = __uuid (wrap w0 e).
Proof. intros Hs. by apply (same_graph_wrap _ _ e), set___em_eq in Hs as (_ & ? & _). Qed.

Lemma same_graph_hasPrimaryKey w0 w e :
  same_graph w0 w → hasPrimaryKey w e = hasPrimaryKey w0 e.
Proof.
  intros Hs. apply (same_graph_wrap _ _ e), set___em_eq in Hs
    as (_ & _ & Hk & _).
  unfold hasPrimaryKey. by rewrite Hk.
Qed.

Lemma same_graph_field w0 w e key :
  same_graph w0 w → field w e key = field w0 e key.
Proof.
  intros Hs. specialize (Hs e). unfold field.
  destruct (ents w !! e) as [o'|], (ents w0 !! e) as [o|]; simpl in *;
    try done.
  apply (inj Some) in Hs. apply set___em_eq in Hs as (_ & _ & _ & _ & _ & ->).
  done.
Qed.

Lemma same_graph_hydrated w0 w :
  same_graph w0 w → hydrated w0 → hydrated w.
Proof.
  intros Hs Hh e o' prop Ho' Hprop.
  unfold unwrapReference. rewrite (same_graph_field w0 w) by done.
  pose proof (Hs e) as He. rewrite Ho' in He.
  destruct (ents w0 !! e) as [o|] eqn:Ho; simpl in He; [|done].
  apply (inj Some) in He. apply set___em_eq in He as (Hcn & _).
  apply (Hh e o prop Ho). by rewrite <- Hcn.
Qed.

Lemma same_graph_steps w0 w e :
  same_graph w0 w →
  same_graph w0 (persist_step e w) ∧ same_graph w0 (remove_step e w)
  ∧ ∀ mergeData, same_graph w0 (merge_step e mergeData w).
Proof.
  intros Hs. split; [|split].
  - eapply same_graph_ents; [|exact Hs]. unfold persist_step.
    by destruct (negb _).
  - eapply same_graph_ents; [|exact Hs]. unfold remove_step.
    by destruct (hasPrimaryKey _ _).
  - intros mergeData.
    eapply same_graph_ents; [|apply (same_graph_define___em w0 w e Hs)].
    unfold merge_step. by destruct mergeData.
Qed.

(** A cascade of kind [type_] on a hydrated graph keeps every invariant
    that survives a push on [visited] and the steps of the operation. *)
Lemma cascade_family_keeps (I : World → Prop) (type_ : Cascade)
    (visited : nat) (check : bool) (w0 : World) :
  hydrated w0 →
  (∀ e w, I w → I (array_push visited e w)) →
  operation_keeps I type_ check →
  ∀ fuel chk, (type_ = PERSIST → chk = check) →
    (∀ e w w', kept I w0 w →
       cascaded_operation fuel e type_ visited chk w = Return w' →
       kept I w0 w')
    ∧ (∀ e w w', kept I w0 w →
         cascade fuel e type_ visited chk w = Return w' → kept I w0 w')
    ∧ (∀ e prop w w', kept I w0 w →
         prop ∈ properties (metadata_get (className (wrap w e))) →
         cascadeReference fuel e prop type_ visited chk w = Return w' →
         kept I w0 w').
Proof.
  intros Hh Hpush Hop fuel.
  induction fuel as [|fuel IH]; intros chk Hchk.
  { split; [|split]; [|done|done].
    intros e w w' Hk. destruct type_; simpl; try done. by intros [= <-]. }
  destruct (IH chk Hchk) as (IHop & IHc & IHr).
  split; [|split].
  - (* the operation *)
    intros e w w' [HI Hs].
    destruct (same_graph_steps w0 w e Hs) as (Hsp & Hsr & Hsm).
    destruct type_; cbn [cascaded_operation].
    + rewrite persist_unfold. unfold includes at 1.
      destruct (decide (e ∈ persistStack w)) as [Hin|Hnin].
      { rewrite bool_decide_eq_true_2 by done. by intros [= <-]. }
      rewrite bool_decide_eq_false_2 by done.
      destruct (chk && includes e (removeStack w)) eqn:Hcheck;
        [by intros [= <-]|].
      apply IHc. split; [|done]. apply Hop; [done|done|].
      by rewrite <- (Hchk eq_refl).
    + rewrite merge_unfold.
      destruct (Hop e w HI) as [Hem Hstep].
      rewrite (same_graph_hasPrimaryKey w (define___em e w))
        by (apply same_graph_define___em, same_graph_refl).
      destruct (hasPrimaryKey w e) eqn:Hpk; cbn [negb].
      * destruct (IH false) as (_ & IHc' & _); [done|].
        apply IHc'. split; [by apply Hstep|apply Hsm].
      * intros [= <-]. split; [done|by apply same_graph_define___em].
    + rewrite remove_unfold. unfold includes.
      destruct (decide (e ∈ removeStack w)) as [Hin|Hnin].
      { rewrite bool_decide_eq_true_2 by done. by intros [= <-]. }
      rewrite bool_decide_eq_false_2 by done.
      destruct (IH false) as (_ & IHc' & _); [done|].
      apply IHc'. split; [by apply Hop|done].
    + by intros [= <-].
  - (* cascade *)
    intros e w w' [HI Hs]. rewrite cascade_unfold.
    destruct (includes e (array w visited)); [by intros [= <-]|].
    destruct (cascaded_operation fuel e type_ visited chk
                (array_push visited e w)) as [w2| |] eqn:Hw2;
      cbn [bind]; [|done|done].
    apply IHop in Hw2 as [HI2 Hs2]; [|split; [by apply Hpush|done]].
    apply (for_each_keeps (kept I w0)); [|done].
    intros prop w3 w4 Hprop [HI3 Hs3]. apply IHr; [done|].
    rewrite (same_graph_className w0 w3), <- (same_graph_className w0 w2)
      by done.
    by apply list_elem_of_filter in Hprop as [_ ?].
  - (* cascadeReference *)
    intros e prop w w' [HI Hs] Hprop. cbn [cascadeReference].
    pose proof (same_graph_hydrated w0 w Hs Hh) as Hhw.
    pose proof (hydrated_value_at w e prop Hhw Hprop) as Hv.
    rewrite (fixMissingReference_hydrated e prop w Hv). cbn [bind].
    destruct (negb (shouldCascade prop type_)); [by intros [= <-]|].
    destruct Hv as [Hone Hmany].
    destruct (isToOne prop && truthy (unwrapReference w e prop)) eqn:Hto.
    + specialize (Hone eq_refl).
      destruct (unwrapReference w e prop) as [| | | |e'| | |]; try done.
      by apply IHc.
    + destruct (unwrapReference w e prop) as [| | | | | |c|];
        try (by intros [= <-]).
      destruct (isToMany prop && Collection_isInitialized w c _);
        [|by intros [= <-]].
      apply (for_each_keeps (kept I w0)); [|done].
      intros item w3 w4 _ Hk3. by apply IHc.
Qed.

End CascadeInvariants.

(** ** The stacks and the identity registry *)

Section StackFacts.

Lemma cleanUpStack_sublist stack e : cleanUpStack stack e `sublist_of` stack.
Proof.
  assert (∀ n stack, length stack ≤ n →
            cleanUpStack stack e `sublist_of` stack) as Hn.
  { clear stack. intros n. induction n as [|n IH]; intros stack Hlen.
    - destruct stack; [constructor|simpl in Hlen; lia].
    - destruct stack as [|x rest]; simpl in *; [constructor|].
      destruct (decide (x = e)).
      + destruct rest as [|y rest]; [by repeat constructor|].
        apply sublist_cons, sublist_skip, IH. simpl in Hlen. lia.
      + apply sublist_skip, IH. lia. }
  by apply (Hn (length stack)).
Qed.

Lemma cleanUpStack_notin stack e : e ∉ stack → cleanUpStack stack e = stack.
Proof.
  induction stack as [|x rest IH]; simpl; [done|].
  intros Hnin. rewrite decide_False by set_solver.
  f_equal. apply IH. set_solver.
Qed.

(** The entities other than [entity] stay, in their order. *)
Lemma cleanUpStack_others stack e :
  filter (fun x => x ≠ e) (cleanUpStack stack e) = filter (fun x => x ≠ e) stack.
Proof.
  assert (∀ n stack, length stack ≤ n →
            filter (fun x => x ≠ e) (cleanUpStack stack e)
            = filter (fun x => x ≠ e) stack) as Hn.
  { clear stack. intros n. induction n as [|n IH]; intros stack Hlen.
    - destruct stack; [done|simpl in Hlen; lia].
    - destruct stack as [|x rest]; simpl in *; [done|].
      destruct (decide (x = e)) as [->|Hne].
      + rewrite (filter_cons_False _ e) by (by intros ?).
        destruct rest as [|y rest]; [done|].
        rewrite !filter_cons. rewrite IH by (simpl in Hlen; lia). done.
      + rewrite !filter_cons_True by done. f_equal. apply IH. lia. }
  by apply (Hn (length stack)).
Qed.

(** Without two occurrences in a row (so, without duplicates) every
    occurrence goes. *)
Lemma cleanUpStack_NoDup_filter stack e :
  NoDup stack → cleanUpStack stack e = filter (fun x => x ≠ e) stack.
Proof.
  induction stack as [|x rest IH]; simpl; [done|].
  intros [Hx Hnd]%NoDup_cons.
  destruct (decide (x = e)) as [->|Hne].
  - rewrite filter_cons_False by (by intros ?).
    assert (filter (fun x => x ≠ e) rest = rest) as ->.
    { clear IH Hnd. induction rest as [|y rest IH]; [done|].
      rewrite filter_cons_True by set_solver. f_equal. apply IH. set_solver. }
    destruct rest as [|y rest']; [done|].
    f_equal. apply cleanUpStack_notin. set_solver.
  - rewrite filter_cons_True by done. f_equal. by apply IH.
Qed.

Lemma dict_get_set {V} k k' (v : V) (d : list (string * V)) :
  dict_get k (dict_set k' v d) = if decide (k = k') then Some v else dict_get k d.
Proof.
  induction d as [|[k1 v1] d IH]; simpl.
  - by destruct (decide (k = k')).
  - destruct (decide (k' = k1)) as [->|Hne]; simpl.
    + by destruct (decide (k = k1)).
    + destruct (decide (k = k1)) as [->|Hne1].
      * by rewrite decide_False by done.
      * exact IH.
Qed.

Lemma dict_get_delete_Some {V} k k' (v : V) (d : list (string * V)) :
  dict_get k (dict_delete k' d) = Some v → dict_get k d = Some v.
Proof.
  unfold dict_delete. induction d as [|[k1 v1] d IH]; simpl; [done|].
  rewrite filter_cons. simpl.
  destruct (decide (k1 ≠ k')) as [Hne|Heq]; simpl.
  - destruct (decide (k = k1)); [done|exact IH].
  - intros Hd. destruct (decide (k = k1)) as [->|]; [|by apply IH].
    apply dec_stable in Heq. subst k'.
    pose proof (dict_get_delete_eq k1 d) as Hnone. unfold dict_delete in Hnone.
    congruence.
Qed.

Lemma dict_get_delete_ne {V} k k' (d : list (string * V)) :
  k ≠ k' → dict_get k (dict_delete k' d) = dict_get k d.
Proof.
  intros Hne. unfold dict_delete.
  induction d as [|[k1 v1] d IH]; simpl; [done|].
  rewrite filter_cons. simpl.
  destruct (decide (k1 ≠ k')) as [Hne1|Heq]; simpl.
  - by rewrite IH.
  - apply dec_stable in Heq. subst k1. by rewrite decide_False by done.
Qed.

End StackFacts.

Section EntryInvariants.
Context `{Collaborators}.

Lemma persist_keeps (I : World → Prop) fuel e visited check w w' :
  hydrated w →
  (∀ e w, I w → I (array_push visited e w)) →
  operation_keeps I PERSIST check →
  I w → persist fuel e visited check w = Return w' → I w'.
Proof.
  intros Hh Hpush Hop HI Hw'.
  destruct (cascade_family_keeps I PERSIST visited check w Hh Hpush Hop
              fuel check) as (Hk & _); [done|].
  apply (Hk e w w'); [split; [done|apply same_graph_refl]|done].
Qed.

Lemma remove_keeps (I : World → Prop) fuel e visited w w' :
  hydrated w →
  (∀ e w, I w → I (array_push visited e w)) →
  operation_keeps I REMOVE false →
  I w → remove fuel e visited w = Return w' → I w'.
Proof.
  intros Hh Hpush Hop HI Hw'.
  destruct (cascade_family_keeps I REMOVE visited false w Hh Hpush Hop
              fuel false) as (Hk & _); [done|].
  apply (Hk e w w'); [split; [done|apply same_graph_refl]|done].
Qed.

Lemma cascade_keeps (I : World → Prop) type_ fuel e visited check w w' :
  hydrated w →
  (∀ e w, I w → I (array_push visited e w)) →
  operation_keeps I type_ check →
  I w → cascade fuel e type_ visited check w = Return w' → I w'.
Proof.
  intros Hh Hpush Hop HI Hw'.
  destruct (cascade_family_keeps I type_ visited check w Hh Hpush Hop
              fuel check) as (_ & Hk & _); [done|].
  apply (Hk e w w'); [split; [done|apply same_graph_refl]|done].
Qed.

Lemma hydrated_merge_step e mergeData w :
  hydrated w → hydrated (merge_step e mergeData w).
Proof.
  apply same_graph_hydrated.
  by apply (same_graph_steps w w e (same_graph_refl w)).
Qed.

Lemma merge_keeps (I : World → Prop) fuel e visited mergeData w w' :
  hydrated w →
  (∀ e w, I w → I (array_push visited e w)) →
  operation_keeps I MERGE false →
  I w → merge fuel e visited mergeData w = Return w' → I w'.
Proof.
  intros Hh Hpush Hop HI.
  destruct fuel as [|fuel]; [done|]. rewrite merge_unfold.
  destruct (Hop e w HI) as [Hem Hstep].
  rewrite (same_graph_hasPrimaryKey w (define___em e w))
    by (apply same_graph_define___em, same_graph_refl).
  destruct (hasPrimaryKey w e) eqn:Hpk; cbn [negb].
  - apply (cascade_keeps I MERGE); try done.
    + by apply hydrated_merge_step.
    + by apply Hstep.
  - by intros [= <-].
Qed.

(** The three entry points return, and keep every invariant that does not
    depend on the [visited] arrays and survives the steps of the three
    operations. *)
Lemma entry_points_keep (I : World → Prop) (e : Ent) (w : World) :
  hydrated w → I w →
  (∀ v e w, I w → I (array_push v e w)) →
  (∀ w, I w → I (new_array w).2) →
  (∀ type_, operation_keeps I type_ false) →
  ∀ fuel, 2 * size (ents w) + 4 ≤ fuel →
    (∃ w', UnitOfWork_persist fuel e w = Return w' ∧ I w')
    ∧ (∃ w', UnitOfWork_remove fuel e w = Return w' ∧ I w')
    ∧ (∃ w', UnitOfWork_merge fuel e w = Return w' ∧ I w').
Proof.
  intros Hh HI Hpush Hnew Hop fuel Hfuel.
  destruct (new_array_ready w Hh) as [Hh0 Hnd0].
  pose proof (unvisited_new_array w) as Hu.
  split; [|split].
  - destruct (persist_returns (next_ref w) fuel e false (new_array w).2)
      as (w' & Hw' & _); [lia|done|done|].
    exists w'. split; [done|].
    eapply (persist_keeps I); [exact Hh0|apply Hpush|apply (Hop PERSIST)| |done].
    by apply Hnew.
  - destruct (remove_returns (next_ref w) fuel e (new_array w).2)
      as (w' & Hw' & _); [lia|done|done|].
    exists w'. split; [done|].
    eapply (remove_keeps I); [exact Hh0|apply Hpush|apply (Hop REMOVE)| |done].
    by apply Hnew.
  - destruct (merge_returns (next_ref w) fuel e true (new_array w).2)
      as (w' & Hw' & _); [lia|done|done|].
    exists w'. split; [done|].
    eapply (merge_keeps I); [exact Hh0|apply Hpush|apply (Hop MERGE)| |done].
    by apply Hnew.
Qed.

Lemma stacks_wf_operation type_ check : operation_keeps stacks_wf type_ check.
Proof.
  destruct type_; cbn [operation_keeps]; [| | |done].
  - intros e w (Hp & Hr & Hd) Hnin _. unfold persist_step.
    assert (∀ w1, persistStack w1 = persistStack w →
                  removeStack w1 = removeStack w →
                  stacks_wf
                    (set_removeStack
                       (cleanUpStack
                          (removeStack
                             (set_persistStack (persistStack w1 ++ [e]) w1)) e)
                       (set_persistStack (persistStack w1 ++ [e]) w1))) as Hgo.
    { intros w1 Hp1 Hr1. unfold stacks_wf; simpl. rewrite Hp1, Hr1.
      split; [|split].
      - apply NoDup_app. split; [done|]. split; [set_solver|].
        apply NoDup_singleton.
      - eapply sublist_NoDup; [exact Hr|apply cleanUpStack_sublist].
      - intros x [Hx|Hx]%elem_of_app Hin.
        + apply (Hd x Hx). by apply (cleanUpStack_subseteq (removeStack w) e).
        + apply list_elem_of_singleton in Hx as ->.
          by apply (cleanUpStack_NoDup (removeStack w) e). }
    destruct (negb _); by apply Hgo.
  - intros e w (Hp & Hr & Hd). split; [done|]. intros _ mergeData.
    unfold merge_step, stacks_wf. by destruct mergeData.
  - intros e w (Hp & Hr & Hd) Hnin. unfold remove_step.
    assert (∀ w1, persistStack w1 = persistStack w →
                  (removeStack w1 = removeStack w
                   ∨ removeStack w1 = removeStack w ++ [e]) →
                  stacks_wf
                    (unsetIdentity e
                       (set_persistStack (cleanUpStack (persistStack w1) e) w1)))
      as Hgo.
    { intros w1 Hp1 Hr1. unfold stacks_wf; simpl. rewrite Hp1.
      split; [|split].
      - eapply sublist_NoDup; [exact Hp|apply cleanUpStack_sublist].
      - destruct Hr1 as [->| ->]; [done|].
        apply NoDup_app. split; [done|]. split; [set_solver|].
        apply NoDup_singleton.
      - intros x Hx.
        assert (x ≠ e) as Hne.
        { intros ->. by apply (cleanUpStack_NoDup (persistStack w) e). }
        apply (cleanUpStack_subseteq (persistStack w) e) in Hx.
        specialize (Hd x Hx). destruct Hr1 as [->| ->]; set_solver. }
    destruct (hasPrimaryKey w e); apply Hgo; simpl; auto.
Qed.

(** X1. On a hydrated graph, [persist], [remove] and [merge] return and
    keep the persist stack and the remove stack free of duplicates and
    disjoint. *)
Theorem stacks_stay_well_formed (e : Ent) (w : World) :
  hydrated w → stacks_wf w →
  ∀ fuel, 2 * size (ents w) + 4 ≤ fuel →
    (∃ w', UnitOfWork_persist fuel e w = Return w' ∧ stacks_wf w')
    ∧ (∃ w', UnitOfWork_remove fuel e w = Return w' ∧ stacks_wf w')
    ∧ (∃ w', UnitOfWork_merge fuel e w = Return w' ∧ stacks_wf w').
Proof.
  intros Hh Hwf. apply (entry_points_keep stacks_wf e w Hh Hwf).
  - by intros v e' w1 Hwf1.
  - by intros w1 Hwf1.
  - intros type_. apply stacks_wf_operation.
Qed.

End EntryInvariants.

Section RegistryInvariants.
Context `{Collaborators}.

Lemma identityKey_ents w w' e :
  ents w' = ents w → identityKey w' e = identityKey w e.
Proof. intros He. unfold identityKey, wrap. by rewrite He. Qed.

Lemma identityKey_define___em w e e' :
  identityKey (define___em e w) e' = identityKey w e'.
Proof.
  apply same_graph_identityKey, same_graph_define___em, same_graph_refl.
Qed.

Lemma registry_sound_operation type_ check :
  operation_keeps registry_sound type_ check.
Proof.
  destruct type_; cbn [operation_keeps]; [| | |done].
  - intros e w Hs _ _ k e' Hget.
    rewrite (identityKey_ents w) by (unfold persist_step; by destruct (negb _)).
    apply Hs. revert Hget. unfold persist_step. by destruct (negb _).
  - intros e w Hs.
    assert (registry_sound (define___em e w)) as Hem.
    { intros k e' Hget. rewrite identityKey_define___em. by apply Hs. }
    split; [done|]. intros _ mergeData k e' Hget.
    assert (identityKey (merge_step e mergeData w) e'
            = identityKey (define___em e w) e') as ->.
    { apply identityKey_ents. unfold merge_step. by destruct mergeData. }
    assert (dict_get k (dict_set (identityKey (define___em e w) e) e
                          (identityMap w)) = Some e') as Hget'.
    { revert Hget. unfold merge_step. by destruct mergeData. }
    rewrite dict_get_set in Hget'.
    destruct (decide (k = identityKey (define___em e w) e)) as [->|Hne].
    + by injection Hget' as <-.
    + by apply Hem.
  - intros e w Hs _ k e' Hget.
    rewrite (identityKey_ents w)
      by (unfold remove_step; by destruct (hasPrimaryKey _ _)).
    apply Hs.
    assert (dict_get k (dict_delete (identityKey w e) (identityMap w))
            = Some e') as Hget'.
    { revert Hget. unfold remove_step. by destruct (hasPrimaryKey _ _). }
    by apply dict_get_delete_Some in Hget'.
Qed.

(** X2. On a hydrated graph, [persist], [remove] and [merge] return and
    keep the identity map sound: whatever [getById] finds under a key is
    an entity whose own type name and serialized primary key make up that
    key. *)
Theorem registry_stays_sound (e : Ent) (w : World) :
  hydrated w → registry_sound w →
  ∀ fuel, 2 * size (ents w) + 4 ≤ fuel →
    (∃ w', UnitOfWork_persist fuel e w = Return w' ∧ registry_sound w')
    ∧ (∃ w', UnitOfWork_remove fuel e w = Return w' ∧ registry_sound w')
    ∧ (∃ w', UnitOfWork_merge fuel e w = Return w' ∧ registry_sound w').
Proof.
  intros Hh Hs. apply (entry_points_keep registry_sound e w Hh Hs).
  - intros v e' w1 Hs1 k e1 Hget. rewrite (identityKey_ents w1) by done.
    by apply Hs1.
  - intros w1 Hs1 k e1 Hget. rewrite (identityKey_ents w1) by done.
    by apply Hs1.
  - intros type_. apply registry_sound_operation.
Qed.

Lemma registered_operation e key check :
  operation_keeps (registered e key) MERGE check.
Proof.
  intros e1 w [Hget Huniq].
  assert (∀ w1, same_graph w w1 →
            ∀ e', hasPrimaryKey w1 e' = true → identityKey w1 e' = key → e' = e)
    as Hu.
  { intros w1 Hs e' Hpk Hk. apply Huniq.
    - by rewrite <- (same_graph_hasPrimaryKey w w1).
    - by rewrite <- (same_graph_identityKey w w1). }
  split.
  - split; [done|]. apply Hu, same_graph_define___em, same_graph_refl.
  - intros Hpk mergeData. split.
    + assert (dict_get key (dict_set (identityKey (define___em e1 w) e1) e1
                              (identityMap w)) = Some e) as Hgoal.
      { rewrite dict_get_set. destruct (decide _) as [Heq|]; [|done].
        f_equal. apply Huniq; [done|].
        by rewrite Heq, identityKey_define___em. }
      unfold merge_step. by destruct mergeData.
    + apply Hu. by apply (same_graph_steps w w e1 (same_graph_refl w)).
Qed.

Lemma snapshotted_operation uuid check :
  operation_keeps (snapshotted uuid) MERGE check.
Proof.
  intros e1 w Hsn. split; [done|]. intros _ mergeData.
  unfold merge_step, snapshotted. destruct mergeData; simpl; [|done].
  rewrite lookup_insert. by destruct (decide _).
Qed.

(** X3. Round trip of [merge] and [getById]. On a hydrated graph where
    no other entity with a primary key has the identity key of [e],
    [merge(e)] of an entity with a primary key returns; afterwards
    [getById] with the type name of [e] and its primary key finds [e], and
    [e] has a baseline snapshot. *)
Theorem merge_then_getById (e : Ent) (w : World) :
  hydrated w →
  hasPrimaryKey w e = true →
  (∀ e', hasPrimaryKey w e' = true → identityKey w e' = identityKey w e →
         e' = e) →
  ∀ fuel, 2 * size (ents w) + 4 ≤ fuel →
  ∃ w', UnitOfWork_merge fuel e w = Return w'
        ∧ (∀ id, getPrimaryKeyHash id = __serializedPrimaryKey (wrap w e) →
                 getById w' (className (wrap w e)) id = Some e)
        ∧ is_Some (originalEntityData w' !! __uuid (wrap w e)).
Proof.
  intros Hh Hpk Huniq fuel Hfuel.
  destruct (new_array_ready w Hh) as [Hh0 Hnd0].
  pose proof (unvisited_new_array w) as Hu.
  destruct (merge_returns (next_ref w) fuel e true (new_array w).2)
    as (w' & Hw' & _); [lia|done|done|].
  exists w'. split; [done|].
  destruct fuel as [|fuel]; [done|]. rewrite merge_unfold in Hw'.
  set (w0 := (new_array w).2) in *.
  assert (same_graph w w0) as Hs0 by done.
  assert (same_graph w (merge_step e true w0)) as Hs1.
  { eapply same_graph_trans; [exact Hs0|].
    by apply (same_graph_steps w0 w0 e (same_graph_refl w0)). }
  rewrite (same_graph_hasPrimaryKey w (define___em e w0)) in Hw'
    by (by apply same_graph_define___em).
  rewrite Hpk in Hw'. cbn [negb] in Hw'.
  assert (identityKey (define___em e w0) e = identityKey w e) as Hkey
    by (by rewrite identityKey_define___em).
  assert (registered e (identityKey w e) (merge_step e true w0)
          ∧ snapshotted (__uuid (wrap w e)) (merge_step e true w0))
    as [Hreg Hsnap].
  { split; [split|].
    - unfold merge_step; simpl. rewrite dict_get_set, Hkey.
      by rewrite decide_True.
    - intros e' Hpk' Hk'. apply Huniq.
      + by rewrite <- (same_graph_hasPrimaryKey w (merge_step e true w0)).
      + by rewrite <- (same_graph_identityKey w (merge_step e true w0)).
    - unfold snapshotted, merge_step. cbv zeta.
      match goal with
      | |- context [__uuid (wrap ?x e)] =>
          rewrite (same_graph_uuid w x e) by (by apply same_graph_define___em)
      end.
      cbn [originalEntityData set_originalEntityData].
      by rewrite lookup_insert_eq. }
  split.
  - intros id Hid. unfold getById. rewrite Hid.
    eapply (cascade_keeps (registered e (identityKey w e)) MERGE) in Hw'
      as [Hget _]; try done.
    + by apply hydrated_merge_step.
    + apply registered_operation.
  - eapply (cascade_keeps (snapshotted (__uuid (wrap w e))) MERGE) in Hw';
      try done.
    + by apply hydrated_merge_step.
    + apply snapshotted_operation.
Qed.

End RegistryInvariants.

Section Frames.
Context `{Collaborators}.

(** [persist(entity, [], check)]: it returns, and keeps what its own
    steps keep. *)
Lemma persist_entry_keeps (I : World → Prop) (e : Ent) (check : bool)
    (w : World) :
  hydrated w → I (new_array w).2 →
  (∀ v e w, I w → I (array_push v e w)) →
  operation_keeps I PERSIST check →
  ∀ fuel, 2 * size (ents w) + 4 ≤ fuel →
  ∃ w', with_new_array (fun visited => persist fuel e visited check) w
        = Return w' ∧ I w'.
Proof.
  intros Hh HI Hpush Hop fuel Hfuel.
  destruct (new_array_ready w Hh) as [Hh0 Hnd0].
  pose proof (unvisited_new_array w) as Hu.
  destruct (persist_returns (next_ref w) fuel e check (new_array w).2)
    as (w' & Hw' & _); [lia|done|done|].
  exists w'. split; [done|].
  by eapply (persist_keeps I); [exact Hh0|apply Hpush|apply Hop|exact HI|].
Qed.

Lemma remove_entry_keeps (I : World → Prop) (e : Ent) (w : World) :
  hydrated w → I (new_array w).2 →
  (∀ v e w, I w → I (array_push v e w)) →
  operation_keeps I REMOVE false →
  ∀ fuel, 2 * size (ents w) + 4 ≤ fuel →
  ∃ w', UnitOfWork_remove fuel e w = Return w' ∧ I w'.
Proof.
  intros Hh HI Hpush Hop fuel Hfuel.
  destruct (new_array_ready w Hh) as [Hh0 Hnd0].
  pose proof (unvisited_new_array w) as Hu.
  destruct (remove_returns (next_ref w) fuel e (new_array w).2)
    as (w' & Hw' & _); [lia|done|done|].
  exists w'. split; [done|].
  by eapply (remove_keeps I); [exact Hh0|apply Hpush|apply Hop|exact HI|].
Qed.

Lemma merge_entry_keeps (I : World → Prop) (e : Ent) (mergeData : bool)
    (w : World) :
  hydrated w → I (new_array w).2 →
  (∀ v e w, I w → I (array_push v e w)) →
  operation_keeps I MERGE false →
  ∀ fuel, 2 * size (ents w) + 4 ≤ fuel →
  ∃ w', with_new_array (fun visited => merge fuel e visited mergeData) w
        = Return w' ∧ I w'.
Proof.
  intros Hh HI Hpush Hop fuel Hfuel.
  destruct (new_array_ready w Hh) as [Hh0 Hnd0].
  pose proof (unvisited_new_array w) as Hu.
  destruct (merge_returns (next_ref w) fuel e mergeData (new_array w).2)
    as (w' & Hw' & _); [lia|done|done|].
  exists w'. split; [done|].
  by eapply (merge_keeps I); [exact Hh0|apply Hpush|apply Hop|exact HI|].
Qed.

Lemma untouched_operation w0 type_ check :
  operation_keeps (untouched_by_cascade w0) type_ check.
Proof.
  destruct type_; cbn [operation_keeps]; [| | |done].
  - intros e w (Ho & Hcs & Hcu & Hx & Hc & Hh & Hs) _ _.
    unfold persist_step, untouched_by_cascade.
    destruct (negb _); simpl; repeat split; done.
  - intros e w (Ho & Hcs & Hcu & Hx & Hc & Hh & Hs). split.
    + repeat split; try done. by apply same_graph_define___em.
    + intros _ mergeData. unfold merge_step, untouched_by_cascade.
      destruct mergeData; simpl; repeat split; try done.
      all: by apply same_graph_define___em.
  - intros e w (Ho & Hcs & Hcu & Hx & Hc & Hh & Hs) _.
    unfold remove_step, untouched_by_cascade.
    destruct (hasPrimaryKey _ _); simpl; repeat split; done.
Qed.

Lemma untouched_start w : untouched_by_cascade w (new_array w).2.
Proof. repeat split. Qed.

Lemma untouched_push w0 v e w :
  untouched_by_cascade w0 w → untouched_by_cascade w0 (array_push v e w).
Proof. intros (? & ? & ? & ? & ? & ? & ?). repeat split; done. Qed.

(** X4. On a hydrated graph, [persist], [remove] and [merge] return having
    produced no change set and no collection or extra update, and having
    left the orphan-removal stack, every collection and every field of
    every entity as they were.  Moreover [persist] leaves the identity map
    and the baseline snapshots alone, and [merge] leaves the persist and
    remove stacks and the identifier placeholders alone. *)
Theorem entry_points_frame (e : Ent) (w : World) :
  hydrated w →
  ∀ fuel, 2 * size (ents w) + 4 ≤ fuel →
    (∃ w', UnitOfWork_persist fuel e w = Return w'
           ∧ untouched_by_cascade w w'
           ∧ identityMap w' = identityMap w
           ∧ originalEntityData w' = originalEntityData w)
    ∧ (∃ w', UnitOfWork_remove fuel e w = Return w'
             ∧ untouched_by_cascade w w')
    ∧ (∃ w', UnitOfWork_merge fuel e w = Return w'
             ∧ untouched_by_cascade w w'
             ∧ persistStack w' = persistStack w
             ∧ removeStack w' = removeStack w
             ∧ identifierMap w' = identifierMap w).
Proof.
  intros Hh fuel Hfuel. split; [|split].
  - destruct (persist_entry_keeps
                (fun w' => untouched_by_cascade w w'
                           ∧ identityMap w' = identityMap w
                           ∧ originalEntityData w' = originalEntityData w)
                e false w Hh) with (fuel := fuel) as (w' & Hw' & HI);
      [| | |done|by exists w'].
    + split; [apply untouched_start|done].
    + intros v e1 w1 (Hu & Hi & Ho). split; [by apply untouched_push|done].
    + intros e1 w1 (Hu & Hi & Ho) Hnin Hchk. split; [|split].
      * by apply (untouched_operation w PERSIST false).
      * unfold persist_step. by destruct (negb _).
      * unfold persist_step. by destruct (negb _).
  - destruct (remove_entry_keeps (untouched_by_cascade w) e w Hh)
      with (fuel := fuel) as (w' & Hw' & HI); [| | |done|by exists w'].
    + apply untouched_start.
    + intros v e1 w1. apply untouched_push.
    + apply untouched_operation.
  - destruct (merge_entry_keeps
                (fun w' => untouched_by_cascade w w'
                           ∧ persistStack w' = persistStack w
                           ∧ removeStack w' = removeStack w
                           ∧ identifierMap w' = identifierMap w)
                e true w Hh) with (fuel := fuel) as (w' & Hw' & HI);
      [| | |done|by exists w'].
    + split; [apply untouched_start|done].
    + intros v e1 w1 (Hu & Hp). split; [by apply untouched_push|done].
    + intros e1 w1 (Hu & Hp & Hr & Hi).
      destruct (untouched_operation w MERGE false e1 w1 Hu) as [Hem Hstep].
      split; [done|]. intros Hpk mergeData. split; [by apply Hstep|].
      unfold merge_step. by destruct mergeData.
Qed.

(** X5. [persist(entity, [], true)], the call [computeChangeSets] makes
    for every managed entity, returns on a hydrated graph without changing
    the remove stack, and puts no entity that is on the remove stack onto
    the persist stack. *)
Theorem persist_checked_spares_removals (e : Ent) (w : World) :
  hydrated w →
  ∀ fuel, 2 * size (ents w) + 4 ≤ fuel →
  ∃ w', with_new_array (fun visited => persist fuel e visited true) w
        = Return w'
        ∧ removeStack w' = removeStack w
        ∧ ∀ x, x ∈ persistStack w' → x ∈ persistStack w ∨ x ∉ removeStack w.
Proof.
  intros Hh fuel Hfuel.
  apply (persist_entry_keeps
           (fun w' => removeStack w' = removeStack w
                      ∧ ∀ x, x ∈ persistStack w' →
                             x ∈ persistStack w ∨ x ∉ removeStack w)
           e true w Hh); [| | |done].
  - split; [done|]. intros x Hx. by left.
  - by intros v e1 w1 [Hr Hp].
  - intros e1 w1 [Hr Hp] Hnin Hchk. cbn [andb] in Hchk.
    unfold includes in Hchk. apply bool_decide_eq_false in Hchk.
    assert (∀ w2, persistStack w2 = persistStack w1 →
                  removeStack w2 = removeStack w1 →
                  removeStack
                    (set_removeStack
                       (cleanUpStack
                          (removeStack
                             (set_persistStack (persistStack w2 ++ [e1]) w2))
                          e1)
                       (set_persistStack (persistStack w2 ++ [e1]) w2))
                  = removeStack w
                  ∧ ∀ x, x ∈ persistStack
                             (set_removeStack
                                (cleanUpStack
                                   (removeStack
                                      (set_persistStack
                                         (persistStack w2 ++ [e1]) w2))
                                   e1)
                                (set_persistStack (persistStack w2 ++ [e1]) w2))
                         → x ∈ persistStack w ∨ x ∉ removeStack w) as Hgo.
    { intros w2 Hp2 Hr2. simpl. rewrite Hp2, Hr2. split.
      - by rewrite cleanUpStack_notin.
      - intros x [Hx|Hx]%elem_of_app; [by apply Hp|].
        apply list_elem_of_singleton in Hx as ->. right. by rewrite <- Hr. }
    unfold persist_step. destruct (negb _); by apply Hgo.
Qed.

End Frames.

Section MergeData.
Context `{Collaborators}.

Lemma snapshot_kept_by_merge uuid check :
  operation_keeps (fun w => is_Some (originalEntityData w !! uuid)) MERGE check.
Proof.
  intros e1 w Hsn. split; [done|]. intros _ mergeData.
  unfold merge_step. destruct mergeData; simpl; [|done].
  rewrite lookup_insert. by destruct (decide _).
Qed.

(** X6. [merge(entity, [], false)] of an entity with a primary key still
    ends with a baseline snapshot of the entity: [merge] skips the
    snapshot, but its [cascade] call visits the entity first and calls
    [merge(entity, visited)] on it again, with [mergeData] back at its
    default. *)
Theorem merge_without_data_still_snapshots (e : Ent) (w : World) :
  hydrated w →
  hasPrimaryKey w e = true →
  ∀ fuel, 2 * size (ents w) + 4 ≤ fuel →
  ∃ w', with_new_array (fun visited => merge fuel e visited false) w
        = Return w'
        ∧ is_Some (originalEntityData w' !! __uuid (wrap w e)).
Proof.
  intros Hh Hpk fuel Hfuel.
  destruct (new_array_ready w Hh) as [Hh0 Hnd0].
  pose proof (unvisited_new_array w) as Hu.
  destruct (merge_returns (next_ref w) fuel e false (new_array w).2)
    as (w' & Hw' & _); [lia|done|done|].
  exists w'. split; [done|].
  set (v := next_ref w) in *. set (w0 := (new_array w).2) in *.
  destruct fuel as [|[|[|[|fuel]]]]; try lia.
  (* the entry call *)
  rewrite merge_unfold in Hw'.
  assert (same_graph w w0) as Hs0 by done.
  rewrite (same_graph_hasPrimaryKey w (define___em e w0)) in Hw'
    by (by apply same_graph_define___em).
  rewrite Hpk in Hw'. cbn [negb] in Hw'.
  set (w1 := merge_step e false w0) in *.
  assert (same_graph w w1) as Hs1.
  { eapply same_graph_trans; [exact Hs0|].
    by apply (same_graph_steps w0 w0 e (same_graph_refl w0)). }
  assert (array w1 v = []) as Ha1.
  { unfold w1, merge_step, w0, v, new_array, array; simpl.
    by rewrite lookup_insert_eq. }
  (* its cascade pushes the entity and merges it again *)
  rewrite cascade_unfold in Hw'. unfold includes in Hw'.
  rewrite Ha1, bool_decide_eq_false_2 in Hw' by set_solver.
  cbn [cascaded_operation] in Hw'. rewrite merge_unfold in Hw'.
  set (w2 := array_push v e w1) in *.
  assert (same_graph w w2) as Hs2 by (by eapply same_graph_ents).
  rewrite (same_graph_hasPrimaryKey w (define___em e w2)) in Hw'
    by (by apply same_graph_define___em).
  rewrite Hpk in Hw'. cbn [negb] in Hw'.
  set (w3 := merge_step e true w2) in *.
  assert (same_graph w w3) as Hs3.
  { eapply same_graph_trans; [exact Hs2|].
    by apply (same_graph_steps w2 w2 e (same_graph_refl w2)). }
  rewrite cascade_visited in Hw'.
  2:{ assert (array w3 v = array w2 v) as -> by done.
      unfold w2. rewrite array_array_push. set_solver. }
  cbn [bind] in Hw'.
  assert (is_Some (originalEntityData w3 !! __uuid (wrap w e))) as Hsn3.
  { unfold w3, merge_step. cbv zeta.
    match goal with
    | |- context [__uuid (wrap ?x e)] =>
        rewrite (same_graph_uuid w x e) by (by apply same_graph_define___em)
    end.
    cbn [originalEntityData set_originalEntityData].
    by rewrite lookup_insert_eq. }
  (* the walk over the relations keeps the snapshot *)
  assert (hydrated w3) as Hh3 by (by eapply same_graph_hydrated).
  destruct (cascade_family_keeps
              (fun w => is_Some (originalEntityData w !! __uuid (wrap w0 e)))
              MERGE v false w3 Hh3) with (fuel := S (S fuel)) (chk := false)
    as (_ & _ & Hr); [done|apply snapshot_kept_by_merge|done|].
  apply (for_each_keeps
           (fun w4 => is_Some (originalEntityData w4 !! __uuid (wrap w0 e))
                      ∧ same_graph w3 w4)) in Hw' as [Hsn _];
    [done| |by split].
  intros prop w4 w5 Hprop [Hsn4 Hs4] Hw5.
  apply (Hr e prop w4 w5); [by split| |done].
  rewrite (same_graph_className w3 w4) by done.
  by apply list_elem_of_filter in Hprop as [_ ?].
Qed.

End MergeData.

(** ** More on relation collections *)

Section CollectionMore.
Context `{Collaborators}.

Lemma cancelOrphanRemoval_returns c its w :
  is_Some (colls w !! c) →
  ∃ w', cancelOrphanRemoval c its w = Return w' ∧ colls w' = colls w.
Proof.
  intros [co Hco]. unfold cancelOrphanRemoval, with_coll. rewrite Hco.
  destruct (owner_has_em w co); eexists; (split; [done|]); [|done].
  apply colls_fold_cancel.
Qed.




Lemma isDirty_setDirty c d w co :
  colls w !! c = Some co →
  isDirty (setDirty c d w) c = d && owner (property co).
Proof.
  intros Hco. unfold isDirty, setDirty, update_coll; simpl.
  by rewrite lookup_alter_eq, Hco.
Qed.

Lemma isDirty_colls c w w' : colls w' = colls w → isDirty w' c = isDirty w c.
Proof. unfold isDirty. by intros ->. Qed.

(** X8. On the owning side, every [add], [set] or [remove] that returns
    leaves the collection dirty. *)
Theorem owning_collection_dirty_after_change
    (c : CollRef) (co : CollObj) (op : CollectionCall) (w w' : World) :
  colls w !! c = Some co →
  owner (property co) = true →
  match op with CallAdd _ | CallSet _ | CallRemove _ => True | _ => False end →
  call c op w = Return w' →
  isDirty w' c = true.
Proof.
  intros Hco Ho Hop.
  assert (∀ (its' : list nat) (super : list nat → list nat → list nat),
            isDirty (setDirty c true
                       (update_coll c
                          (fun co => set_items (super (items co) its') co) w)) c
            = true) as Hd.
  { intros its' super.
    rewrite (isDirty_setDirty c true _ (set_items (super (items co) its') co)).
    - simpl. by rewrite Ho.
    - unfold update_coll; simpl. by rewrite lookup_alter_eq, Hco. }
  destruct op as [vs|vs|its| | |]; try done; simpl.
  - unfold Collection_add, validateItemType.
    destruct (forallb isEntity vs); simpl; [|done].
    unfold modify, checkInitialized, with_coll. rewrite Hco.
    destruct (initialized co); simpl; [|done].
    rewrite (validateModification_spec c co) by done.
    destruct (_ && _); simpl; [done|].
    match goal with
    | |- cancelOrphanRemoval c ?i ?w1 = _ → _ =>
        destruct (cancelOrphanRemoval_returns c i w1) as (w2 & -> & Hc2)
    end.
    { unfold setDirty, update_coll; simpl. rewrite !lookup_alter_eq, Hco.
      by eexists. }
    intros [= <-]. rewrite (isDirty_colls c _ _ Hc2).
    apply (Hd (entities_of vs) super_add).
  - unfold Collection_set, validateItemType.
    destruct (forallb isEntity vs); simpl; [|done].
    rewrite (validateModification_spec c co) by done.
    destruct (_ && _); simpl; [done|].
    match goal with
    | |- cancelOrphanRemoval c ?i ?w1 = _ → _ =>
        destruct (cancelOrphanRemoval_returns c i w1) as (w2 & -> & Hc2)
    end.
    { unfold setDirty, update_coll; simpl. rewrite !lookup_alter_eq, Hco.
      by eexists. }
    intros [= <-]. rewrite (isDirty_colls c _ _ Hc2).
    apply (Hd (entities_of vs) super_set).
  - unfold Collection_remove, modify, checkInitialized, with_coll.
    rewrite Hco. destruct (initialized co); simpl; [|done].
    rewrite (validateModification_spec c co) by done.
    destruct (_ && _); simpl; [done|].
    rewrite !lookup_alter_eq, Hco; simpl.
    destruct (_ && _); intros [= <-].
    + rewrite (isDirty_colls c _ _ (colls_fold_schedule _ _)).
      apply (Hd its super_remove).
    + apply (Hd its super_remove).
Qed.

(** X9. After [takeSnapshot], and after a [hydrate] that returns, the
    snapshot is the item array of the collection and the collection is
    clean, on either side of the relation; [hydrate] also leaves it
    initialized. *)
Theorem snapshot_matches_items
    (c : CollRef) (co : CollObj) (its : list Ent) (validate : bool)
    (w : World) :
  colls w !! c = Some co →
  (∃ co', colls (takeSnapshot c w) !! c = Some co'
          ∧ snapshot co' = items co ∧ items co' = items co
          ∧ dirty co' = false)
  ∧ (∀ w', hydrate c its validate w = Return w' →
     ∃ co', colls w' !! c = Some co'
            ∧ snapshot co' = items co' ∧ dirty co' = false
            ∧ initialized co' = true
            ∧ items co' = super_hydrate (items co) its).
Proof.
  intros Hco. split.
  - eexists. split.
    + unfold takeSnapshot, setDirty, update_coll; simpl.
      rewrite !lookup_alter_eq, Hco. reflexivity.
    + done.
  - intros w'. unfold hydrate.
    assert (∀ w1, w1 = w →
              ∃ co', colls (takeSnapshot c
                       (update_coll c
                          (fun co => set_items (super_hydrate (items co) its)
                                       (set_initialized true co)) w1)) !! c
                     = Some co'
                     ∧ snapshot co' = items co' ∧ dirty co' = false
                     ∧ initialized co' = true
                     ∧ items co' = super_hydrate (items co) its) as Hgo.
    { intros w1 ->. eexists. split.
      - unfold takeSnapshot, setDirty, update_coll; simpl.
        rewrite !lookup_alter_eq, Hco. reflexivity.
      - done. }
    destruct validate; simpl.
    + rewrite (validateModification_spec c co) by done.
      destruct (_ && _); simpl; [done|]. intros [= <-]. by apply Hgo.
    + intros [= <-]. by apply Hgo.
Qed.


End CollectionMore.

(** ** Orphan removal *)

Section OrphanRemoval.
Context `{Collaborators}.

Lemma cleanUpStack_middle s t e :
  e ∉ s → e ∉ t → cleanUpStack (s ++ e :: t) e = s ++ t.
Proof.
  intros Hs Ht. induction s as [|x s IH]; simpl.
  - rewrite decide_True by done. destruct t as [|y t]; [done|].
    f_equal. apply cleanUpStack_notin. set_solver.
  - rewrite decide_False by set_solver. f_equal. apply IH. set_solver.
Qed.

Lemma cleanUpStack_twice_at_end s e :
  e ∉ s → cleanUpStack (s ++ [e; e]) e = s ++ [e].
Proof.
  intros Hs. induction s as [|x s IH]; simpl.
  - by rewrite decide_True.
  - rewrite decide_False by set_solver. f_equal. apply IH. set_solver.
Qed.

(** X11. What [cleanUpStack] does to a stack: the result is a sub-list of
    the stack in which every other entity keeps its place; from a stack
    without repetitions the entity is gone; of two occurrences next to
    each other, the second one is stepped over and stays. *)
Theorem cleanUpStack_effect (stack : list Ent) (e : Ent) :
  cleanUpStack stack e `sublist_of` stack
  ∧ filter (fun x => x ≠ e) (cleanUpStack stack e)
    = filter (fun x => x ≠ e) stack
  ∧ (NoDup stack → cleanUpStack stack e = filter (fun x => x ≠ e) stack)
  ∧ cleanUpStack (e :: e :: stack) e = e :: cleanUpStack stack e.
Proof.
  split; [apply cleanUpStack_sublist|].
  split; [apply cleanUpStack_others|].
  split; [apply cleanUpStack_NoDup_filter|].
  simpl. by rewrite decide_True.
Qed.

(** X12. [cancelOrphanRemoval] undoes one [scheduleOrphanRemoval] of an
    entity that was not scheduled before: the unit of work is as it was.
    After two schedulings in a row a single cancellation leaves the entity
    scheduled once. *)
Theorem orphan_removal_schedule_cancel (e : Ent) (w : World) :
  e ∉ orphanRemoveStack w →
  uow_cancelOrphanRemoval e (scheduleOrphanRemoval e w) = w
  ∧ orphanRemoveStack
      (uow_cancelOrphanRemoval e
         (scheduleOrphanRemoval e (scheduleOrphanRemoval e w)))
    = orphanRemoveStack w ++ [e].
Proof.
  intros Hnin. split.
  - unfold uow_cancelOrphanRemoval, scheduleOrphanRemoval.
    destruct w; simpl in *. f_equal.
    rewrite cleanUpStack_middle by set_solver. by rewrite app_nil_r.
  - unfold uow_cancelOrphanRemoval, scheduleOrphanRemoval; simpl.
    rewrite <- app_assoc. simpl. by apply cleanUpStack_twice_at_end.
Qed.

Lemma entities_of_VEntity its : entities_of (VEntity <$> its) = its.
Proof.
  induction its as [|i its IH]; [done|].
  unfold entities_of in *. simpl. by f_equal.
Qed.

Lemma isEntity_VEntity its : forallb isEntity (VEntity <$> its) = true.
Proof. by induction its. Qed.

Lemma orphan_fold_schedule its w :
  orphanRemoveStack (foldl (fun w i => scheduleOrphanRemoval i w) w its)
  = orphanRemoveStack w ++ its.
Proof.
  revert w. induction its as [|i its IH]; intros w; simpl.
  - by rewrite app_nil_r.
  - rewrite IH. simpl. by rewrite <- app_assoc.
Qed.

Lemma orphan_fold_cancel its s w :
  NoDup its → (∀ i, i ∈ its → i ∉ s) →
  orphanRemoveStack w = s ++ its →
  orphanRemoveStack (foldl (fun w i => uow_cancelOrphanRemoval i w) w its) = s.
Proof.
  revert w. induction its as [|i its IH]; intros w Hnd Hdis Hw; simpl.
  - by rewrite Hw, app_nil_r.
  - apply NoDup_cons in Hnd as [Hi Hnd].
    apply IH; [done|set_solver|].
    unfold uow_cancelOrphanRemoval; simpl. rewrite Hw.
    apply cleanUpStack_middle; [|done]. apply Hdis. set_solver.
Qed.

Lemma ents_update_coll c f w : ents (update_coll c f w) = ents w.
Proof. done. Qed.

(** X13. On an initialized collection with orphan removal whose owner is
    managed, [remove] schedules the removed items for orphan removal, in
    order, and an [add] of the same items right after cancels exactly
    that: the orphan stack is back to what it was. *)
Theorem remove_then_add_cancels_orphan_removal
    (c : CollRef) (co : CollObj) (its : list Ent) (w : World) :
  colls w !! c = Some co →
  initialized co = true →
  manyToManyInverse (property co) = false →
  orphanRemoval (property co) = true →
  owner_has_em w co = true →
  NoDup its →
  (∀ i, i ∈ its → i ∉ orphanRemoveStack w) →
  ∃ w1 w2,
    Collection_remove c its w = Return w1
    ∧ orphanRemoveStack w1 = orphanRemoveStack w ++ its
    ∧ Collection_add c (VEntity <$> its) w1 = Return w2
    ∧ orphanRemoveStack w2 = orphanRemoveStack w.
Proof.
  intros Hco Hinit Hinv Horph Hem Hnd Hdis.
  set (w0 := setDirty c true
               (update_coll c
                  (fun co => set_items (super_remove (items co) its) co) w)).
  set (co0 := set_dirty (true && owner (property co))
                (set_items (super_remove (items co) its) co)).
  assert (colls w0 !! c = Some co0) as Hco0.
  { unfold w0, setDirty, update_coll; simpl.
    by rewrite !lookup_alter_eq, Hco. }
  set (w1 := foldl (fun w i => scheduleOrphanRemoval i w) w0 its).
  assert (Collection_remove c its w = Return w1) as Hrem.
  { unfold Collection_remove, modify, checkInitialized, with_coll.
    rewrite Hco, Hinit; simpl.
    rewrite (validateModification_spec c co) by done. rewrite Hinv; simpl.
    rewrite !lookup_alter_eq, Hco; simpl. rewrite Horph; simpl.
    match goal with
    | |- context [owner_has_em ?a ?b] =>
        change (owner_has_em a b) with (owner_has_em w co)
    end.
    by rewrite Hem. }
  assert (orphanRemoveStack w1 = orphanRemoveStack w ++ its) as Hst1.
  { unfold w1. by rewrite orphan_fold_schedule. }
  assert (colls w1 !! c = Some co0) as Hco1.
  { unfold w1. by rewrite colls_fold_schedule. }
  assert (ents w1 = ents w) as He1.
  { unfold w1. clear. generalize w0 (eq_refl : ents w0 = ents w).
    induction its as [|i its IH]; intros w2 Hw2; simpl; [done|].
    by apply IH. }
  set (w1' := setDirty c true
                (update_coll c
                   (fun co => set_items (super_add (items co) its) co) w1)).
  set (co1 := set_dirty (true && owner (property co0))
                (set_items (super_add (items co0) its) co0)).
  assert (colls w1' !! c = Some co1) as Hco1'.
  { unfold w1', setDirty, update_coll; simpl.
    by rewrite !lookup_alter_eq, Hco1. }
  exists w1, (foldl (fun w i => uow_cancelOrphanRemoval i w) w1' its).
  split; [done|]. split; [done|]. split.
  - unfold Collection_add, validateItemType.
    rewrite isEntity_VEntity, entities_of_VEntity; simpl.
    unfold modify, checkInitialized, with_coll.
    rewrite Hco1.
    assert (initialized co0 = true) as -> by exact Hinit. simpl.
    rewrite (validateModification_spec c co0) by done.
    assert (manyToManyInverse (property co0) = false) as -> by exact Hinv.
    simpl. unfold cancelOrphanRemoval, with_coll.
    fold w1'. rewrite Hco1'.
    assert (owner_has_em w1' co1 = true) as ->; [|done].
    unfold owner_has_em. rewrite <- Hem. unfold owner_has_em.
    assert (ents w1' = ents w1) as -> by done. by rewrite He1.
  - apply orphan_fold_cancel; [done|done|]. exact Hst1.
Qed.

End OrphanRemoval.

(** ** Locking *)

Section Locking.
Context `{Collaborators}.

(** X14. The checks of [lock] in their order. An entity the identity map
    does not hold is refused in every lock mode, before anything else is
    looked at. For a managed entity, every mode but the optimistic one
    (the mode NONE too) needs an open transaction: without one the call
    throws, with one it is the lock query of the driver. An optimistic
    lock of a loaded, versioned entity with the version it has returns.
    No throw of [lock] itself changes the state. *)
Theorem lock_checks_in_order
    (entity : Ent) (mode : LockMode) (version : Value) (w : World) :
  let known :=
    getById w (className (wrap w entity)) (__primaryKeys (wrap w entity)) in
  let meta := metadata_get (className (wrap w entity)) in
  (known = None → lock entity mode version w = Throw EntityNotManaged w)
  ∧ (is_Some known → mode ≠ OPTIMISTIC → isInTransaction = false →
     lock entity mode version w = Throw TransactionRequired w)
  ∧ (is_Some known → mode ≠ OPTIMISTIC → isInTransaction = true →
     lock entity mode version w = lockQuery entity mode w)
  ∧ (is_Some known → mode = OPTIMISTIC →
     truthy_str (versionProperty meta) = true →
     isDefined version = true →
     __initialized (wrap w entity) = true →
     strict_eq (field w entity (versionProperty meta)) version = true →
     lock entity mode version w = Return w).
Proof.
  intros known meta. unfold lock. fold known. fold meta.
  split; [by intros ->|].
  split; [|split].
  - intros [m ->] Hmode Htx. unfold lockPessimistic. rewrite Htx.
    by destruct mode.
  - intros [m ->] Hmode Htx. unfold lockPessimistic. rewrite Htx.
    by destruct mode.
  - intros [m ->] -> Hv Hd Hi Heq. unfold lockOptimistic.
    rewrite Hv, Hd, Hi; simpl. by rewrite Heq.
Qed.

End Locking.

(** ** The commit *)

Section CommitMore.
Context `{Collaborators}.

Lemma find_strict_eq_reference (w : World) (t : Ent) (rs : list CsRef) :
  List.find (fun r => strict_eq (VEntity (cs_entity (cs w r))) (VReference t))
    rs = None.
Proof. by induction rs. Qed.

(** X15. The forward-reference step of [commitChangeSet]. The relation is
    deferred when the first change set for the entity the field holds is
    an insert that has not run: the triple is queued as an extra update,
    the field is deleted from the entity and from the payload of the
    change set, and the list of change sets stays. When that change set
    is no pending insert, nothing is done. A relation held through a
    reference wrapper is never deferred, whatever the change sets are:
    the wrapper is not the entity of any change set. *)
Theorem forward_reference_deferral
    (changeSet : CsRef) (prop : EntityProperty) (w : World) :
  let entity := cs_entity (cs w changeSet) in
  let target := field w entity (name prop) in
  let first :=
    List.find (fun r => strict_eq (VEntity (cs_entity (cs w r))) target)
      (changeSets w) in
  let w' := deferForwardReference changeSet prop w in
  (∀ r, first = Some r →
     cs_type (cs w r) = CREATE → cs_persisted (cs w r) = false →
     is_Some (ents w !! entity) →
     extraUpdates w' = extraUpdates w ++ [(entity, name prop, target)]
     ∧ field w' entity (name prop) = VUndefined
     ∧ cs_payload (cs w' changeSet) !! name prop = None
     ∧ changeSets w' = changeSets w)
  ∧ (∀ r, first = Some r →
     cs_type (cs w r) ≠ CREATE ∨ cs_persisted (cs w r) = true → w' = w)
  ∧ (first = None → w' = w)
  ∧ (∀ t, target = VReference t → w' = w).
Proof.
  intros entity target first w'.
  assert (∀ t, target = VReference t → first = None) as Href.
  { intros t Ht. unfold first. rewrite Ht. apply find_strict_eq_reference. }
  unfold w', deferForwardReference. fold entity. fold target. fold first.
  split; [|split; [|split]].
  - intros r -> Ht Hp [o Ho]. rewrite Ht, Hp.
    rewrite bool_decide_true by done. simpl.
    split; [done|]. split; [|split; [|done]].
    + unfold field, delete_field; simpl.
      rewrite lookup_alter_eq, Ho; simpl. by rewrite lookup_delete_eq.
    + unfold cs; simpl. rewrite lookup_alter_eq.
      destruct (csHeap w !! changeSet); simpl; [|done].
      by rewrite lookup_delete_eq.
  - intros r -> [Ht|Hp].
    + by rewrite bool_decide_false.
    + rewrite Hp. by rewrite andb_false_r.
  - by intros ->.
  - intros t Ht. by rewrite (Href t Ht).
Qed.

Lemma deleteChangeSet_fold (rs : list Ent) (w : World) :
  let w' := foldl (fun w entity => deleteChangeSet entity w) w rs in
  changeSets w' = changeSets w ++ seq (next_ref w) (length rs)
  ∧ next_ref w' = next_ref w + length rs
  ∧ ents w' = ents w
  ∧ removeStack w' = removeStack w
  ∧ (∀ i e, rs !! i = Some e →
       csHeap w' !! (next_ref w + i) = Some (deletion w e))
  ∧ (∀ r, r < next_ref w → csHeap w' !! r = csHeap w !! r).
Proof.
  revert w. induction rs as [|e rs IH]; intros w; simpl.
  - rewrite app_nil_r. repeat split; try done; lia.
  - destruct (IH (deleteChangeSet e w)) as (Hcs & Hn & He & Hr & Hnew & Hold).
    assert (next_ref (deleteChangeSet e w) = S (next_ref w)) as Hn1 by done.
    assert (changeSets (deleteChangeSet e w) = changeSets w ++ [next_ref w])
      as Hcs1 by done.
    assert (ents (deleteChangeSet e w) = ents w) as He1 by done.
    rewrite Hn1 in *. rewrite Hcs1 in Hcs.
    split; [by rewrite Hcs, <- app_assoc|].
    split; [lia|]. split; [by rewrite He|]. split; [by rewrite Hr|].
    split.
    + intros [|i] e' Hi; simpl in Hi.
      * injection Hi as <-. rewrite Nat.add_0_r, Hold by lia.
        unfold deleteChangeSet; simpl. by rewrite lookup_insert_eq.
      * replace (next_ref w + S i) with (S (next_ref w) + i) by lia.
        rewrite (Hnew i e' Hi). unfold deletion, wrap. by rewrite He1.
    + intros r Hlt. rewrite Hold by lia.
      unfold deleteChangeSet; simpl. by rewrite lookup_insert_ne by lia.
Qed.

(** X16. When [computeChangeSets] returns, the change sets end with one
    deletion for each entity of the remove stack, in the order of the
    stack, each with an empty payload and the name and collection of the
    metadata of its class. *)
Theorem computeChangeSets_ends_with_deletions
    (fuel : nat) (w w' : World) :
  computeChangeSets fuel w = Return w' →
  ∃ others deletions,
    changeSets w' = others ++ deletions
    ∧ cs w' <$> deletions = deletion w' <$> removeStack w'.
Proof.
  unfold computeChangeSets.
  destruct (for_each _ _ _) as [w1| |]; simpl; [|done|done].
  destruct (drainPersistStack fuel w1) as [w2| |]; simpl; [|done|done].
  destruct (for_each _ _ w2) as [w3| |]; simpl; [|done|done].
  intros [= <-].
  destruct (deleteChangeSet_fold (removeStack w3) w3)
    as (Hcs & Hn & He & Hr & Hnew & Hold).
  exists (changeSets w3), (seq (next_ref w3) (length (removeStack w3))).
  split; [done|]. rewrite Hr.
  apply list_eq. intros i. rewrite !list_lookup_fmap.
  destruct (removeStack w3 !! i) as [e|] eqn:Hi; simpl.
  - rewrite lookup_seq_lt by (by eapply lookup_lt_Some). simpl.
    unfold cs. rewrite (Hnew i e Hi). simpl.
    unfold deletion, wrap. by rewrite He.
  - rewrite lookup_seq_ge; [done|]. by apply lookup_ge_None.
Qed.

(** X17. A commit of a unit of work that tracks nothing (no managed
    entity, nothing on the persist, remove and orphan stacks, no pending
    collection or extra update) returns after [postCommitCleanup] without
    opening a transaction or reaching the driver, with any fuel. *)
Theorem commit_of_nothing (fuel : nat) (w : World) :
  identityMap w = [] →
  persistStack w = [] →
  removeStack w = [] →
  orphanRemoveStack w = [] →
  collectionUpdates w = [] →
  extraUpdates w = [] →
  commit (S fuel) w = Return (postCommitCleanup w).
Proof.
  intros Hi Hp Hr Ho Hc He.
  unfold commit, computeChangeSets. cbv zeta.
  set (w0 := set_changeSets [] w).
  assert (identityMap w0 = []) as -> by done.
  cbn [dict_values map fmap list_fmap filter list_filter].
  assert (∀ f w1, for_each (@nil Ent) f w1 = Return w1) as Hnil by done.
  rewrite Hnil. unfold bind at 2. cbn [drainPersistStack].
  assert (persistStack w0 = []) as -> by done. unfold bind at 2.
  assert (orphanRemoveStack w0 = []) as -> by done.
  rewrite Hnil. unfold bind at 2.
  assert (removeStack w0 = []) as -> by done. cbn [foldl]. unfold bind.
  assert (changeSets w0 = []) as -> by done.
  assert (collectionUpdates w0 = []) as -> by done.
  assert (extraUpdates w0 = []) as -> by done.
  rewrite !bool_decide_true by done. cbn [andb].
  by destruct w.
Qed.

Lemma unique_from_subseteq seen xs x :
  x ∈ unique_from seen xs → x ∈ xs.
Proof.
  revert seen. induction xs as [|y xs IH]; intros seen; simpl; [done|].
  destruct (decide (y ∈ seen)).
  - intros Hx. apply elem_of_cons. right. by eapply IH.
  - intros [->|Hx]%elem_of_cons; [set_solver|].
    apply elem_of_cons. right. by eapply IH.
Qed.

Lemma popped_subseteq xs x : x ∈ popped xs → x ∈ xs.
Proof.
  induction xs as [|y xs IH]; simpl; [done|].
  destruct (truthy_str y); [|by intros ?%elem_of_nil].
  intros [->|Hx]%elem_of_cons; set_solver.
Qed.

(** X18. The dependencies [getCommitOrder] gives the calculator. Each one
    comes from a property of an entity type that has a change set, points
    to a type that has a change set too, and that property is a
    many-to-one relation or the owning side of a one-to-one relation; its
    weight is 0 when the property is nullable and 1 otherwise. The commit
    order is the calculator's sort of the change-set names with exactly
    these dependencies. *)
Theorem commit_dependencies_from_owning_to_one (w : World) :
  let types := unique (map (fun r => cs_name (cs w r)) (changeSets w)) in
  getCommitOrder w = CommitOrderCalculator_sort types (commitDependencies w)
  ∧ ∀ target entityName weight,
      (target, entityName, weight) ∈ commitDependencies w →
      entityName ∈ types ∧ target ∈ types
      ∧ (∃ r, r ∈ changeSets w ∧ cs_name (cs w r) = entityName)
      ∧ ∃ prop,
          prop ∈ properties (metadata_get entityName)
          ∧ type prop = target
          ∧ (reference prop = MANY_TO_ONE
             ∨ (reference prop = ONE_TO_ONE ∧ owner prop = true))
          ∧ weight = (if nullable prop then 0 else 1).
Proof.
  intros types. split; [done|].
  set (ok := fun d : string * string * nat =>
    d.1.2 ∈ types ∧ d.1.1 ∈ types
    ∧ ∃ prop, prop ∈ properties (metadata_get d.1.2)
              ∧ type prop = d.1.1
              ∧ (reference prop = MANY_TO_ONE
                 ∨ (reference prop = ONE_TO_ONE ∧ owner prop = true))
              ∧ d.2 = (if nullable prop then 0 else 1)).
  assert (∀ names deps,
            (∀ n, n ∈ names → n ∈ types) → Forall ok deps →
            Forall ok
              (foldl (fun deps entityName =>
                        foldl (fun deps prop =>
                                 if bool_decide (type prop ∈ types)
                                 then addCommitDependency deps prop entityName
                                 else deps)
                          deps (properties (metadata_get entityName)))
                 deps names)) as Hfold.
  { intros names. induction names as [|n names IH]; intros deps Hn Hd;
      simpl; [done|].
    apply IH; [set_solver|].
    assert (n ∈ types) as Hnt by set_solver.
    assert (∀ props deps,
              (∀ p, p ∈ props → p ∈ properties (metadata_get n)) →
              Forall ok deps →
              Forall ok
                (foldl (fun deps prop =>
                          if bool_decide (type prop ∈ types)
                          then addCommitDependency deps prop n
                          else deps) deps props)) as Hin.
    { clear deps Hd. intros props.
      induction props as [|p props IHp]; intros deps Hp Hd; simpl; [done|].
      apply IHp; [set_solver|].
      destruct (bool_decide (type p ∈ types)) eqn:Ht; [|done].
      apply bool_decide_eq_true in Ht.
      unfold addCommitDependency.
      destruct (negb _ && negb _) eqn:Hskip; [done|].
      apply Forall_app. split; [done|]. apply Forall_singleton.
      split; [done|]. split; [done|]. exists p.
      split; [set_solver|]. split; [done|]. split; [|done].
      apply andb_false_iff in Hskip as [Hs|Hs].
      - apply negb_false_iff, andb_true_iff in Hs as [Hs1 Hs2].
        apply bool_decide_eq_true in Hs1. by right.
      - apply negb_false_iff, bool_decide_eq_true in Hs. by left. }
    by apply Hin. }
  intros target entityName weight Hdep.
  assert (Forall ok (commitDependencies w)) as Hall.
  { unfold commitDependencies. apply Hfold; [|constructor].
    intros n Hn%popped_subseteq. by apply (elem_of_reverse n types). }
  rewrite Forall_forall in Hall. destruct (Hall _ Hdep) as (Hn & Ht & Hp).
  simpl in *. split; [done|]. split; [done|]. split; [|done].
  apply unique_from_subseteq, list_elem_of_fmap in Hn as (r & -> & Hr).
  by exists r.
Qed.

(** X19. [unsetIdentity] forgets one entity and nothing else: afterwards
    the identity map has no entry under the key of the entity, and
    neither an identifier placeholder nor a snapshot under its uuid;
    every other key and every other uuid is as before, and so are the
    stacks and the entities themselves. *)
Theorem unsetIdentity_forgets_only_the_entity (entity : Ent) (w : World) :
  let w' := unsetIdentity entity w in
  dict_get (identityKey w entity) (identityMap w') = None
  ∧ identifierMap w' !! __uuid (wrap w entity) = None
  ∧ originalEntityData w' !! __uuid (wrap w entity) = None
  ∧ (∀ k, k ≠ identityKey w entity →
       dict_get k (identityMap w') = dict_get k (identityMap w))
  ∧ (∀ u, u ≠ __uuid (wrap w entity) →
       identifierMap w' !! u = identifierMap w !! u
       ∧ originalEntityData w' !! u = originalEntityData w !! u)
  ∧ persistStack w' = persistStack w
  ∧ removeStack w' = removeStack w
  ∧ orphanRemoveStack w' = orphanRemoveStack w
  ∧ ents w' = ents w.
Proof.
  intros w'. unfold w', unsetIdentity; simpl.
  split; [apply dict_get_delete_eq|].
  split; [apply lookup_delete_eq|]. split; [apply lookup_delete_eq|].
  split; [intros k Hk; by apply dict_get_delete_ne|].
  split; [|done].
  intros u Hu. by rewrite !lookup_delete_ne.
Qed.

End CommitMore.

(** ** The search for new entities *)

Section NewEntities.
Context `{Collaborators}.
Variable visited : nat.

Lemma searched_refl w : searched visited w w.
Proof. by repeat split. Qed.

Lemma searched_trans w1 w2 w3 :
  searched visited w1 w2 → searched visited w2 w3 → searched visited w1 w3.
Proof.
  intros (Ha & Hn & Hd & Hp) (Ha' & Hn' & Hd' & Hp').
  split; [by etrans|]. split; [auto|]. split; [by rewrite Hd'|by etrans].
Qed.

Lemma searched_same w w' :
  arrays w' = arrays w → dom (ents w') = dom (ents w) →
  persistStack w' `sublist_of` persistStack w →
  searched visited w w'.
Proof.
  intros Ha Hd Hp. unfold searched, array. rewrite Ha. by repeat split.
Qed.

Lemma searched_unvisited w w' :
  searched visited w w' → unvisited visited w' ≤ unvisited visited w.
Proof.
  intros ([k Hk] & _ & Hd & _). unfold unvisited. rewrite Hd, Hk.
  apply subseteq_size. rewrite list_to_set_app_L. set_solver.
Qed.

Lemma searched_elem w w' e :
  searched visited w w' → e ∈ array w visited → e ∈ array w' visited.
Proof. intros ([k Hk] & _) He. rewrite Hk. set_solver. Qed.

Lemma searched_array_push w e :
  e ∉ array w visited → searched visited w (array_push visited e w).
Proof.
  intros He. split; [|split; [|done]].
  - exists [e]. apply array_array_push.
  - intros Hnd. rewrite array_array_push. apply NoDup_app.
    split; [done|]. split; [set_solver|apply NoDup_singleton].
Qed.

Lemma for_each_ends {A} (J : World → Prop) (body : A → World → Outcome)
    xs w :
  (∀ x w, x ∈ xs → J w → ended (body x w) J) →
  J w → ended (for_each xs body w) J.
Proof.
  revert w. induction xs as [|x xs IH]; intros w Hbody HJ; [done|].
  rewrite for_each_cons.
  pose proof (Hbody x w ltac:(set_solver) HJ) as Hx.
  destruct (body x w) as [w1|err w1|]; simpl in *; [|done|done].
  apply IH; [|done]. intros y w2 Hy. apply Hbody. set_solver.
Qed.

Lemma findNewEntities_unfold fuel entity w :
  findNewEntities (S fuel) entity visited w =
    if includes entity (array w visited) then Return w
    else
      let w := array_push visited entity w in
      if negb (__initialized (wrap w entity)) then Return w
      else
        let w :=
          if negb (hasPrimaryKey w entity)
             && bool_decide (identifierMap w !! __uuid (wrap w entity) = None)
          then set_identifierMap
                 (<[__uuid (wrap w entity) := ()]> (identifierMap w)) w
          else w in
        for_each (properties (metadata_get (className (wrap w entity))))
          (fun prop w =>
             processReference fuel entity prop
               (unwrapReference w entity prop) visited w)
          w >>- fun w =>
        match computeChangeSet entity w with
        | ComputeThrows err w => Throw err w
        | Computes None w => Return w
        | Computes (Some changeSet) w =>
            let '(r, w) := new_changeSet changeSet w in
            let w := set_changeSets (changeSets w ++ [r]) w in
            let w := set_persistStack (cleanUpStack (persistStack w) entity) w in
            Return (set_originalEntityData
                      (<[__uuid (wrap w entity) := prepareEntity w entity]>
                         (originalEntityData w)) w)
        end.
Proof. reflexivity. Qed.

Lemma processReference_unfold fuel parent prop reference_ w :
  processReference (S fuel) parent prop reference_ visited w =
    if isToOne prop && truthy reference_
    then processToOneReference fuel reference_ visited w
    else
      match reference_ with
      | VCollection c =>
          if isCollection reference_ prop MANY_TO_MANY && isDirty w c
          then processToManyReference fuel c visited parent prop w
          else Return w
      | _ => Return w
      end.
Proof. reflexivity. Qed.

Lemma processToOneReference_unfold fuel reference_ w :
  processToOneReference (S fuel) reference_ visited w =
    match reference_ with
    | VEntity e =>
        if not_snapshotted w e then findNewEntities fuel e visited w
        else Return w
    | _ => Throw TypeError w
    end.
Proof. reflexivity. Qed.

Lemma processToManyReference_unfold fuel reference_ parent prop w :
  processToManyReference (S fuel) reference_ visited parent prop w =
    match getItems w reference_ with
    | None => Throw CollectionNotInitialized w
    | Some its =>
        if isCollectionSelfReferenced w its visited then
          let w := set_extraUpdates
                     (extraUpdates w
                        ++ [(parent, name prop, VCollection reference_)]) w in
          let c := next_ref w in
          let w := set_next_ref (S c)
                     (set_colls (<[c := new_Collection parent prop]> (colls w))
                        w) in
          Return (set_field parent (name prop) (VCollection c) w)
        else
          for_each (filter (fun item => not_snapshotted w item = true) its)
            (fun item => findNewEntities fuel item visited)
            w
    end.
Proof. reflexivity. Qed.

Lemma dom_ents_set_field e key v w :
  dom (ents (set_field e key v w)) = dom (ents w).
Proof. unfold set_field; simpl. apply dom_alter_L. Qed.

Hypothesis computeChangeSet_in_place : computes_in_place.

Lemma findNewEntities_ends n :
  ∀ fuel e w,
    unvisited visited w ≤ n → 3 * n + 1 ≤ fuel →
    ended (findNewEntities fuel e visited w)
      (fun w' => searched visited w w' ∧ e ∈ array w' visited).
Proof.
  induction n as [|k IH]; intros fuel e w Hn Hfuel.
  all: destruct fuel as [|fuel]; [lia|]; rewrite findNewEntities_unfold.
  all: unfold includes; destruct (decide (e ∈ array w visited)) as [Hin|Hnin];
    [rewrite bool_decide_eq_true_2 by done; simpl;
     split; [apply searched_refl|done]
    |rewrite bool_decide_eq_false_2 by done].
  all: cbv zeta.
  all: pose proof (searched_array_push w e Hnin) as Hs1.
  all: assert (e ∈ array (array_push visited e w) visited) as He1
    by (rewrite array_array_push; set_solver).
  all: destruct (__initialized (wrap (array_push visited e w) e)) eqn:Hinit;
    cbn [negb]; [|by simpl].
  all: assert (is_Some (ents w !! e)) as Hheap
    by (unfold wrap in Hinit; simpl in Hinit;
        destruct (ents w !! e); [by eexists|done]).
  all: pose proof (unvisited_array_push visited e w Hheap Hnin) as Hlt.
  { lia. }
  set (w1 := array_push visited e w) in *.
  match goal with
  | |- ended (for_each _ _ ?x >>- _) _ => set (w2 := x)
  end.
  assert (searched visited w1 w2) as Hs2.
  { unfold w2. destruct (_ && _); [|apply searched_refl].
    by apply searched_same. }
  set (J := fun w' => searched visited w2 w').
  assert (∀ w' e', J w' → ended (findNewEntities (fuel - 2) e' visited w') J)
    as Hrec.
  { intros w' e' HJ.
    assert (unvisited visited w' ≤ k) as Hk.
    { pose proof (searched_unvisited _ _ HJ).
      pose proof (searched_unvisited _ _ Hs2). lia. }
    pose proof (IH (fuel - 2) e' w' Hk ltac:(lia)) as Hend.
    destruct (findNewEntities (fuel - 2) e' visited w'); simpl in *;
      [| |done]; destruct Hend as [Hend _]; by eapply searched_trans. }
  assert (ended
            (for_each (properties (metadata_get (className (wrap w2 e))))
               (fun prop w =>
                  processReference fuel e prop (unwrapReference w e prop)
                    visited w) w2) J) as Hloop.
  { apply for_each_ends; [|apply searched_refl].
    intros prop w' _ HJ.
    destruct fuel as [|f1]; [lia|]. rewrite processReference_unfold.
    destruct f1 as [|f2]; [lia|].
    replace (S (S f2) - 2) with f2 in Hrec by lia.
    destruct (isToOne prop && truthy (unwrapReference w' e prop)).
    - rewrite processToOneReference_unfold.
      destruct (unwrapReference w' e prop) as [| | | |e'| | |];
        try exact HJ.
      destruct (not_snapshotted w' e'); [by apply Hrec|exact HJ].
    - destruct (unwrapReference w' e prop) as [| | | | | |c|];
        try exact HJ.
      destruct (isCollection _ _ _ && isDirty _ _); [|exact HJ].
      rewrite processToManyReference_unfold.
      destruct (getItems w' c) as [its|]; [|exact HJ].
      destruct (isCollectionSelfReferenced w' its visited).
      + simpl. eapply searched_trans; [exact HJ|].
        apply searched_same; [done|by rewrite dom_ents_set_field|done].
      + apply for_each_ends; [|done]. intros item w'' _ HJ'. by apply Hrec. }
  assert (∀ w', J w' → searched visited w w' ∧ e ∈ array w' visited) as Hout.
  { intros w' HJ.
    assert (searched visited w1 w') as Hs by (by eapply searched_trans).
    split; [by eapply searched_trans|]. by eapply searched_elem. }
  destruct (for_each _ _ w2) as [w3|err w3|]; simpl in *; [| |done].
  2:{ by apply Hout. }
  pose proof (computeChangeSet_in_place e w3) as Hc. simpl in Hc.
  destruct (computeChangeSet e w3) as [[changeSet|] w4|err w4]; simpl.
  - destruct Hc as (Ha & Hd & Hp). apply Hout. unfold J.
    eapply searched_trans; [exact Hloop|].
    apply searched_same; [done|done|]. simpl. rewrite Hp.
    apply cleanUpStack_sublist.
  - destruct Hc as (Ha & Hd & Hp). apply Hout. unfold J.
    eapply searched_trans; [exact Hloop|].
    apply searched_same; [done|done|by rewrite Hp].
  - destruct Hc as (Ha & Hd & Hp). apply Hout. unfold J.
    eapply searched_trans; [exact Hloop|].
    apply searched_same; [done|done|by rewrite Hp].
Qed.

(** X20. With a change-set computer that works in place (it creates and
    drops no entity and leaves the visited arrays and the persist stack
    alone), the search for new entities comes to an end on every object
    graph, cyclic or not, hydrated or not: with a bound on the call depth
    of three times the number of entities not yet visited, plus one,
    [findNewEntities] returns or throws. It only appends to [visited],
    never an entity that is already there, the entity it was called on is
    in [visited] afterwards, no entity is created or dropped, and the
    persist stack only loses entries. *)
Theorem findNewEntities_terminates (fuel : nat) (e : Ent) (w : World) :
  3 * unvisited visited w + 1 ≤ fuel →
  ended (findNewEntities fuel e visited w)
    (fun w' => searched visited w w' ∧ e ∈ array w' visited).
Proof. intros Hfuel. by eapply findNewEntities_ends. Qed.

End NewEntities.

Section PersistStack.
Context `{Collaborators}.
Hypothesis computeChangeSet_in_place : computes_in_place.

(** X21. With a change-set computer that works in place, the loop of
    [computeChangeSets] over the persist stack comes to an end: with a
    bound of the length of the stack plus three times the
    number of entities, plus two, it returns or throws, and when it
    returns the persist stack is empty. No entity is created or dropped
    on the way. *)
Theorem persist_stack_drains (fuel : nat) (w : World) :
  length (persistStack w) + 3 * size (ents w) + 2 ≤ fuel →
  ended (drainPersistStack fuel w)
    (fun w' => dom (ents w') = dom (ents w))
  ∧ ∀ w', drainPersistStack fuel w = Return w' → persistStack w' = [].
Proof.
  assert (∀ m fuel w,
            length (persistStack w) ≤ m →
            m + 3 * size (ents w) + 2 ≤ fuel →
            ended (drainPersistStack fuel w)
              (fun w' => dom (ents w') = dom (ents w))
            ∧ ∀ w', drainPersistStack fuel w = Return w' →
                    persistStack w' = []) as Hgo.
  { clear fuel w. intros m.
    induction m as [|m IH]; intros fuel w Hlen Hfuel.
    { destruct fuel as [|fuel]; [lia|]. cbn [drainPersistStack].
      destruct (persistStack w) as [|entity rest] eqn:Hstack;
        [|simpl in Hlen; lia].
      split; [done|]. by intros w' [= <-]. }
    destruct fuel as [|fuel]; [lia|]. cbn [drainPersistStack].
    destruct (persistStack w) as [|entity rest] eqn:Hstack.
    { split; [done|]. by intros w' [= <-]. }
    simpl in Hlen. unfold with_new_array.
    change (new_array (set_persistStack rest w))
      with (next_ref w, (new_array (set_persistStack rest w)).2).
    cbv iota beta.
    set (w0 := (new_array (set_persistStack rest w)).2).
    assert (unvisited (next_ref w) w0 = size (ents w)) as Hun
      by apply (unvisited_new_array (set_persistStack rest w)).
    pose proof (findNewEntities_ends (next_ref w) computeChangeSet_in_place
                  (size (ents w)) fuel entity w0 ltac:(lia) ltac:(lia))
      as Hend.
    destruct (findNewEntities fuel entity (next_ref w) w0) as [w1|err w1|];
      simpl in Hend; cbn [bind]; [| |done].
    - destruct Hend as ((_ & _ & Hd & Hp) & _).
      assert (dom (ents w1) = dom (ents w)) as Hd' by exact Hd.
      assert (size (ents w1) = size (ents w)) as Hsz.
      { rewrite <- !size_dom. by rewrite Hd'. }
      destruct (IH fuel w1) as [He Hr].
      + apply sublist_length in Hp. simpl in Hp. lia.
      + lia.
      + split; [|done].
        destruct (drainPersistStack fuel w1); simpl in *; [| |done];
          by rewrite He, Hd'.
    - destruct Hend as ((_ & _ & Hd & _) & _). split; [exact Hd|done]. }
  intros Hfuel. by eapply Hgo.
Qed.

End PersistStack.

(** ** Relation fields on the way of a cascade *)

Section RelationFields.
Context `{Collaborators}.

Lemma isToMany_not_isToOne prop : isToMany prop = true → isToOne prop = false.
Proof.
  unfold isToMany, isToOne. destruct (reference prop); by vm_compute.
Qed.


(** X23. A cascade of persist stops at an initialized collection that
    has an item which is not loaded: nothing is walked and nothing
    changes, whatever the cascade option of the relation. A cascade of
    remove over the same collection, when the relation cascades it, walks
    every item. *)
Theorem persist_cascade_needs_loaded_items
    (fuel : nat) (entity : Ent) (prop : EntityProperty) (c : CollRef)
    (co : CollObj) (visited : nat) (check : bool) (w : World) :
  field w entity (name prop) = VCollection c →
  colls w !! c = Some co →
  initialized co = true →
  isToMany prop = true →
  (∃ item, item ∈ items co ∧ value_isInitialized w (VEntity item) = false) →
  cascadeReference (S fuel) entity prop PERSIST visited check w = Return w
  ∧ (shouldCascade prop REMOVE = true →
     cascadeReference (S fuel) entity prop REMOVE visited false w
     = for_each (items co)
         (fun item => cascade fuel item REMOVE visited false) w).
Proof.
  intros Hf Hc Hinit Hmany (item & Hitem & Hload).
  assert (unwrapReference w entity prop = VCollection c) as Hu
    by (unfold unwrapReference; by rewrite Hf).
  assert (fixMissingReference entity prop w = Return w) as Hfix.
  { unfold fixMissingReference. rewrite Hu.
    by rewrite (isToMany_not_isToOne prop Hmany). }
  assert (∀ type_ chk,
            cascadeReference (S fuel) entity prop type_ visited chk w =
              if negb (shouldCascade prop type_) then Return w
              else if Collection_isInitialized w c (bool_decide (type_ = PERSIST))
                   then for_each (default [] (getItems w c))
                          (fun item => cascade fuel item type_ visited chk) w
                   else Return w) as Hstep.
  { intros type_ chk. cbn [cascadeReference]. rewrite Hfix. cbn [bind].
    rewrite Hu, Hmany, (isToMany_not_isToOne prop Hmany). by cbn [andb]. }
  split.
  - rewrite Hstep. destruct (negb _); [done|].
    unfold Collection_isInitialized. rewrite Hc, Hinit.
    rewrite bool_decide_true by done. cbn [andb].
    assert (forallb (fun item => value_isInitialized w (VEntity item))
              (items co) = false) as ->; [|done].
    apply not_true_iff_false. rewrite forallb_forall.
    intros Hall. rewrite (Hall item) in Hload; [done|].
    by apply list_elem_of_In.
  - intros Hsc. rewrite Hstep, Hsc. cbn [negb].
    unfold Collection_isInitialized, getItems. rewrite Hc, Hinit.
    by rewrite bool_decide_false.
Qed.

End RelationFields.

(** ** The properties on the sample graphs *)

Local Open Scope string_scope.
Local Open Scope list_scope.

Lemma press_world_hydrated : hydrated (H := press_collaborators) press_world.
Proof. apply hydratedb_correct. vm_compute. reflexivity. Qed.

Lemma press_world_beyond (e : nat) : 3 < e → ents press_world !! e = None.
Proof.
  intros He. unfold press_world.
  cbn [ents set_removeStack set_identityMap set_originalEntityData set_colls
         set_ents].
  rewrite !lookup_insert_ne by lia. apply lookup_singleton_ne. lia.
Qed.

Lemma sample_computes_in_place meta driver init :
  computes_in_place (H := sample_collaborators meta driver init).
Proof.
  intros e w. simpl. unfold sample_computeChangeSet.
  by destruct (originalEntityData w !! _).
Qed.

Lemma stacks_stay_well_formed_witness :
  ∃ w', UnitOfWork_persist (H := press_collaborators) 20 3 press_world
        = Return w'
        ∧ stacks_wf w'.
Proof.
  destruct (stacks_stay_well_formed (H := press_collaborators) 3 press_world)
    with (fuel := 20) as (Hpersist & _).
  - apply hydratedb_correct. vm_compute. reflexivity.
  - split; [constructor|]. split; [apply NoDup_singleton|].
    intros e He. vm_compute in He. by apply elem_of_nil in He.
  - vm_compute. lia.
  - exact Hpersist.
Defined.

Lemma registry_stays_sound_witness :
  ∃ w', UnitOfWork_merge (H := press_collaborators) 20 3 press_world
        = Return w'
        ∧ registry_sound w'.
Proof.
  destruct (registry_stays_sound (H := press_collaborators) 3 press_world)
    with (fuel := 20) as (_ & _ & Hmerge).
  - apply hydratedb_correct. vm_compute. reflexivity.
  - intros k e Hk. simpl in Hk.
    destruct (decide (k = "Author-1")) as [->|_];
      [injection Hk as <-; vm_compute; reflexivity|].
    destruct (decide (k = "Book-2")) as [->|_]; [|done].
    injection Hk as <-. vm_compute. reflexivity.
  - vm_compute. lia.
  - exact Hmerge.
Defined.

Lemma merge_then_getById_witness :
  ∃ w', UnitOfWork_merge (H := press_collaborators) 20 1 press_world
        = Return w'
        ∧ (∀ id, getPrimaryKeyHash (Collaborators := press_collaborators) id
                 = __serializedPrimaryKey (wrap press_world 1) →
                 getById (H := press_collaborators) w'
                   (className (wrap press_world 1)) id = Some 1)
        ∧ is_Some (originalEntityData w' !! __uuid (wrap press_world 1)).
Proof.
  apply (merge_then_getById (H := press_collaborators) 1 press_world).
  - apply hydratedb_correct. vm_compute. reflexivity.
  - vm_compute. reflexivity.
  - intros e' Hpk Hkey.
    destruct e' as [|[|[|[|e']]]].
    + vm_compute in Hpk. discriminate.
    + reflexivity.
    + vm_compute in Hkey. discriminate.
    + vm_compute in Hpk. discriminate.
    + unfold hasPrimaryKey, wrap in Hpk.
      rewrite press_world_beyond in Hpk by lia.
      vm_compute in Hpk. discriminate.
  - vm_compute. lia.
Defined.

Lemma entry_points_frame_witness :
  ∃ w', UnitOfWork_remove (H := press_collaborators) 20 1 press_world
        = Return w'
        ∧ untouched_by_cascade press_world w'.
Proof.
  destruct (entry_points_frame (H := press_collaborators) 1 press_world)
    with (fuel := 20) as (_ & Hremove & _).
  - apply hydratedb_correct. vm_compute. reflexivity.
  - vm_compute. lia.
  - exact Hremove.
Defined.

Lemma persist_checked_spares_removals_witness :
  ∃ w', with_new_array
          (fun visited =>
             persist (H := press_collaborators) 20 1 visited true)
          press_world = Return w'
        ∧ removeStack w' = removeStack press_world
        ∧ ∀ x, x ∈ persistStack w' →
               x ∈ persistStack press_world ∨ x ∉ removeStack press_world.
Proof.
  apply (persist_checked_spares_removals (H := press_collaborators) 1
           press_world).
  - apply hydratedb_correct. vm_compute. reflexivity.
  - vm_compute. lia.
Defined.

Lemma merge_without_data_still_snapshots_witness :
  ∃ w', with_new_array
          (fun visited =>
             merge (H := press_collaborators) 20 2 visited false)
          press_world = Return w'
        ∧ is_Some (originalEntityData w' !! __uuid (wrap press_world 2)).
Proof.
  apply (merge_without_data_still_snapshots (H := press_collaborators) 2
           press_world).
  - apply hydratedb_correct. vm_compute. reflexivity.
  - vm_compute. reflexivity.
  - vm_compute. lia.
Defined.


Lemma owning_collection_dirty_after_change_witness :
  ∃ w', call (H := library_collaborators) 11 (CallAdd [VEntity 1])
          library_world = Return w'
        ∧ isDirty w' 11 = true.
Proof.
  eexists. split; [vm_compute; reflexivity|].
  eapply (owning_collection_dirty_after_change (H := library_collaborators)
            11 (new_Collection 2 Book_tags) (CallAdd [VEntity 1])
            library_world).
  - vm_compute. reflexivity.
  - reflexivity.
  - exact I.
  - vm_compute. reflexivity.
Defined.

Lemma snapshot_matches_items_witness :
  ∃ w' co',
    hydrate (H := library_collaborators) 12 [1] false library_world
    = Return w'
    ∧ colls w' !! 12 = Some co'
    ∧ snapshot co' = items co' ∧ dirty co' = false
    ∧ initialized co' = true.
Proof.
  destruct (snapshot_matches_items (H := library_collaborators) 12
              (set_initialized false (new_Collection 3 Book_tags)) [1] false
              library_world) as [_ Hhydrate].
  - vm_compute. reflexivity.
  - assert (∃ w', hydrate (H := library_collaborators) 12 [1] false
                    library_world = Return w') as [w' Hw']
      by (eexists; reflexivity).
    destruct (Hhydrate w' Hw') as (co' & Hco' & Hsnap & Hdirty & Hinit & _).
    exists w', co'. split; [exact Hw'|]. split; [exact Hco'|].
    split; [exact Hsnap|]. split; [exact Hdirty|exact Hinit].
Defined.


Lemma cleanUpStack_effect_witness :
  cleanUpStack [1; 2; 3] 2 = filter (fun x => x ≠ 2) [1; 2; 3].
Proof.
  destruct (cleanUpStack_effect [1; 2; 3] 2) as (_ & _ & Hfilter & _).
  apply Hfilter. apply (bool_decide_unpack _). vm_compute. reflexivity.
Defined.

Lemma orphan_removal_schedule_cancel_witness :
  uow_cancelOrphanRemoval 3 (scheduleOrphanRemoval 3 press_world)
  = press_world.
Proof.
  destruct (orphan_removal_schedule_cancel 3 press_world) as [Hback _].
  - intros Hin. vm_compute in Hin. by apply elem_of_nil in Hin.
  - exact Hback.
Defined.

Lemma remove_then_add_cancels_orphan_removal_witness :
  ∃ w1 w2,
    Collection_remove (H := press_collaborators) 10 [3] managed_press_world
    = Return w1
    ∧ orphanRemoveStack w1 = orphanRemoveStack managed_press_world ++ [3]
    ∧ Collection_add (H := press_collaborators) 10 (VEntity <$> [3]) w1
      = Return w2
    ∧ orphanRemoveStack w2 = orphanRemoveStack managed_press_world.
Proof.
  apply (remove_then_add_cancels_orphan_removal (H := press_collaborators) 10
           (set_items [2; 3] (new_Collection 1 Author_books)) [3]
           managed_press_world).
  - vm_compute. reflexivity.
  - reflexivity.
  - vm_compute. reflexivity.
  - reflexivity.
  - vm_compute. reflexivity.
  - apply NoDup_singleton.
  - intros i _ Hin. vm_compute in Hin. by apply elem_of_nil in Hin.
Defined.

Lemma lock_checks_in_order_witness :
  lock (H := account_collaborators) 1 NONE VUndefined account_world
  = Throw TransactionRequired account_world.
Proof.
  destruct (lock_checks_in_order (H := account_collaborators) 1 NONE
              VUndefined account_world) as (_ & Hpessimistic & _).
  apply Hpessimistic.
  - exists 1. vm_compute. reflexivity.
  - discriminate.
  - reflexivity.
Defined.

Lemma forward_reference_deferral_witness :
  extraUpdates (deferForwardReference 0 Book_author forward_world)
  = [(3, "author", VEntity 4)]
  ∧ field (deferForwardReference 0 Book_author forward_world) 3 "author"
    = VUndefined.
Proof.
  destruct (forward_reference_deferral 0 Book_author forward_world)
    as (Hdefer & _).
  destruct (Hdefer 1) as (Hqueue & Hfield & _).
  - vm_compute. reflexivity.
  - vm_compute. reflexivity.
  - vm_compute. reflexivity.
  - exists (entity_of "Book" "b3" None true {[ "author" := VEntity 4 ]}).
    vm_compute. reflexivity.
  - split; [exact Hqueue|exact Hfield].
Defined.

Lemma computeChangeSets_ends_with_deletions_witness :
  ∃ w' others deletions,
    computeChangeSets (H := press_collaborators) 30 press_world = Return w'
    ∧ changeSets w' = others ++ deletions
    ∧ cs w' <$> deletions
      = deletion (H := press_collaborators) w' <$> removeStack w'.
Proof.
  assert (∃ w', computeChangeSets (H := press_collaborators) 30 press_world
                = Return w') as [w' Hw']
    by (eexists; vm_compute; reflexivity).
  destruct (computeChangeSets_ends_with_deletions
              (H := press_collaborators) 30 press_world w' Hw')
    as (others & deletions & Hsplit & Hdel).
  exists w', others, deletions.
  split; [exact Hw'|]. split; [exact Hsplit|exact Hdel].
Defined.

Lemma commit_of_nothing_witness :
  commit (H := library_collaborators) 1 empty_world
  = Return (postCommitCleanup empty_world).
Proof.
  apply (commit_of_nothing (H := library_collaborators) 0 empty_world);
    reflexivity.
Defined.

Lemma commit_dependencies_from_owning_to_one_witness :
  ∃ prop,
    prop ∈ properties (press_metadata "Book")
    ∧ type prop = "Author"
    ∧ (reference prop = MANY_TO_ONE
       ∨ (reference prop = ONE_TO_ONE ∧ owner prop = true))
    ∧ 1 = (if nullable prop then 0 else 1).
Proof.
  destruct (commit_dependencies_from_owning_to_one
              (H := press_collaborators) unsorted_world) as [_ Hdeps].
  destruct (Hdeps "Author" "Book" 1) as (_ & _ & _ & Hprop).
  - apply (bool_decide_unpack _). vm_compute. reflexivity.
  - exact Hprop.
Defined.

Lemma unsetIdentity_forgets_only_the_entity_witness :
  dict_get "Author-1"
    (identityMap (unsetIdentity 2 press_world))
  = dict_get "Author-1" (identityMap press_world).
Proof.
  destruct (unsetIdentity_forgets_only_the_entity 2 press_world)
    as (_ & _ & _ & Hothers & _).
  apply Hothers. intros Heq. vm_compute in Heq. discriminate.
Defined.

Lemma findNewEntities_terminates_witness :
  ended (findNewEntities (H := press_collaborators) 10 3 100 press_world)
    (fun w' => searched 100 press_world w' ∧ 3 ∈ array w' 100).
Proof.
  apply (findNewEntities_terminates (H := press_collaborators) 100).
  - apply sample_computes_in_place.
  - vm_compute. lia.
Defined.

Lemma persist_stack_drains_witness :
  ended (drainPersistStack (H := library_collaborators) 6 pending_world)
    (fun w' => dom (ents w') = dom (ents pending_world)).
Proof.
  destruct (persist_stack_drains (H := library_collaborators)
              (sample_computes_in_place _ _ _) 6 pending_world)
    as [Hend _].
  - vm_compute. lia.
  - exact Hend.
Defined.


Lemma persist_cascade_needs_loaded_items_witness :
  cascadeReference (H := press_collaborators) 1 1 Author_books PERSIST 100
    false stub_world
  = Return stub_world.
Proof.
  destruct (persist_cascade_needs_loaded_items (H := press_collaborators) 0 1
              Author_books 10
              (set_items [2; 3] (new_Collection 1 Author_books)) 100 false
              stub_world) as [Hstop _].
  - vm_compute. reflexivity.
  - vm_compute. reflexivity.
  - reflexivity.
  - reflexivity.
  - exists 3. split; [|vm_compute; reflexivity].
    apply (bool_decide_unpack _). vm_compute. reflexivity.
  - exact Hstop.
Defined.
